(** * Idle tomography core (pyGSTi, [extras/idletomography/idtcore.py])

    A shallow embedding of the core idle-tomography routines and the
    properties of them that the specification states.

    Conventions of the embedding.
    - Python [int]s are [Z]; floating-point numbers are idealised as real
      numbers [R].
    - Python strings are [string]; iterating over one goes through
      [list_ascii_of_string].
    - A Python call that may raise returns a [result]: [Ok v] or [Raise e].
    - The collaborators that live outside [idtcore.py] ([pauliobjs],
      [idttools], [numpy], the data set) are section variables.
    - The run is the single-process one ([comm is None]), where the
      distribution and gather primitives are the identity. *)

From Stdlib Require Import List String Ascii ZArith Bool Lia Reals Lra Psatz.
Import ListNotations.

Open Scope string_scope.
Open Scope Z_scope.

(** ** Exceptions and results *)

Inductive exn : Type :=
| AssertionError (msg : string)
| ValueError (msg : string)
| NotImplementedError (msg : string)
| KeyError (key : string)
| IndexError
| NameError (name : string)
| AttributeError
| ZeroDivisionError.

Inductive result (A : Type) : Type :=
| Ok (a : A)
| Raise (e : exn).

Arguments Ok {A} a.
Arguments Raise {A} e.

Definition bind {A B : Type} (r : result A) (k : A -> result B) : result B :=
  match r with
  | Ok a => k a
  | Raise e => Raise e
  end.

Notation "'do' x <- r ;; k" := (bind r (fun x => k))
  (at level 10, x pattern, r at level 100, k at level 200).

(** [assert(c), msg] *)
Definition py_assert (c : bool) (msg : string) : result unit :=
  if c then Ok tt else Raise (AssertionError msg).

(** A list comprehension whose element expression may raise: the elements
    are evaluated left to right and the first exception escapes. *)
Fixpoint mapM {A B : Type} (f : A -> result B) (l : list A) : result (list B) :=
  match l with
  | [] => Ok []
  | a :: l' => do b <- f a ;; do bs <- mapM f l' ;; Ok (b :: bs)
  end.

Definition is_ok {A : Type} (r : result A) : bool :=
  match r with Ok _ => true | Raise _ => false end.

(** ** Pauli objects (the interface of [pauliobjs] that the core reads) *)

(** [NQPauliState]: [rep], one basis letter per qubit, and [signs], one
    of +1/-1 per qubit. *)
Record NQPauliState : Type := mkState { state_rep : string; state_signs : list Z }.

(** [NQPauliOp]: [rep], one of the letters I, X, Y, Z per qubit, and an
    overall [sign]. *)
Record NQPauliOp : Type := mkOp { op_rep : string; op_sign : Z }.

(** [NQOutcome]: [rep], one bit character per qubit. *)
Record NQOutcome : Type := mkOutcome { outcome_rep : string }.

Definition chars (s : string) : list ascii := list_ascii_of_string s.

(** [NQOutcome.__eq__] compares the bit strings. *)
Definition outcome_eqb (a b : NQOutcome) : bool :=
  String.eqb (outcome_rep a) (outcome_rep b).

(** Python's [zip] of five and of six sequences, as nested pairs; it stops
    at the shortest argument. *)
Definition zip5 {A B C D E : Type}
  (a : list A) (b : list B) (c : list C) (d : list D) (e : list E)
  : list (A * (B * (C * (D * E)))) :=
  combine a (combine b (combine c (combine d e))).

Definition zip6 {A B C D E F : Type}
  (a : list A) (b : list B) (c : list C) (d : list D) (e : list E) (f : list F)
  : list (A * (B * (C * (D * (E * F))))) :=
  combine a (zip5 b c d e f).

Definition is_XYZ (c : ascii) : bool :=
  Ascii.eqb c "X" || Ascii.eqb c "Y" || Ascii.eqb c "Z".

(** [numpy.prod] of a list of integers; the empty product is 1. *)
Definition np_prod (l : list Z) : Z := fold_right Z.mul 1 l.

(** A 64-bit signed integer after an overflow: the value modulo 2^64, in the
    range from -2^63 to 2^63 - 1. *)
Definition int64 (z : Z) : Z := (z + 2 ^ 63) mod 2 ^ 64 - 2 ^ 63.

(** [numpy.prod] as numpy computes it for a list of Python integers that fit
    in 64 bits: the factors are multiplied one after the other as [int64], so
    the product wraps around; the empty product is 1. *)
Definition np_prod_int64 (l : list Z) : Z :=
  fold_left (fun acc a => int64 (acc * a)) l 1.

Section Core.

(** ** Jacobian element functions *)

(** [pauliobjs._commute_parity]: 1 when the two letters commute. *)
Variable commute_parity : ascii -> ascii -> Z.

(** The bit one qubit contributes in [stochastic_outcome]. *)
Definition stochastic_bit (s1 : Z) (P : ascii) (s2 : Z) (Err : ascii) : ascii :=
  if commute_parity P Err =? 1
  then (if s1 =? s2 then "0"%char else "1"%char)
  else (if s1 =? s2 then "1"%char else "0"%char).

(** The [for] loop of [stochastic_outcome] with its accumulator. *)
Fixpoint stochastic_outcome_loop
  (zs : list (Z * (ascii * (Z * (ascii * ascii))))) (outcome_str : string)
  : result string :=
  match zs with
  | [] => Ok outcome_str
  | (s1, (P1, (s2, (P2, Err)))) :: rest =>
      do _ <- py_assert (Ascii.eqb P1 P2)
                "Stochastic outcomes must prep & measure along same bases!" ;;
      let P := P1 in
      stochastic_outcome_loop rest
        (outcome_str ++ String (stochastic_bit s1 P s2 Err) EmptyString)
  end.

Definition stochastic_zip (prep : NQPauliState) (error : NQPauliOp) (meas : NQPauliState) :=
  zip5 (state_signs prep) (chars (state_rep prep))
       (state_signs meas) (chars (state_rep meas)) (chars (op_rep error)).

Definition stochastic_outcome (prep : NQPauliState) (error : NQPauliOp) (meas : NQPauliState)
  : result NQOutcome :=
  do outcome_str <- stochastic_outcome_loop (stochastic_zip prep error meas) "" ;;
  Ok (mkOutcome outcome_str).

Definition stochastic_jac_element
  (prep : NQPauliState) (error : NQPauliOp) (meas : NQPauliState) (outcome : NQOutcome)
  : result Z :=
  do o <- stochastic_outcome prep error meas ;;
  Ok (if outcome_eqb o outcome then 1 else 0).

(** The per-qubit helper of [affine_jac_element]. *)
Definition affhelper (prepSign : Z) (prepBasis errP : ascii) (measSign : Z)
  (measBasis outcome_bit : ascii) : result Z :=
  do _ <- py_assert (is_XYZ prepBasis) "" ;;
  do _ <- py_assert (is_XYZ measBasis) "" ;;
  do _ <- py_assert (Ascii.eqb prepBasis measBasis) "" ;;
  let outsign := if Ascii.eqb outcome_bit "0" then 1 else -1 in
  if Ascii.eqb errP "I" then
    if Ascii.eqb prepBasis measBasis
    then Ok (if prepSign * measSign * outsign =? 1 then 1 else 0)
    else Ok 1
  else if negb (Ascii.eqb measBasis errP) then Ok 0
  else if Ascii.eqb outcome_bit "0" then Ok measSign
  else Ok (measSign * -1).

Definition affine_zip (prep : NQPauliState) (error : NQPauliOp) (meas : NQPauliState)
  (outcome : NQOutcome) :=
  zip6 (state_signs prep) (chars (state_rep prep))
       (state_signs meas) (chars (state_rep meas))
       (chars (op_rep error)) (chars (outcome_rep outcome)).

Definition affine_jac_element
  (prep : NQPauliState) (error : NQPauliOp) (meas : NQPauliState) (outcome : NQOutcome)
  : result Z :=
  do factors <- mapM (fun '(s1, (P1, (s2, (P2, (Err, o))))) => affhelper s1 P1 Err s2 P2 o)
                     (affine_zip prep error meas outcome) ;;
  Ok (np_prod factors).

(** The per-qubit helper of [affine_jac_obs_element]. *)
Definition affobshelper (prepSign : Z) (prepBasis errP : ascii) (measSign : Z)
  (measBasis obsP : ascii) : result Z :=
  do _ <- py_assert (is_XYZ prepBasis) "" ;;
  do _ <- py_assert (is_XYZ measBasis) "" ;;
  if Ascii.eqb obsP "I" then Ok (if Ascii.eqb errP "I" then 1 else 0)
  else if Ascii.eqb errP "I" then Ok (if Ascii.eqb prepBasis obsP then prepSign else 0)
  else Ok (if Ascii.eqb obsP errP then 2 else 0).

Definition affine_jac_obs_element
  (prep : NQPauliState) (error : NQPauliOp) (meas : NQPauliState) (observable : NQPauliOp)
  : result Z :=
  do factors <- mapM (fun '(s1, (P1, (s2, (P2, (Err, o))))) => affobshelper s1 P1 Err s2 P2 o)
                     (zip6 (state_signs prep) (chars (state_rep prep))
                           (state_signs meas) (chars (state_rep meas))
                           (chars (op_rep error)) (chars (op_rep observable))) ;;
  Ok (np_prod_int64 factors).


(** ** Experiment generation *)

Definition fidpair : Type := (NQPauliState * NQPauliState)%type.

(** [idttools.tile_pauli_fidpairs(template_pairs, nQubits, maxweight)]. *)
Variable tile_pauli_fidpairs : list fidpair -> Z -> Z -> list fidpair.

(** A Python [dict] keyed by one-letter strings, in insertion order. *)
Fixpoint letter_get {V : Type} (d : list (ascii * V)) (k : ascii) : result V :=
  match d with
  | [] => Raise (KeyError (String k EmptyString))
  | (k', v) :: d' => if Ascii.eqb k' k then Ok v else letter_get d' k
  end.

(** [conv = lambda x: 1 if x=="+" else -1] *)
Definition conv (x : string) : Z := if String.eqb x "+" then 1 else -1.

Definition XYZ : list ascii := ["X"; "Y"; "Z"]%char.

(** [{ l:conv(s) for l,s in zip(('X','Y','Z'), preferred_signs) }] *)
Definition base_signs (preferred_signs : list string) : list (ascii * Z) :=
  map (fun '(l, s) => (l, conv s)) (combine XYZ preferred_signs).

(** The sign-flip patterns of the stochastic (and affine) templates. *)
Definition sto_flips (maxweight : Z) (include_affine : bool) : result (list (list Z)) :=
  if include_affine then
    if maxweight =? 1 then Ok [[1]; [-1]]
    else if maxweight =? 2 then Ok [[1; 1]; [1; -1]; [-1; 1]]
    else Raise (NotImplementedError "No implementation for affine errors and maxweight > 2!")
  else Ok [repeat 1 (Z.to_nat maxweight)].

(** [itertools.product(pool, repeat=n)]: the last position varies fastest. *)
Fixpoint product_repeat {A : Type} (pool : list A) (n : nat) : list (list A) :=
  match n with
  | O => [[]]
  | S n' => flat_map (fun a => map (cons a) (product_repeat pool n')) pool
  end.

Definition itertools_product {A : Type} (pool : list A) (repeat : Z) : result (list (list A)) :=
  if repeat <? 0 then Raise (ValueError "repeat argument cannot be negative")
  else Ok (product_repeat pool (Z.to_nat repeat)).

(** [[ f*base_signs[l] for f,l in zip(fliptup,basisLets) ]] *)
Definition flipped_signs (base : list (ascii * Z)) (fliptup : list Z) (basisLets : list ascii)
  : result (list Z) :=
  mapM (fun '(f, l) => do s <- letter_get base l ;; Ok (f * s)) (combine fliptup basisLets).

(** One stochastic template pair: the body of the inner loop. *)
Definition sto_tmpl_pair (base_prep_signs base_meas_signs : list (ascii * Z))
  (fliptup : list Z) (basisLets : list ascii) : result fidpair :=
  do prepSigns <- flipped_signs base_prep_signs fliptup basisLets ;;
  do measSigns <- flipped_signs base_meas_signs fliptup basisLets ;;
  Ok (mkState (string_of_list_ascii basisLets) prepSigns,
      mkState (string_of_list_ascii basisLets) measSigns).

(** The list [sto_tmpl_pairs] that the two nested loops build. *)
Definition sto_tmpl_pairs (maxweight : Z) (base_prep_signs base_meas_signs : list (ascii * Z))
  (flips : list (list Z)) : result (list fidpair) :=
  do per_flip <- mapM (fun fliptup =>
                   do lets <- itertools_product XYZ maxweight ;;
                   mapM (sto_tmpl_pair base_prep_signs base_meas_signs fliptup) lets)
                 flips ;;
  Ok (List.concat per_flip).

Definition nextPauli : list (ascii * ascii) := [("X", "Y"); ("Y", "Z"); ("Z", "X")]%char.
Definition prevPauli : list (ascii * ascii) := [("X", "Z"); ("Y", "X"); ("Z", "Y")]%char.

(** [''.join([prevPauli[p] for p in expt])] and its [next] counterpart. *)
Definition shift_letters (table : list (ascii * ascii)) (expt : string) : result string :=
  do ls <- mapM (letter_get table) (chars expt) ;;
  Ok (string_of_list_ascii ls).

Definition prev (expt : string) : result string := shift_letters prevPauli expt.
Definition next (expt : string) : result string := shift_letters nextPauli expt.

(** One Hamiltonian template pair: the body of the loop over [ham_tmpl]. *)
Definition ham_tmpl_pair (maxweight : Z) (base_prep_signs base_meas_signs : list (ascii * Z))
  (tmplLets : string) : result fidpair :=
  do _ <- py_assert (Z.of_nat (String.length tmplLets) =? maxweight)
            "Hamiltonian 'template' strings must have length == maxweight" ;;
  do prepLets <- prev tmplLets ;;
  do measLets <- next tmplLets ;;
  do prepSigns <- mapM (letter_get base_prep_signs) (chars prepLets) ;;
  do measSigns <- mapM (letter_get base_meas_signs) (chars measLets) ;;
  Ok (mkState prepLets prepSigns, mkState measLets measSigns).

Definition ham_tmpl_pairs (maxweight : Z) (base_prep_signs base_meas_signs : list (ascii * Z))
  (ham_tmpl : list string) : result (list fidpair) :=
  mapM (ham_tmpl_pair maxweight base_prep_signs base_meas_signs) ham_tmpl.

Definition default_ham_tmpl : list string := ["ZY"; "ZX"; "XZ"; "YZ"; "YX"; "XY"].
Definition default_signs : list string := ["+"; "+"; "+"].

Definition idle_tomography_fidpairs (nQubits maxweight : Z)
  (include_hamiltonian include_stochastic include_affine : bool)
  (ham_tmpl preferred_prep_basis_signs preferred_meas_basis_signs : list string)
  : result (list fidpair) :=
  let fidpairs : list fidpair := [] in
  let base_prep_signs := base_signs preferred_prep_basis_signs in
  let base_meas_signs := base_signs preferred_meas_basis_signs in
  do fidpairs <-
    (if include_stochastic then
       do flips <- sto_flips maxweight include_affine ;;
       do tmpl <- sto_tmpl_pairs maxweight base_prep_signs base_meas_signs flips ;;
       Ok (fidpairs ++ tile_pauli_fidpairs tmpl nQubits maxweight)%list
     else if include_affine then
       Raise (ValueError "Cannot include affine sequences without also including stochastic ones!")
     else Ok fidpairs) ;;
  do fidpairs <-
    (if include_hamiltonian then
       do tmpl <- ham_tmpl_pairs maxweight base_prep_signs base_meas_signs ham_tmpl ;;
       Ok (fidpairs ++ tile_pauli_fidpairs tmpl nQubits maxweight)%list
     else Ok fidpairs) ;;
  Ok fidpairs.

(** A Python [dict] keyed by strings, in insertion order. *)
Fixpoint dict_get {V : Type} (d : list (string * V)) (k : string) : option V :=
  match d with
  | [] => None
  | (k', v) :: d' => if String.eqb k' k then Some v else dict_get d' k
  end.

Definition dict_mem {V : Type} (d : list (string * V)) (k : string) : bool :=
  match dict_get d k with Some _ => true | None => false end.

(** [d[k] = v]: an existing key keeps its place. *)
Fixpoint dict_set {V : Type} (d : list (string * V)) (k : string) (v : V) : list (string * V) :=
  match d with
  | [] => [(k, v)]
  | (k', v') :: d' => if String.eqb k' k then (k, v) :: d' else (k', v') :: dict_set d' k v
  end.

(** A Pauli dictionary: keys like ["+X"], ["X"] or ["-Y"], values tuples of
    gate names. *)
Definition paulidict : Type := list (string * list string).

(** The body of the loop of [preferred_signs_from_paulidict] for one letter. *)
Definition preferred_sign (pauliDict : paulidict) (let_ : string) : result string :=
  let plusKey :=
    if dict_mem pauliDict ("+" ++ let_) then Some ("+" ++ let_)
    else if dict_mem pauliDict let_ then Some let_
    else None in
  let minusKey :=
    if dict_mem pauliDict ("-" ++ let_) then Some ("-" ++ let_) else None in
  match minusKey, plusKey with
  | Some mk, Some pk =>
      match dict_get pauliDict pk, dict_get pauliDict mk with
      | Some p, Some m => Ok (if (List.length p <=? List.length m)%nat then "+" else "-")
      | _, _ => Raise (KeyError pk)
      end
  | None, Some _ => Ok "+"
  | Some _, None => Ok "-"
  | None, None => Raise (ValueError "No entry for %s-basis!")
  end.

Definition preferred_signs_from_paulidict (pauliDict : paulidict) : result (list string) :=
  mapM (preferred_sign pauliDict) ["X"; "Y"; "Z"].

(** ** Running idle tomography: the curve-fit estimator *)

(** A [GateString] is a tuple of gate labels; [+] appends and [*L] repeats. *)
Definition GateString : Type := list string.

Definition gs_repeat (g : GateString) (L : Z) : GateString :=
  List.concat (repeat g (Z.to_nat L)).

(** One row of the data set: the outcome counts (keyed by the outcome's bit
    string) and the row's total. *)
Record DataSetRow : Type := mkRow { counts : list (string * Z); row_total : Z }.

(** [NQPauliState.to_gatestring(pauliDict)] *)
Variable to_gatestring : NQPauliState -> paulidict -> GateString.

(** [dataset[gatestring]]; [None] where the lookup raises [KeyError]. *)
Variable dataset : GateString -> option DataSetRow.

(** [numpy.polyfit(x, y, deg, w=w)]: the coefficients, highest power first. *)
Variable np_polyfit : list Z -> list R -> Z -> list R -> result (list R).

Definition dataset_row (gstr : GateString) : result DataSetRow :=
  match dataset gstr with
  | Some row => Ok row
  | None => Raise (KeyError "gatestring")
  end.

(** [a / b] on Python numbers. *)
Definition py_div (a : R) (b : Z) : result R :=
  if b =? 0 then Raise ZeroDivisionError else Ok (a / IZR b)%R.

(** [seq[i]] for a non-negative index. *)
Definition getitem {A : Type} (l : list A) (i : nat) : result A :=
  match nth_error l i with
  | Some a => Ok a
  | None => Raise IndexError
  end.

(** [numpy.sign] *)
Definition np_sign (x : R) : R :=
  if Rlt_dec 0 x then 1%R else if Rlt_dec x 0 then (-1)%R else 0%R.

(** The fit record both estimators return. *)
Record FitInfo : Type := mkFit {
  rate : R;
  fitOrder_used : Z;
  fitCoeffs : list R;
  data : list R;
  weights : list R
}.

(** The choice of the slope from the fitted coefficients: the [if fitOrder]
    cascade that ends both estimators. *)
Definition fit_slope (coeffs : list R) (fitOrder : Z) : result R :=
  if fitOrder =? 1 then getitem coeffs 0
  else if fitOrder =? 2 then
    do k1 <- getitem coeffs 1 ;;
    do k2 <- getitem coeffs 2 ;;
    do k0 <- getitem coeffs 0 ;;
    let det := (k1 ^ 2 - 4 * k2 * k0)%R in
    if Rle_dec 0 det then Ok (- np_sign k0 * sqrt det)%R else Ok k1
  else Raise (NotImplementedError "Only fitOrder <= 2 are supported!").

(** [#curvefit -> slope] and the returned record. *)
Definition curvefit (maxLengths : list Z) (data_to_fit wts : list R) (fitOrder : Z)
  : result FitInfo :=
  do coeffs <- np_polyfit maxLengths data_to_fit fitOrder wts ;;
  do slope <- fit_slope coeffs fitOrder ;;
  Ok (mkFit slope fitOrder coeffs data_to_fit wts).

Definition sum_values (cnts : list (string * Z)) : Z :=
  fold_right Z.add 0 (map snd cnts).

Definition cnts_get (cnts : list (string * Z)) (k : string) : Z :=
  match dict_get cnts k with Some c => c | None => 0 end.

(** [freq_and_weight] of [get_obs_stochastic_err_rate] *)
Definition freq_and_weight (gatestring : GateString) (outcome : NQOutcome) : result (R * R) :=
  do row <- dataset_row gatestring ;;
  let cnts := counts row in
  let total := sum_values cnts in
  do f <- py_div (IZR (cnts_get cnts (outcome_rep outcome))) total ;;
  do fp <- py_div (IZR (cnts_get cnts (outcome_rep outcome) + 1)) (total + 2) ;;
  let wt := (sqrt (IZR total) / sqrt (Rabs (fp * (1 - fp))))%R in
  Ok (f, wt).

(** The loop [for L in maxLengths] that gathers the points to fit. *)
Fixpoint gather_points (point : GateString -> result (R * R))
  (prepFid GiStr measFid : GateString) (maxLengths : list Z) : result (list R * list R) :=
  match maxLengths with
  | [] => Ok ([], [])
  | L :: rest =>
      let gstr := (prepFid ++ gs_repeat GiStr L ++ measFid)%list in
      do fw <- point gstr ;;
      do more <- gather_points point prepFid GiStr measFid rest ;;
      Ok (fst fw :: fst more, snd fw :: snd more)
  end.

Definition get_obs_stochastic_err_rate (pauli_fidpair : fidpair)
  (pauliDicts : paulidict * paulidict) (GiStr : GateString) (outcome : NQOutcome)
  (maxLengths : list Z) (fitOrder : Z) : result FitInfo :=
  let '(pauli_prep, pauli_meas) := pauli_fidpair in
  let '(prepDict, measDict) := pauliDicts in
  let prepFid := to_gatestring pauli_prep prepDict in
  let measFid := to_gatestring pauli_meas measDict in
  do pts <- gather_points (fun gstr => freq_and_weight gstr outcome)
              prepFid GiStr measFid maxLengths ;;
  curvefit maxLengths (fst pts) (snd pts) fitOrder.

(** [[ i for i,letter in enumerate(observable.rep) if letter != 'I' ]] *)
Fixpoint non_identity_indices (letters : list ascii) (i : nat) : list nat :=
  match letters with
  | [] => []
  | letter :: rest =>
      if Ascii.eqb letter "I" then non_identity_indices rest (S i)
      else i :: non_identity_indices rest (S i)
  end.

(** The two counting loops over [drow.counts.items()]: [pick] tells whether
    an outcome string adds to the first counter. *)
Fixpoint count_split (pick : list ascii -> result bool) (items : list (string * Z))
  (cntA cntB : Z) : result (Z * Z) :=
  match items with
  | [] => Ok (cntA, cntB)
  | (outcome, cnt) :: rest =>
      do b <- pick (chars outcome) ;;
      if b then count_split pick rest (cntA + cnt) cntB
      else count_split pick rest cntA (cntB + cnt)
  end.

(** [unsigned_exptn_and_weight] of [get_obs_hamiltonian_err_rate] *)
Definition unsigned_exptn_and_weight (gatestring : GateString) (observed_indices : list nat)
  : result (R * R) :=
  do drow <- dataset_row gatestring ;;
  let total := row_total drow in
  do ef <-
    match observed_indices with
    | [i] =>
        do c <- count_split (fun o => do b <- getitem o i ;; Ok (Ascii.eqb b "0"))
                  (counts drow) 0 0 ;;
        let '(cnt0, cnt1) := c in
        do exptn <- py_div (IZR (cnt0 - cnt1)) total ;;
        do q <- py_div (0.5 * IZR (cnt0 - cnt1 + 1))%R (total + 2) ;;
        Ok (exptn, (0.5 + q)%R)
    | [i; j] =>
        do c <- count_split (fun o => do a <- getitem o i ;; do b <- getitem o j ;;
                                      Ok (Ascii.eqb a b))
                  (counts drow) 0 0 ;;
        let '(cnt_even, cnt_odd) := c in
        do exptn <- py_div (IZR (cnt_even - cnt_odd)) total ;;
        do q <- py_div (0.5 * IZR (cnt_even - cnt_odd + 1))%R (total + 2) ;;
        Ok (exptn, (0.5 + q)%R)
    | _ =>
        Raise (NotImplementedError
                 "Expectation values of weight > 2 observables are not implemented!")
    end ;;
  let '(exptn, fp) := ef in
  let wt := (sqrt (IZR total) / sqrt (fp * (1 - fp)))%R in
  Ok (exptn, wt).

Definition get_obs_hamiltonian_err_rate (pauli_fidpair : fidpair)
  (pauliDicts : paulidict * paulidict) (GiStr : GateString) (observable : NQPauliOp)
  (maxLengths : list Z) (fitOrder : Z) : result FitInfo :=
  let '(pauli_prep, pauli_meas) := pauli_fidpair in
  let '(prepDict, measDict) := pauliDicts in
  let prepFid := to_gatestring pauli_prep prepDict in
  let measFid := to_gatestring pauli_meas measDict in
  let obs_indices := non_identity_indices (chars (op_rep observable)) 0 in
  do signs <- mapM (getitem (state_signs pauli_meas)) obs_indices ;;
  let minus_sign := np_prod signs in
  do pts <- gather_points
              (fun gstr => do ew <- unsigned_exptn_and_weight gstr obs_indices ;;
                           Ok ((IZR minus_sign * fst ew)%R, snd ew))
              prepFid GiStr measFid maxLengths ;;
  curvefit maxLengths (fst pts) (snd pts) fitOrder.

(** ** Running idle tomography: the orchestrator *)

(** [NQPauliOp.icommutatorOver2] ([None] for a vanishing commutator) and
    [NQPauliOp.statedot]. *)
Variable icommutatorOver2 : NQPauliOp -> NQPauliOp -> option NQPauliOp.
Variable statedot : NQPauliOp -> NQPauliState -> Z.

Definition hamiltonian_jac_element (Prep : NQPauliState) (Error Observable : NQPauliOp) : Z :=
  match icommutatorOver2 Error Observable with
  | None => 0
  | Some com => statedot com Prep
  end.

(** The enumerators of [idttools]. *)
Variable allerrors : Z -> Z -> list NQPauliOp.
Variable alloutcomes : NQPauliState -> NQPauliState -> Z -> list NQOutcome.
Variable allobservables : NQPauliState -> Z -> list NQPauliOp.

(** Arrays: a vector is a list, a matrix is the list of its rows. *)
Definition vector : Type := list R.
Definition matrix : Type := list (list R).

(** [numpy.linalg.matrix_rank] and [numpy.linalg.pinv]. *)
Variable np_matrix_rank : matrix -> Z.
Variable np_pinv : matrix -> matrix.

(** The names bound at module level in [idtcore.py]: its imports and its
    functions. *)
Definition module_globals : list string :=
  [ "division"; "print_function"; "absolute_import"; "unicode_literals";
    "_np"; "_itertools"; "_time"; "_collections"; "_objs"; "_tools";
    "_VerbosityPrinter"; "_pobjs"; "_idttools"; "_IdleTomographyResults";
    "hamiltonian_jac_element"; "stochastic_outcome"; "stochastic_jac_element";
    "affine_jac_element"; "affine_jac_obs_element"; "idle_tomography_fidpairs";
    "preferred_signs_from_paulidict"; "fidpairs_to_pauli_fidpairs";
    "make_idle_tomography_list"; "get_obs_stochastic_err_rate";
    "get_obs_hamiltonian_err_rate"; "do_idle_tomography" ].

(** Reading a global name: [NameError] when the module does not bind it. *)
Definition global_name (name : string) : result unit :=
  if existsb (String.eqb name) module_globals then Ok tt else Raise (NameError name).

(** [_warnings.warn(msg)]: the name [_warnings] is looked up first; a
    warning that is issued changes no value. *)
Definition warnings_warn (msg : string) : result unit :=
  do _ <- global_name "_warnings" ;;
  Ok tt.

Definition dot (u v : vector) : R :=
  fold_right Rplus 0%R (map (fun '(a, b) => (a * b)%R) (combine u v)).

(** [numpy.dot(M, v)] for a matrix and a vector. *)
Definition np_dot (M : matrix) (v : vector) : result vector :=
  if forallb (fun row => Nat.eqb (List.length row) (List.length v)) M
  then Ok (map (fun row => dot row v) M)
  else Raise (ValueError "shapes not aligned").

(** [u -= v] on vectors (a one-element [v] is broadcast). *)
Definition vec_isub (u v : vector) : result vector :=
  if Nat.eqb (List.length u) (List.length v)
  then Ok (map (fun '(a, b) => (a - b)%R) (combine u v))
  else match v with
       | [c] => Ok (map (fun a => (a - c)%R) u)
       | _ => Raise (ValueError "operands could not be broadcast together")
       end.

(** [J.shape[1]] of a concatenation of rows: with no row the array is
    one-dimensional and has no second axis. *)
Definition shape1 (J : matrix) : result Z :=
  match J with
  | [] => Raise IndexError
  | row :: _ => Ok (Z.of_nat (List.length row))
  end.

Definition to_matrix (rows : list (list Z)) : matrix := map (map IZR) rows.

(** The rank check, the pseudo-inverse and the product that each of the
    three inversion sites performs. *)
Definition invert_site (what : string) (J : matrix) (ncols : result Z) (obs : result vector)
  : result vector :=
  let rank := np_matrix_rank J in
  do n <- ncols ;;
  do _ <- (if rank <? n then warnings_warn what else Ok tt) ;;
  let invJ := np_pinv J in
  do obs_err_rates <- obs ;;
  np_dot invJ obs_err_rates.

(** What is kept per outcome or observable: the fit and the Jacobian rows. *)
Record ObsInfo : Type := mkObsInfo {
  fit : FitInfo;
  jacobian_row : list Z;
  affine_jacobian_row : option (list Z)
}.

Definition infos : Type := list (string * ObsInfo).

(** The recognised entries of [advancedOptions]; [None] is an absent entry
    (for the preferred signs also the value ['auto']). *)
Record AdvancedOptions : Type := mkOptions {
  opt_jacobian_mode : option string;
  opt_preferred_prep_basis_signs : option (list string);
  opt_preferred_meas_basis_signs : option (list string);
  opt_pauli_fidpairs : option (list fidpair);
  opt_fit_order : option Z;
  opt_ham_tmpl : option (list string)
}.

Definition no_options : AdvancedOptions := mkOptions None None None None None None.

(** The variables the stages of [do_idle_tomography] share. *)
Record RunState : Type := mkRun {
  intrinsic_rates : list (string * vector);
  pauli_fidpair_dict : list (string * list fidpair);
  observed_rate_infos : list (string * list infos);
  sto_aff_jac : option matrix;
  sto_aff_obs_err_rates : option vector;
  ham_aff_jac : option matrix;
  ham_aff_obs_err_rates : option vector
}.

Definition initial_state : RunState := mkRun [] [] [] None None None None.

Definition set_rate (st : RunState) (k : string) (v : vector) : RunState :=
  mkRun (dict_set (intrinsic_rates st) k v) (pauli_fidpair_dict st) (observed_rate_infos st)
        (sto_aff_jac st) (sto_aff_obs_err_rates st) (ham_aff_jac st) (ham_aff_obs_err_rates st).

Definition set_keys (st : RunState) (k : string) (fps : list fidpair) (obs : list infos)
  : RunState :=
  mkRun (intrinsic_rates st) (dict_set (pauli_fidpair_dict st) k fps)
        (dict_set (observed_rate_infos st) k obs)
        (sto_aff_jac st) (sto_aff_obs_err_rates st) (ham_aff_jac st) (ham_aff_obs_err_rates st).

Definition set_sto_aff (st : RunState) (J : matrix) (obs : vector) : RunState :=
  mkRun (intrinsic_rates st) (pauli_fidpair_dict st) (observed_rate_infos st)
        (Some J) (Some obs) (ham_aff_jac st) (ham_aff_obs_err_rates st).

Definition set_ham_aff (st : RunState) (J : matrix) (obs : vector) : RunState :=
  mkRun (intrinsic_rates st) (pauli_fidpair_dict st) (observed_rate_infos st)
        (sto_aff_jac st) (sto_aff_obs_err_rates st) (Some J) (Some obs).

(** A loop that threads a state and may raise. *)
Fixpoint foldM {S A : Type} (f : S -> A -> result S) (l : list A) (s : S) : result S :=
  match l with
  | [] => Ok s
  | a :: l' => do s' <- f s a ;; foldM f l' s'
  end.

(** [[ info['rate'] for fidpair_infos in infos_by_fidpair
       for info in fidpair_infos.values() ]] *)
Definition observed_rates (infos_by_fidpair : list infos) : vector :=
  flat_map (fun fidpair_infos => map (fun kv => rate (fit (snd kv))) fidpair_infos)
           infos_by_fidpair.

Definition same_basis (fp : fidpair) : bool :=
  String.eqb (state_rep (fst fp)) (state_rep (snd fp)).

(** *** Stage 1: stochastic and affine *)

(** One Jacobian row of the stochastic stage. *)
Definition stochastic_Jrow (extract_affine : bool) (errors : list NQPauliOp)
  (pauli_fidpair : fidpair) (out : NQOutcome) : result (list Z) :=
  do Jrow <- mapM (fun err => stochastic_jac_element (fst pauli_fidpair) err
                                (snd pauli_fidpair) out) errors ;;
  if extract_affine then
    do aff <- mapM (fun err => affine_jac_element (fst pauli_fidpair) err
                                 (snd pauli_fidpair) out) errors ;;
    Ok (Jrow ++ aff)%list
  else Ok Jrow.

(** The body of the loop over [all_outcomes]. *)
Definition stochastic_outcome_step (extract_affine : bool) (errors : list NQPauliOp)
  (pauliDicts : paulidict * paulidict) (GiStr : GateString) (maxLengths : list Z)
  (fitOrder : Z) (pauli_fidpair : fidpair)
  (acc : list (list Z) * infos) (out : NQOutcome) : result (list (list Z) * infos) :=
  let '(my_J, infos_for_this_fidpair) := acc in
  do Jrow <- stochastic_Jrow extract_affine errors pauli_fidpair out ;;
  do info <- get_obs_stochastic_err_rate pauli_fidpair pauliDicts GiStr out
               maxLengths fitOrder ;;
  Ok ((my_J ++ [Jrow])%list,
      dict_set infos_for_this_fidpair (outcome_rep out) (mkObsInfo info Jrow None)).

(** The body of the loop over the fiducial pairs. *)
Definition stochastic_fidpair_step (extract_affine : bool) (errors : list NQPauliOp)
  (pauliDicts : paulidict * paulidict) (GiStr : GateString) (maxLengths : list Z)
  (fitOrder maxErrWeight : Z)
  (acc : list (list Z) * list infos) (pauli_fidpair : fidpair)
  : result (list (list Z) * list infos) :=
  let '(my_J, my_obs_infos) := acc in
  let all_outcomes := alloutcomes (fst pauli_fidpair) (snd pauli_fidpair) maxErrWeight in
  do r <- foldM (stochastic_outcome_step extract_affine errors pauliDicts GiStr maxLengths
                   fitOrder pauli_fidpair) all_outcomes (my_J, []) ;;
  Ok (fst r, (my_obs_infos ++ [snd r])%list).

(** The fiducial pairs of the stage: the same-basis ones among those
    given, or the generated ones. *)
Definition stochastic_fidpairs (nQubits maxErrWeight : Z)
  (extract_stochastic extract_affine : bool) (advancedOptions : AdvancedOptions)
  (preferred_prep_basis_signs preferred_meas_basis_signs : list string)
  (same_basis_fidpairs : option (list fidpair)) : result (list fidpair) :=
  match same_basis_fidpairs with
  | Some fps => Ok fps
  | None =>
      idle_tomography_fidpairs nQubits maxErrWeight false extract_stochastic extract_affine
        (match opt_ham_tmpl advancedOptions with Some t => t | None => default_ham_tmpl end)
        preferred_prep_basis_signs preferred_meas_basis_signs
  end.

(** The loop over the fiducial pairs: the rows [my_J] and the records
    [my_obs_infos]. *)
Definition stochastic_gather (extract_affine : bool) (errors : list NQPauliOp)
  (pauliDicts : paulidict * paulidict) (GiStr : GateString) (maxLengths : list Z)
  (fitOrder maxErrWeight : Z) (pauli_fidpairs : list fidpair)
  : result (list (list Z) * list infos) :=
  foldM (stochastic_fidpair_step extract_affine errors pauliDicts GiStr
           maxLengths fitOrder maxErrWeight) pauli_fidpairs ([], []).

(** What the coordinator does with the gathered rows and records. *)
Definition stochastic_finish (extract_affine : bool) (jacmode : string)
  (pauli_fidpairs : list fidpair) (gathered : list (list Z) * list infos)
  (st : RunState) : result RunState :=
  let J := to_matrix (fst gathered) in
  let infos_by_fidpair := snd gathered in
  let obs_err_rates := observed_rates infos_by_fidpair in
  do intrinsic_stochastic_rates <-
    (if String.eqb jacmode "separate" then
       invert_site "Idle tomography: stochastic/affine-jacobian rank (%d) < #intrinsic rates (%d)"
         J (shape1 J) (Ok obs_err_rates)
     else Ok []) ;;
  if extract_affine then
    do st <-
      (if String.eqb jacmode "separate" then
         let Nrates := List.length intrinsic_stochastic_rates in
         let st := set_rate st "stochastic"
                     (firstn (Nrates / 2)%nat intrinsic_stochastic_rates) in
         Ok (set_rate st "affine" (skipn (Nrates / 2)%nat intrinsic_stochastic_rates))
       else if String.eqb jacmode "together" then Ok (set_sto_aff st J obs_err_rates)
       else Raise (ValueError "Invalid `jacmode` == %s")) ;;
    Ok (set_keys st "stochastic/affine" pauli_fidpairs infos_by_fidpair)
  else
    let st :=
      if String.eqb jacmode "separate" then set_rate st "stochastic" intrinsic_stochastic_rates
      else if String.eqb jacmode "together" then set_sto_aff st J obs_err_rates
      else st in
    Ok (set_keys st "stochastic" pauli_fidpairs infos_by_fidpair).

Definition stochastic_stage (nQubits : Z) (maxLengths : list Z)
  (pauliDicts : paulidict * paulidict) (maxErrWeight : Z) (GiStr : GateString)
  (extract_stochastic extract_affine : bool) (advancedOptions : AdvancedOptions)
  (jacmode : string) (preferred_prep_basis_signs preferred_meas_basis_signs : list string)
  (same_basis_fidpairs : option (list fidpair)) (errors : list NQPauliOp) (fitOrder : Z)
  (st : RunState) : result RunState :=
  do pauli_fidpairs <-
    stochastic_fidpairs nQubits maxErrWeight extract_stochastic extract_affine
      advancedOptions preferred_prep_basis_signs preferred_meas_basis_signs
      same_basis_fidpairs ;;
  do gathered <- stochastic_gather extract_affine errors pauliDicts GiStr maxLengths
                   fitOrder maxErrWeight pauli_fidpairs ;;
  stochastic_finish extract_affine jacmode pauli_fidpairs gathered st.

(** *** Stage 2: Hamiltonian *)

(** The body of the loop over [all_observables]. *)
Definition hamiltonian_observable_step (extract_affine : bool) (errors : list NQPauliOp)
  (pauliDicts : paulidict * paulidict) (GiStr : GateString) (maxLengths : list Z)
  (fitOrder : Z) (pauli_fidpair : fidpair)
  (acc : list (list Z) * list (list Z) * infos) (obs : NQPauliOp)
  : result (list (list Z) * list (list Z) * infos) :=
  let '(my_J, my_Jaff, infos_for_this_fidpair) := acc in
  let Jrow := map (fun err => hamiltonian_jac_element (fst pauli_fidpair) err obs) errors in
  do Jaff_row <-
    (if extract_affine then
       do r <- mapM (fun err => affine_jac_obs_element (fst pauli_fidpair) err
                                  (snd pauli_fidpair) obs) errors ;;
       Ok (Some r)
     else Ok None) ;;
  do info <- get_obs_hamiltonian_err_rate pauli_fidpair pauliDicts GiStr obs
               maxLengths fitOrder ;;
  Ok ((my_J ++ [Jrow])%list,
      match Jaff_row with Some r => (my_Jaff ++ [r])%list | None => my_Jaff end,
      dict_set infos_for_this_fidpair (op_rep obs) (mkObsInfo info Jrow Jaff_row)).

Definition hamiltonian_fidpair_step (extract_affine : bool) (errors : list NQPauliOp)
  (pauliDicts : paulidict * paulidict) (GiStr : GateString) (maxLengths : list Z)
  (fitOrder maxErrWeight : Z)
  (acc : list (list Z) * list (list Z) * list infos) (pauli_fidpair : fidpair)
  : result (list (list Z) * list (list Z) * list infos) :=
  let '(my_J, my_Jaff, my_obs_infos) := acc in
  let all_observables := allobservables (snd pauli_fidpair) maxErrWeight in
  do r <- foldM (hamiltonian_observable_step extract_affine errors pauliDicts GiStr
                   maxLengths fitOrder pauli_fidpair) all_observables (my_J, my_Jaff, []) ;;
  let '(my_J, my_Jaff, infos_for_this_fidpair) := r in
  Ok (my_J, my_Jaff, (my_obs_infos ++ [infos_for_this_fidpair])%list).

(** [numpy.concatenate((J,Jaff),axis=1)]: one-dimensional (row-less) arrays
    have no axis 1. *)
Definition concat_columns (J Jaff : matrix) : result matrix :=
  match J, Jaff with
  | [], _ | _, [] => Raise IndexError
  | _, _ =>
      if Nat.eqb (List.length J) (List.length Jaff)
      then Ok (map (fun '(a, b) => (a ++ b)%list) (combine J Jaff))
      else Raise (ValueError "all the input array dimensions must match")
  end.

Definition hamiltonian_fidpairs (nQubits maxErrWeight : Z)
  (extract_hamiltonian : bool) (advancedOptions : AdvancedOptions)
  (preferred_prep_basis_signs preferred_meas_basis_signs : list string)
  (diff_basis_fidpairs : option (list fidpair)) : result (list fidpair) :=
  match diff_basis_fidpairs with
  | Some fps => Ok fps
  | None =>
      idle_tomography_fidpairs nQubits maxErrWeight extract_hamiltonian false false
        (match opt_ham_tmpl advancedOptions with Some t => t | None => default_ham_tmpl end)
        preferred_prep_basis_signs preferred_meas_basis_signs
  end.

(** The loop over the fiducial pairs: [my_J], [my_Jaff] and [my_obs_infos]. *)
Definition hamiltonian_gather (extract_affine : bool) (errors : list NQPauliOp)
  (pauliDicts : paulidict * paulidict) (GiStr : GateString) (maxLengths : list Z)
  (fitOrder maxErrWeight : Z) (pauli_fidpairs : list fidpair)
  : result (list (list Z) * list (list Z) * list infos) :=
  foldM (hamiltonian_fidpair_step extract_affine errors pauliDicts GiStr
           maxLengths fitOrder maxErrWeight) pauli_fidpairs ([], [], []).

(** The correction of the observed rates by the known affine rates:
    [obs_err_rates -= numpy.dot(Jaff, Aintrinsic)]. *)
Definition affine_correction (Jaff : matrix) (st : RunState) (obs_err_rates : vector)
  : result vector :=
  do Aintrinsic <- match dict_get (intrinsic_rates st) "affine" with
                   | Some a => Ok a
                   | None => Raise (KeyError "affine")
                   end ;;
  do corr <- match Jaff, Aintrinsic with
             | [], _ :: _ => Raise (ValueError "shapes not aligned")
             | _, _ => np_dot Jaff Aintrinsic
             end ;;
  vec_isub obs_err_rates corr.

Definition hamiltonian_finish (extract_affine : bool) (jacmode : string)
  (pauli_fidpairs : list fidpair)
  (gathered : list (list Z) * list (list Z) * list infos)
  (st : RunState) : result RunState :=
  let '(my_J, my_Jaff, infos_by_fidpair) := gathered in
  let J := to_matrix my_J in
  let obs_err_rates := observed_rates infos_by_fidpair in
  do st <-
    (if String.eqb jacmode "separate" then
       do obs_err_rates <-
         (if extract_affine
          then affine_correction (to_matrix my_Jaff) st obs_err_rates
          else Ok obs_err_rates) ;;
       do intrinsic_hamiltonian_rates <-
         invert_site "Idle tomography: hamiltonian-jacobian rank (%d) < #intrinsic rates (%d)"
           J (shape1 J) (Ok obs_err_rates) ;;
       Ok (set_rate st "hamiltonian" intrinsic_hamiltonian_rates)
     else if String.eqb jacmode "together" then
       do ham_aff_jac <-
         (if extract_affine then concat_columns J (to_matrix my_Jaff) else Ok J) ;;
       Ok (set_ham_aff st ham_aff_jac obs_err_rates)
     else Ok st) ;;
  Ok (set_keys st "hamiltonian" pauli_fidpairs infos_by_fidpair).

Definition hamiltonian_stage (nQubits : Z) (maxLengths : list Z)
  (pauliDicts : paulidict * paulidict) (maxErrWeight : Z) (GiStr : GateString)
  (extract_hamiltonian extract_affine : bool) (advancedOptions : AdvancedOptions)
  (jacmode : string) (preferred_prep_basis_signs preferred_meas_basis_signs : list string)
  (diff_basis_fidpairs : option (list fidpair)) (errors : list NQPauliOp) (fitOrder : Z)
  (st : RunState) : result RunState :=
  do pauli_fidpairs <-
    hamiltonian_fidpairs nQubits maxErrWeight extract_hamiltonian advancedOptions
      preferred_prep_basis_signs preferred_meas_basis_signs diff_basis_fidpairs ;;
  do gathered <- hamiltonian_gather extract_affine errors pauliDicts GiStr maxLengths
                   fitOrder maxErrWeight pauli_fidpairs ;;
  hamiltonian_finish extract_affine jacmode pauli_fidpairs gathered st.

(** *** Stage 3: the joint inversion of jacobian mode "together" *)

Definition zeros (rows cols : nat) : matrix := repeat (repeat 0%R cols) rows.

(** [row[c0:c1] = src]: the slice is clipped to the row, and [src] must
    fill it. *)
Definition set_cols (c0 c1 : nat) (row src : list R) : result (list R) :=
  let lo := Nat.min c0 (List.length row) in
  let hi := Nat.max lo (Nat.min c1 (List.length row)) in
  if Nat.eqb (List.length src) (hi - lo)
  then Ok (firstn lo row ++ src ++ skipn hi row)%list
  else Raise (ValueError "could not broadcast input array").

(** [target[:, c0:c1] = B] where [target] is a block of whole rows. A
    row-less [B] is a one-dimensional empty array: it fits an empty slice
    only. *)
Definition assign_block (c0 c1 : nat) (target B : matrix) : result matrix :=
  match B with
  | [] =>
      if forallb (fun row => Nat.eqb (Nat.max (Nat.min c0 (List.length row))
                                         (Nat.min c1 (List.length row)))
                                     (Nat.min c0 (List.length row))) target
      then Ok target
      else Raise (ValueError "could not broadcast input array")
  | _ =>
      if Nat.eqb (List.length B) (List.length target)
      then mapM (fun '(row, src) => set_cols c0 c1 row src) (combine target B)
      else Raise (ValueError "could not broadcast input array")
  end.

(** [ham_aff_jac[:, c0:c1]]: two indices need a two-dimensional array. *)
Definition column_slice (c0 : nat) (c1 : option nat) (M : matrix) : result matrix :=
  match M with
  | [] => Raise IndexError
  | _ => Ok (map (fun row => match c1 with
                             | Some c1 => firstn (c1 - c0) (skipn c0 row)
                             | None => skipn c0 row
                             end) M)
  end.

Definition from_option {A : Type} (o : option A) : result A :=
  match o with Some a => Ok a | None => Raise AttributeError end.

(** The assembly of [Jbig] and of the list [obs_to_concat]. *)
Definition assemble_Jbig (extract_hamiltonian extract_stochastic extract_affine : bool)
  (nerrors : nat) (st : RunState) : result (matrix * nat * list vector) :=
  do sto_rows <- (if extract_stochastic
                  then do J <- from_option (sto_aff_jac st) ;; Ok (List.length J)
                  else Ok O) ;;
  let cols := if extract_stochastic
              then (nerrors + (if extract_affine then nerrors else 0))%nat else O in
  let r1 := sto_rows in
  let sto_off := if extract_hamiltonian then nerrors else O in
  do ham_rows <- (if extract_hamiltonian
                  then do J <- from_option (ham_aff_jac st) ;; Ok (List.length J)
                  else Ok O) ;;
  let rows := (r1 + ham_rows)%nat in
  let cols := (cols + (if extract_hamiltonian then nerrors else 0))%nat in
  let Jbig := zeros rows cols in
  do top_obs <-
    (if extract_stochastic then
       do J <- from_option (sto_aff_jac st) ;;
       do top <- assign_block sto_off cols (firstn r1 Jbig) J ;;
       do o <- from_option (sto_aff_obs_err_rates st) ;;
       Ok (top, [o])
     else Ok (firstn r1 Jbig, [])) ;;
  let '(top, obs_to_concat) := top_obs in
  do bottom_obs <-
    (if extract_hamiltonian then
       do J <- from_option (ham_aff_jac st) ;;
       do lblock <- column_slice 0 (Some sto_off) J ;;
       do bottom <- assign_block 0 sto_off (skipn r1 Jbig) lblock ;;
       do o <- from_option (ham_aff_obs_err_rates st) ;;
       do bottom <-
         (if extract_affine then
            do rblock <- column_slice sto_off None J ;;
            assign_block (sto_off + nerrors) (sto_off + 2 * nerrors) bottom rblock
          else Ok bottom) ;;
       Ok (bottom, (obs_to_concat ++ [o])%list)
     else Ok (skipn r1 Jbig, obs_to_concat)) ;;
  let '(bottom, obs_to_concat) := bottom_obs in
  Ok ((top ++ bottom)%list, cols, obs_to_concat).

(** [numpy.concatenate] of a list of vectors: it needs at least one. *)
Definition np_concatenate (vs : list vector) : result vector :=
  match vs with
  | [] => Raise (ValueError "need at least one array to concatenate")
  | _ => Ok (List.concat vs)
  end.

(** [v[off:off+n]] *)
Definition slice (off n : nat) (v : vector) : vector := firstn n (skipn off v).

Definition joint_inversion (extract_hamiltonian extract_stochastic extract_affine : bool)
  (nerrors : nat) (st : RunState) : result RunState :=
  do a <- assemble_Jbig extract_hamiltonian extract_stochastic extract_affine nerrors st ;;
  let '(Jbig, cols, obs_to_concat) := a in
  do all_intrinsic_rates <-
    invert_site "Idle tomography: whole-jacobian rank (%d) < #intrinsic rates (%d)"
      Jbig (Ok (Z.of_nat cols)) (np_concatenate obs_to_concat) ;;
  let off := O in
  let '(st, off) :=
    if extract_hamiltonian
    then (set_rate st "hamiltonian" (slice off nerrors all_intrinsic_rates),
          (off + nerrors)%nat)
    else (st, off) in
  let '(st, off) :=
    if extract_stochastic
    then (set_rate st "stochastic" (slice off nerrors all_intrinsic_rates),
          (off + nerrors)%nat)
    else (st, off) in
  let st :=
    if extract_affine
    then set_rate st "affine" (slice off nerrors all_intrinsic_rates)
    else st in
  Ok st.

(** *** The whole run *)

(** [IdleTomographyResults]: what the constructor is given, the data set
    apart. *)
Record IdleTomographyResults : Type := mkResults {
  res_maxLengths : list Z;
  res_maxErrWeight : Z;
  res_fitOrder : Z;
  res_errors : list NQPauliOp;
  res_intrinsic_rates : list (string * vector);
  res_pauli_fidpair_dict : list (string * list fidpair);
  res_observed_rate_infos : list (string * list infos)
}.

(** [advancedOptions.get("jacobian mode", "separate")] and
    [advancedOptions.get('fit order',1)] *)
Definition jacobian_mode (advancedOptions : AdvancedOptions) : string :=
  match opt_jacobian_mode advancedOptions with Some m => m | None => "separate" end.

Definition fit_order (advancedOptions : AdvancedOptions) : Z :=
  match opt_fit_order advancedOptions with Some k => k | None => 1 end.

Definition preferred_signs (given : option (list string)) (d : paulidict)
  : result (list string) :=
  match given with
  | Some signs => Ok signs
  | None => preferred_signs_from_paulidict d
  end.

Definition do_idle_tomography (nQubits : Z) (maxLengths : list Z)
  (pauliDicts : paulidict * paulidict) (maxErrWeight : Z) (GiStr : GateString)
  (extract_hamiltonian extract_stochastic extract_affine : bool)
  (advancedOptions : AdvancedOptions) : result IdleTomographyResults :=
  let '(prepDict, measDict) := pauliDicts in
  let jacmode := jacobian_mode advancedOptions in
  do preferred_prep_basis_signs <-
    preferred_signs (opt_preferred_prep_basis_signs advancedOptions) prepDict ;;
  do preferred_meas_basis_signs <-
    preferred_signs (opt_preferred_meas_basis_signs advancedOptions) measDict ;;
  let same_basis_fidpairs :=
    option_map (filter same_basis) (opt_pauli_fidpairs advancedOptions) in
  let diff_basis_fidpairs :=
    option_map (filter (fun fp => negb (same_basis fp))) (opt_pauli_fidpairs advancedOptions) in
  let errors := allerrors nQubits maxErrWeight in
  let fitOrder := fit_order advancedOptions in
  let st := initial_state in
  do st <-
    (if extract_stochastic then
       stochastic_stage nQubits maxLengths pauliDicts maxErrWeight GiStr
         extract_stochastic extract_affine advancedOptions jacmode
         preferred_prep_basis_signs preferred_meas_basis_signs
         same_basis_fidpairs errors fitOrder st
     else if extract_affine then
       Raise (ValueError
                "Cannot extract affine error rates without also extracting stochastic ones!")
     else Ok st) ;;
  do st <-
    (if extract_hamiltonian then
       hamiltonian_stage nQubits maxLengths pauliDicts maxErrWeight GiStr
         extract_hamiltonian extract_affine advancedOptions jacmode
         preferred_prep_basis_signs preferred_meas_basis_signs
         diff_basis_fidpairs errors fitOrder st
     else Ok st) ;;
  do st <-
    (if String.eqb jacmode "together"
     then joint_inversion extract_hamiltonian extract_stochastic extract_affine
            (List.length errors) st
     else Ok st) ;;
  Ok (mkResults maxLengths maxErrWeight fitOrder errors (intrinsic_rates st)
        (pauli_fidpair_dict st) (observed_rate_infos st)).

(** * Properties *)

(** ** Generic facts about results, strings and lists *)

Lemma append_assoc (a b c : string) : ((a ++ b) ++ c = a ++ (b ++ c))%string.
Proof. induction a as [|x a IH]; simpl; [reflexivity | now rewrite IH]. Qed.

Lemma append_string_of_list (a : string) (l : list ascii) (c : ascii) :
  (a ++ String c (string_of_list_ascii l) = (a ++ String c EmptyString) ++ string_of_list_ascii l)%string.
Proof. now rewrite append_assoc. Qed.

Lemma mapM_ok {A B : Type} (f : A -> result B) (g : A -> B) (l : list A) :
  Forall (fun a => f a = Ok (g a)) l -> mapM f l = Ok (map g l).
Proof.
  induction 1 as [|a l Ha _ IH]; simpl; [reflexivity|].
  now rewrite Ha, IH.
Qed.

Lemma mapM_length {A B : Type} (f : A -> result B) (l : list A) (bs : list B) :
  mapM f l = Ok bs -> List.length bs = List.length l.
Proof.
  revert bs; induction l as [|a l IH]; simpl; intros bs H.
  - now inversion H.
  - destruct (f a); simpl in H; [|discriminate].
    destruct (mapM f l); simpl in H; [|discriminate].
    inversion H; subst; simpl. now rewrite (IH _ eq_refl).
Qed.

Lemma mapM_raise {A B : Type} (f : A -> result B) (P : exn -> Prop) (l : list A) :
  (forall a e, In a l -> f a = Raise e -> P e) ->
  Exists (fun a => is_ok (f a) = false) l ->
  exists e, mapM f l = Raise e /\ P e.
Proof.
  intros HP HE. induction HE as [a l Ha | a l _ IH].
  - simpl. destruct (f a) eqn:E; [discriminate|].
    exists e; split; [reflexivity | apply (HP a); simpl; auto].
  - simpl. destruct (f a) eqn:E.
    + destruct IH as [e [-> He]]; [intros; eapply HP; simpl; eauto|].
      exists e; split; [reflexivity | exact He].
    + exists e; split; [reflexivity | apply (HP a); simpl; auto].
Qed.

(** ** [stochastic_outcome] *)

Definition bases_match5 (z : Z * (ascii * (Z * (ascii * ascii)))) : Prop :=
  let '(_, (P1, (_, (P2, _)))) := z in P1 = P2.

Definition qubit_bit (z : Z * (ascii * (Z * (ascii * ascii)))) : ascii :=
  let '(s1, (P, (s2, (_, Err)))) := z in stochastic_bit s1 P s2 Err.

Lemma stochastic_outcome_loop_ok zs : forall acc,
  Forall bases_match5 zs ->
  stochastic_outcome_loop zs acc = Ok (acc ++ string_of_list_ascii (map qubit_bit zs))%string.
Proof.
  induction zs as [|[s1 [P1 [s2 [P2 Err]]]] zs IH]; intros acc H; simpl.
  - f_equal. induction acc; simpl; congruence.
  - inversion H as [|? ? Hz Hzs]; subst. simpl in Hz; subst P2.
    rewrite Ascii.eqb_refl; simpl.
    rewrite IH by assumption. now rewrite append_string_of_list.
Qed.



Definition is_sign (s : Z) : Prop := s = 1 \/ s = -1.



(** ** [affine_jac_element] *)

(** The per-qubit rule as the specification tabulates it, for a qubit
    whose prep and meas basis letter is [P]. *)
Definition affine_rule (s1 : Z) (P e : ascii) (s2 : Z) (b : ascii) : Z :=
  let outsign := if Ascii.eqb b "0" then 1 else -1 in
  if Ascii.eqb e "I" then (if s1 * s2 * outsign =? 1 then 1 else 0)
  else if Ascii.eqb e P then (if Ascii.eqb b "0" then s2 else - s2)
  else 0.

Definition affine_qubit_ok (z : Z * (ascii * (Z * (ascii * (ascii * ascii))))) : Prop :=
  let '(_, (P1, (_, (P2, _)))) := z in P1 = P2 /\ is_XYZ P1 = true.

Definition affine_qubit_rule (z : Z * (ascii * (Z * (ascii * (ascii * ascii))))) : Z :=
  let '(s1, (P1, (s2, (_, (Err, o))))) := z in affine_rule s1 P1 Err s2 o.

Definition affine_qubit_helper (z : Z * (ascii * (Z * (ascii * (ascii * ascii))))) : result Z :=
  let '(s1, (P1, (s2, (P2, (Err, o))))) := z in affhelper s1 P1 Err s2 P2 o.



Lemma affhelper_rule s1 P e s2 b :
  is_XYZ P = true -> affhelper s1 P e s2 P b = Ok (affine_rule s1 P e s2 b).
Proof.
  intros HP. unfold affhelper, affine_rule. rewrite HP, Ascii.eqb_refl. simpl.
  destruct (Ascii.eqb e "I"); [reflexivity|].
  rewrite (Ascii.eqb_sym P e).
  destruct (Ascii.eqb e P); simpl; [|reflexivity].
  destruct (Ascii.eqb b "0"); f_equal; lia.
Qed.






(** ** [idle_tomography_fidpairs]: the stochastic and affine templates *)

(** The preferred sign of a basis letter, as a number. *)
Definition preferred (signs : list string) (l : ascii) : Z :=
  if Ascii.eqb l "X" then conv (nth 0 signs "")
  else if Ascii.eqb l "Y" then conv (nth 1 signs "")
  else conv (nth 2 signs "").

(** The template pair of one flip pattern and one tuple of basis letters:
    the flips applied to the preferred signs. *)
Definition template_pair (prep_signs meas_signs : list string)
  (fliptup : list Z) (basisLets : list ascii) : fidpair :=
  (mkState (string_of_list_ascii basisLets)
     (map (fun '(f, l) => f * preferred prep_signs l) (combine fliptup basisLets)),
   mkState (string_of_list_ascii basisLets)
     (map (fun '(f, l) => f * preferred meas_signs l) (combine fliptup basisLets))).

(** One template pair per flip pattern and per tuple of [maxweight] basis
    letters, the patterns outermost. *)
Definition templates (maxweight : nat) (prep_signs meas_signs : list string)
  (flips : list (list Z)) : list fidpair :=
  flat_map (fun fliptup => map (template_pair prep_signs meas_signs fliptup)
                             (product_repeat XYZ maxweight)) flips.

Definition flip_patterns_1 : list (list Z) := [[1]; [-1]].
Definition flip_patterns_2 : list (list Z) := [[1; 1]; [1; -1]; [-1; 1]].

Lemma three_signs (signs : list string) :
  List.length signs = 3%nat -> exists a b c, signs = [a; b; c].
Proof.
  destruct signs as [|a [|b [|c [|d signs]]]]; simpl; try discriminate.
  intros _. now exists a, b, c.
Qed.

Lemma is_XYZ_cases (l : ascii) :
  is_XYZ l = true -> l = "X"%char \/ l = "Y"%char \/ l = "Z"%char.
Proof.
  unfold is_XYZ.
  destruct (Ascii.eqb_spec l "X"); [auto|].
  destruct (Ascii.eqb_spec l "Y"); [auto|].
  destruct (Ascii.eqb_spec l "Z"); [auto|discriminate].
Qed.


Lemma flat_map_length_const {A B : Type} (f : A -> list B) (n : nat) (l : list A) :
  (forall a, List.length (f a) = n) -> List.length (flat_map f l) = (List.length l * n)%nat.
Proof.
  intros H. induction l as [|a l IH]; simpl; [reflexivity|].
  now rewrite length_app, H, IH.
Qed.

Lemma product_repeat_length {A : Type} (pool : list A) (n : nat) :
  List.length (product_repeat pool n) = (List.length pool ^ n)%nat.
Proof.
  induction n as [|n IH]; simpl; [reflexivity|].
  rewrite (flat_map_length_const _ (List.length pool ^ n)%nat).
  - reflexivity.
  - intros a. now rewrite length_map.
Qed.

Lemma templates_length (maxweight : nat) (ps ms : list string) (flips : list (list Z)) :
  List.length (templates maxweight ps ms flips) = (List.length flips * 3 ^ maxweight)%nat.
Proof.
  unfold templates. apply flat_map_length_const.
  intros a. rewrite length_map. apply (product_repeat_length XYZ).
Qed.

(** C5. With stochastic and affine sequences both included,
    [idle_tomography_fidpairs] uses the flip patterns (no-flip), (flip) for
    maxweight 1 and (no-flip), (flip-second), (flip-first) for maxweight 2,
    and fails with [NotImplementedError] for every maxweight above 2. It
    builds one template pair per flip pattern and per tuple of basis
    letters, the flips applied to the preferred signs; for 2 qubits,
    maxweight 1 and no Hamiltonian sequences these are 2 * 3 = 6 template
    pairs, which are then tiled. *)
Theorem fidpairs_sto_affine_templates :
  sto_flips 1 true = Ok flip_patterns_1 /\
  sto_flips 2 true = Ok flip_patterns_2 /\
  (forall nQubits maxweight include_hamiltonian ham_tmpl ps ms,
     2 < maxweight ->
     exists msg,
       idle_tomography_fidpairs nQubits maxweight include_hamiltonian true true ham_tmpl ps ms
         = Raise (NotImplementedError msg)) /\
  (forall nQubits ham_tmpl ps ms,
     List.length ps = 3%nat -> List.length ms = 3%nat ->
     idle_tomography_fidpairs nQubits 1 false true true ham_tmpl ps ms
       = Ok (tile_pauli_fidpairs (templates 1 ps ms flip_patterns_1) nQubits 1) /\
     idle_tomography_fidpairs nQubits 2 false true true ham_tmpl ps ms
       = Ok (tile_pauli_fidpairs (templates 2 ps ms flip_patterns_2) nQubits 2)) /\
  (forall maxweight ps ms flips,
     List.length (templates maxweight ps ms flips)
       = (List.length flips * 3 ^ maxweight)%nat) /\
  (forall ham_tmpl,
     idle_tomography_fidpairs 2 1 false true true ham_tmpl default_signs default_signs
       = Ok (tile_pauli_fidpairs
               [ (mkState "X" [1], mkState "X" [1]); (mkState "Y" [1], mkState "Y" [1]);
                 (mkState "Z" [1], mkState "Z" [1]); (mkState "X" [-1], mkState "X" [-1]);
                 (mkState "Y" [-1], mkState "Y" [-1]); (mkState "Z" [-1], mkState "Z" [-1]) ]
               2 1)) /\
  List.length (templates 1 default_signs default_signs flip_patterns_1) = 6%nat.
Proof.
  split; [reflexivity|]. split; [reflexivity|]. split; [|split; [|split; [|split]]].
  - intros nQubits maxweight ih ham ps ms H.
    unfold idle_tomography_fidpairs, sto_flips.
    destruct (Z.eqb_spec maxweight 1); [lia|].
    destruct (Z.eqb_spec maxweight 2); [lia|].
    simpl. eexists; reflexivity.
  - intros nQubits ham ps ms Hp Hm.
    destruct (three_signs ps Hp) as [a [b [c ->]]].
    destruct (three_signs ms Hm) as [a' [b' [c' ->]]].
    split; reflexivity.
  - apply templates_length.
  - intros ham. reflexivity.
  - reflexivity.
Qed.

(** ** [idle_tomography_fidpairs]: the Hamiltonian templates *)

(** The cyclic predecessor (X to Z, Y to X, Z to Y) and successor (X to Y,
    Y to Z, Z to X) of a basis letter. *)
Definition pred_letter (c : ascii) : ascii :=
  if Ascii.eqb c "X" then "Z"%char else if Ascii.eqb c "Y" then "X"%char else "Y"%char.

Definition succ_letter (c : ascii) : ascii :=
  if Ascii.eqb c "X" then "Y"%char else if Ascii.eqb c "Y" then "Z"%char else "X"%char.



Lemma chars_string_of_list (l : list ascii) : chars (string_of_list_ascii l) = l.
Proof. apply list_ascii_of_string_of_list_ascii. Qed.

Lemma pred_succ_XYZ (c : ascii) :
  is_XYZ c = true ->
  is_XYZ (pred_letter c) = true /\ is_XYZ (succ_letter c) = true /\
  pred_letter c <> succ_letter c /\
  letter_get prevPauli c = Ok (pred_letter c) /\
  letter_get nextPauli c = Ok (succ_letter c).
Proof.
  intros H. apply is_XYZ_cases in H.
  destruct H as [-> | [-> | ->]]; repeat split; discriminate.
Qed.

Lemma shift_prev (t : string) :
  Forall (fun c => is_XYZ c = true) (chars t) ->
  prev t = Ok (string_of_list_ascii (map pred_letter (chars t))).
Proof.
  intros H. unfold prev, shift_letters.
  rewrite (mapM_ok (letter_get prevPauli) pred_letter); [reflexivity|].
  eapply Forall_impl; [|exact H]. intros c Hc. now apply pred_succ_XYZ.
Qed.

Lemma shift_next (t : string) :
  Forall (fun c => is_XYZ c = true) (chars t) ->
  next t = Ok (string_of_list_ascii (map succ_letter (chars t))).
Proof.
  intros H. unfold next, shift_letters.
  rewrite (mapM_ok (letter_get nextPauli) succ_letter); [reflexivity|].
  eapply Forall_impl; [|exact H]. intros c Hc. now apply pred_succ_XYZ.
Qed.






(** ** The affine-without-stochastic precondition *)

Lemma preferred_sign_raises (d : paulidict) (l : string) (e : exn) :
  preferred_sign d l = Raise e -> e = ValueError "No entry for %s-basis!".
Proof.
  unfold preferred_sign, dict_mem.
  destruct (dict_get d ("-" ++ l)) as [m|] eqn:Em;
    destruct (dict_get d ("+" ++ l)) as [p|] eqn:Ep;
    try (destruct (dict_get d l) as [q|] eqn:Eq);
    try rewrite Em; try rewrite Ep; try rewrite Eq; intros H; try discriminate H;
    now inversion H.
Qed.

Lemma preferred_signs_raises (given : option (list string)) (d : paulidict) (e : exn) :
  preferred_signs given d = Raise e -> e = ValueError "No entry for %s-basis!".
Proof.
  destruct given as [s|]; simpl; [discriminate|].
  unfold preferred_signs_from_paulidict.
  generalize ["X"; "Y"; "Z"]. intros l. revert e.
  induction l as [|x l IH]; simpl; intros e H; [discriminate|].
  destruct (preferred_sign d x) eqn:E; simpl in H.
  - destruct (mapM (preferred_sign d) l); simpl in H; [discriminate|].
    inversion H; subst. now apply IH.
  - inversion H; subst. now apply (preferred_sign_raises d x).
Qed.

(** C3. When affine extraction is requested without stochastic extraction,
    [idle_tomography_fidpairs] raises its [ValueError] whatever its other
    arguments are, returning no fiducial pair; and [do_idle_tomography] does
    nothing but resolve the preferred signs and raise: it fails with a
    [ValueError] whatever the data set, the enumerators and the numerical
    routines are, before any stage runs. *)
Theorem affine_requires_stochastic :
  (forall nQubits maxweight include_hamiltonian ham_tmpl ps ms,
     idle_tomography_fidpairs nQubits maxweight include_hamiltonian false true ham_tmpl ps ms
       = Raise (ValueError
                  "Cannot include affine sequences without also including stochastic ones!")) /\
  (forall nQubits maxLengths prepDict measDict maxErrWeight GiStr
          extract_hamiltonian advancedOptions,
     do_idle_tomography nQubits maxLengths (prepDict, measDict) maxErrWeight GiStr
       extract_hamiltonian false true advancedOptions
       = (do _ <- preferred_signs (opt_preferred_prep_basis_signs advancedOptions) prepDict ;;
          do _ <- preferred_signs (opt_preferred_meas_basis_signs advancedOptions) measDict ;;
          Raise (ValueError
            "Cannot extract affine error rates without also extracting stochastic ones!")) /\
     exists msg,
       do_idle_tomography nQubits maxLengths (prepDict, measDict) maxErrWeight GiStr
         extract_hamiltonian false true advancedOptions
         = Raise (ValueError msg)).
Proof.
  split.
  - intros. reflexivity.
  - intros nQubits maxLengths prepDict measDict maxErrWeight GiStr eh opts.
    assert (E : do_idle_tomography nQubits maxLengths (prepDict, measDict) maxErrWeight GiStr
                  eh false true opts
                = (do _ <- preferred_signs (opt_preferred_prep_basis_signs opts) prepDict ;;
                   do _ <- preferred_signs (opt_preferred_meas_basis_signs opts) measDict ;;
                   Raise (ValueError
                     "Cannot extract affine error rates without also extracting stochastic ones!"))).
    { unfold do_idle_tomography.
      destruct (preferred_signs (opt_preferred_prep_basis_signs opts) prepDict); simpl;
        [|reflexivity].
      destruct (preferred_signs (opt_preferred_meas_basis_signs opts) measDict); simpl;
        reflexivity. }
    split; [exact E|]. rewrite E.
    destruct (preferred_signs (opt_preferred_prep_basis_signs opts) prepDict) eqn:E1; simpl.
    + destruct (preferred_signs (opt_preferred_meas_basis_signs opts) measDict) eqn:E2; simpl.
      * eexists; reflexivity.
      * apply preferred_signs_raises in E2. subst. eexists; reflexivity.
    + apply preferred_signs_raises in E1. subst. eexists; reflexivity.
Qed.

(** ** [get_obs_hamiltonian_err_rate]: the weight of the observable *)






(** ** The rate chosen from the fitted coefficients *)

Lemma np_sign_pos (x : R) : (0 < x)%R -> np_sign x = 1%R.
Proof. intros H. unfold np_sign. destruct (Rlt_dec 0 x); [reflexivity|lra]. Qed.

Lemma np_sign_neg (x : R) : (x < 0)%R -> np_sign x = (-1)%R.
Proof.
  intros H. unfold np_sign.
  destruct (Rlt_dec 0 x); [lra|]. destruct (Rlt_dec x 0); [reflexivity|lra].
Qed.

Lemma np_sign_zero : np_sign 0 = 0%R.
Proof.
  unfold np_sign. destruct (Rlt_dec 0 0); [lra|]. destruct (Rlt_dec 0 0); [lra|reflexivity].
Qed.

(** The fitted quadratic and its derivative. *)
Definition quadratic (c2 c1 c0 x : R) : R := (c2 * x ^ 2 + c1 * x + c0)%R.
Definition quadratic_deriv (c2 c1 x : R) : R := (2 * c2 * x + c1)%R.

(** The root of the quadratic that the rate is taken at. *)
Definition smaller_root (c2 c1 c0 : R) : R :=
  ((- c1 - np_sign c2 * sqrt (c1 ^ 2 - 4 * c2 * c0)) / (2 * c2))%R.

Lemma smaller_root_facts (c2 c1 c0 : R) :
  (0 <= c1 ^ 2 - 4 * c2 * c0)%R -> c2 <> 0%R ->
  quadratic c2 c1 c0 (smaller_root c2 c1 c0) = 0%R /\
  quadratic_deriv c2 c1 (smaller_root c2 c1 c0)
    = (- np_sign c2 * sqrt (c1 ^ 2 - 4 * c2 * c0))%R /\
  (forall x, quadratic c2 c1 c0 x = 0%R -> (smaller_root c2 c1 c0 <= x)%R).
Proof.
  intros Hdet Hc2.
  set (s := sqrt (c1 ^ 2 - 4 * c2 * c0)).
  assert (Hs0 : (0 <= s)%R) by apply sqrt_pos.
  assert (Hs2 : (s * s = c1 ^ 2 - 4 * c2 * c0)%R) by (apply sqrt_sqrt; exact Hdet).
  unfold smaller_root, quadratic, quadratic_deriv. fold s.
  destruct (Rtotal_order c2 0) as [Hneg | [Hz | Hpos]]; [|contradiction|].
  - rewrite (np_sign_neg c2 Hneg).
    assert (Hx0 : (2 * c2 * ((- c1 - -1 * s) / (2 * c2)) = - c1 + s)%R) by (field; lra).
    set (x0 := ((- c1 - -1 * s) / (2 * c2))%R) in *.
    split; [|split].
    + assert (H4 : (4 * c2 * (c2 * x0 ^ 2 + c1 * x0 + c0) = 0)%R) by nra.
      nra.
    + lra.
    + intros x Hx.
      assert (Hsq : ((2 * c2 * x + c1) * (2 * c2 * x + c1) = s * s)%R) by nra.
      assert (Hle : (2 * c2 * x + c1 <= s)%R) by nra.
      nra.
  - rewrite (np_sign_pos c2 Hpos).
    assert (Hx0 : (2 * c2 * ((- c1 - 1 * s) / (2 * c2)) = - c1 - s)%R) by (field; lra).
    set (x0 := ((- c1 - 1 * s) / (2 * c2))%R) in *.
    split; [|split].
    + assert (H4 : (4 * c2 * (c2 * x0 ^ 2 + c1 * x0 + c0) = 0)%R) by nra.
      nra.
    + lra.
    + intros x Hx.
      assert (Hsq : ((2 * c2 * x + c1) * (2 * c2 * x + c1) = s * s)%R) by nra.
      assert (Hge : (- s <= 2 * c2 * x + c1)%R) by nra.
      nra.
Qed.

Lemma curvefit_ok (maxLengths : list Z) (d w : list R) (fitOrder : Z) (info : FitInfo) :
  curvefit maxLengths d w fitOrder = Ok info ->
  np_polyfit maxLengths (data info) fitOrder (weights info) = Ok (fitCoeffs info) /\
  fit_slope (fitCoeffs info) fitOrder = Ok (rate info).
Proof.
  unfold curvefit. destruct (np_polyfit maxLengths d fitOrder w) as [coeffs|] eqn:E; simpl;
    [|discriminate].
  destruct (fit_slope coeffs fitOrder) as [slope|] eqn:F; simpl; [|discriminate].
  intros H. inversion H; subst; simpl. auto.
Qed.

Lemma curvefit_unsupported (maxLengths : list Z) (d w : list R) (fitOrder : Z) :
  fitOrder <> 1 -> fitOrder <> 2 -> is_ok (curvefit maxLengths d w fitOrder) = false.
Proof.
  intros H1 H2. unfold curvefit, fit_slope.
  apply Z.eqb_neq in H1, H2. rewrite H1, H2.
  destruct (np_polyfit maxLengths d fitOrder w); reflexivity.
Qed.

(** C7 (as the code has it). Both estimators return as rate the value
    [fit_slope] picks from the coefficients that [numpy.polyfit] returns
    (highest power first). With fitOrder 1 it is the linear slope
    coefficient. With fitOrder 2 and fitted quadratic c2*x^2 + c1*x + c0: if
    the discriminant c1^2 - 4*c2*c0 is negative the rate is the linear
    coefficient c1 (the derivative at length 0); if it is nonnegative the
    rate is -sign(c2)*sqrt(c1^2 - 4*c2*c0), which for c2 <> 0 is the
    derivative of the quadratic at its smaller root, not at length 0. With
    a fitOrder above 2 neither estimator returns. The order is looked at
    only after the data points of all lengths are gathered and
    [numpy.polyfit] has been called: once these have returned, the error of
    either estimator is [NotImplementedError]; an error of the data lookup or
    of the fit itself comes first. *)
Theorem fit_rate_selection :
  (forall fp dicts GiStr out maxLengths fitOrder info,
     get_obs_stochastic_err_rate fp dicts GiStr out maxLengths fitOrder = Ok info ->
     np_polyfit maxLengths (data info) fitOrder (weights info) = Ok (fitCoeffs info) /\
     fit_slope (fitCoeffs info) fitOrder = Ok (rate info)) /\
  (forall fp dicts GiStr obs maxLengths fitOrder info,
     get_obs_hamiltonian_err_rate fp dicts GiStr obs maxLengths fitOrder = Ok info ->
     np_polyfit maxLengths (data info) fitOrder (weights info) = Ok (fitCoeffs info) /\
     fit_slope (fitCoeffs info) fitOrder = Ok (rate info)) /\
  (forall slope rest, fit_slope (slope :: rest) 1 = Ok slope) /\
  (forall c2 c1 c0 rest,
     ((c1 ^ 2 - 4 * c2 * c0 < 0)%R ->
        fit_slope (c2 :: c1 :: c0 :: rest) 2 = Ok c1 /\ quadratic_deriv c2 c1 0 = c1) /\
     ((0 <= c1 ^ 2 - 4 * c2 * c0)%R ->
        fit_slope (c2 :: c1 :: c0 :: rest) 2
          = Ok (- np_sign c2 * sqrt (c1 ^ 2 - 4 * c2 * c0))%R /\
        (c2 <> 0%R ->
           quadratic c2 c1 c0 (smaller_root c2 c1 c0) = 0%R /\
           quadratic_deriv c2 c1 (smaller_root c2 c1 c0)
             = (- np_sign c2 * sqrt (c1 ^ 2 - 4 * c2 * c0))%R /\
           (forall x, quadratic c2 c1 c0 x = 0%R -> (smaller_root c2 c1 c0 <= x)%R)))) /\
  (forall coeffs fitOrder, fitOrder <> 1 -> fitOrder <> 2 ->
     fit_slope coeffs fitOrder
       = Raise (NotImplementedError "Only fitOrder <= 2 are supported!")) /\
  (forall fp dicts GiStr out obs maxLengths fitOrder, 2 < fitOrder ->
     is_ok (get_obs_stochastic_err_rate fp dicts GiStr out maxLengths fitOrder) = false /\
     is_ok (get_obs_hamiltonian_err_rate fp dicts GiStr obs maxLengths fitOrder) = false) /\
  (forall fp dicts GiStr out maxLengths fitOrder pts coeffs, 2 < fitOrder ->
     gather_points (fun gstr => freq_and_weight gstr out)
       (to_gatestring (fst fp) (fst dicts)) GiStr (to_gatestring (snd fp) (snd dicts))
       maxLengths = Ok pts ->
     np_polyfit maxLengths (fst pts) fitOrder (snd pts) = Ok coeffs ->
     get_obs_stochastic_err_rate fp dicts GiStr out maxLengths fitOrder
       = Raise (NotImplementedError "Only fitOrder <= 2 are supported!")) /\
  (forall fp dicts GiStr obs maxLengths fitOrder signs pts coeffs, 2 < fitOrder ->
     mapM (getitem (state_signs (snd fp))) (non_identity_indices (chars (op_rep obs)) 0)
       = Ok signs ->
     gather_points
       (fun gstr =>
          do ew <- unsigned_exptn_and_weight gstr
                     (non_identity_indices (chars (op_rep obs)) 0) ;;
          Ok ((IZR (np_prod signs) * fst ew)%R, snd ew))
       (to_gatestring (fst fp) (fst dicts)) GiStr (to_gatestring (snd fp) (snd dicts))
       maxLengths = Ok pts ->
     np_polyfit maxLengths (fst pts) fitOrder (snd pts) = Ok coeffs ->
     get_obs_hamiltonian_err_rate fp dicts GiStr obs maxLengths fitOrder
       = Raise (NotImplementedError "Only fitOrder <= 2 are supported!")).
Proof.
  assert (Hfit : forall maxLengths d w fitOrder coeffs, 2 < fitOrder ->
            np_polyfit maxLengths d fitOrder w = Ok coeffs ->
            curvefit maxLengths d w fitOrder
            = Raise (NotImplementedError "Only fitOrder <= 2 are supported!")).
  { intros maxLengths d w fitOrder coeffs Hlt Hc. unfold curvefit, fit_slope.
    rewrite Hc. cbn [bind].
    assert (H1 : (fitOrder =? 1) = false) by (apply Z.eqb_neq; lia).
    assert (H2 : (fitOrder =? 2) = false) by (apply Z.eqb_neq; lia).
    now rewrite H1, H2. }
  split; [|split; [|split; [|split; [|split; [|split; [|split]]]]]].
  - intros [pp pm] [pd md] GiStr out maxLengths fitOrder info.
    unfold get_obs_stochastic_err_rate.
    destruct (gather_points _ _ _ _ maxLengths) as [pts|]; simpl; [|discriminate].
    apply curvefit_ok.
  - intros [pp pm] [pd md] GiStr obs maxLengths fitOrder info.
    unfold get_obs_hamiltonian_err_rate.
    destruct (mapM _ _) as [signs|]; simpl; [|discriminate].
    destruct (gather_points _ _ _ _ maxLengths) as [pts|]; simpl; [|discriminate].
    apply curvefit_ok.
  - reflexivity.
  - intros c2 c1 c0 rest. split.
    + intros Hdet. split; [|unfold quadratic_deriv; lra].
      unfold fit_slope; simpl.
      match goal with |- context [Rle_dec ?a ?b] => destruct (Rle_dec a b) end;
        [simpl in *; lra|reflexivity].
    + intros Hdet. split; [|now apply smaller_root_facts].
      unfold fit_slope; simpl.
      match goal with |- context [Rle_dec ?a ?b] => destruct (Rle_dec a b) end;
        [|simpl in *; lra].
      do 3 f_equal. lra.
  - intros coeffs fitOrder H1 H2. unfold fit_slope.
    apply Z.eqb_neq in H1, H2. now rewrite H1, H2.
  - intros [pp pm] [pd md] GiStr out obs maxLengths fitOrder H. split.
    + unfold get_obs_stochastic_err_rate.
      destruct (gather_points _ _ _ _ maxLengths) as [pts|]; simpl; [|reflexivity].
      apply curvefit_unsupported; lia.
    + unfold get_obs_hamiltonian_err_rate.
      destruct (mapM _ _) as [signs|]; simpl; [|reflexivity].
      destruct (gather_points _ _ _ _ maxLengths) as [pts|]; simpl; [|reflexivity].
      apply curvefit_unsupported; lia.
  - intros [pp pm] [pd md] GiStr out maxLengths fitOrder pts coeffs Hlt Hg Hc.
    cbn [fst snd] in Hg. unfold get_obs_stochastic_err_rate. rewrite Hg. cbn [bind].
    exact (Hfit _ _ _ _ _ Hlt Hc).
  - intros [pp pm] [pd md] GiStr obs maxLengths fitOrder signs pts coeffs Hlt Hs Hg Hc.
    cbn [fst snd] in Hs, Hg. unfold get_obs_hamiltonian_err_rate. rewrite Hs. cbn [bind].
    rewrite Hg. cbn [bind]. exact (Hfit _ _ _ _ _ Hlt Hc).
Qed.

(** ** The three inversion sites and the rank warning *)

Lemma warnings_unbound (msg : string) : warnings_warn msg = Raise (NameError "_warnings").
Proof. reflexivity. Qed.

Lemma invert_site_rank_deficient (what : string) (J : matrix) (n : Z) (obs : result vector) :
  np_matrix_rank J < n ->
  invert_site what J (Ok n) obs = Raise (NameError "_warnings").
Proof.
  intros H. unfold invert_site. simpl.
  apply Z.ltb_lt in H. rewrite H. reflexivity.
Qed.

Lemma invert_site_full_rank (what : string) (J : matrix) (n : Z) (obs : vector) :
  n <= np_matrix_rank J ->
  invert_site what J (Ok n) (Ok obs) = np_dot (np_pinv J) obs.
Proof.
  intros H. unfold invert_site. simpl.
  apply Z.ltb_ge in H. rewrite H. reflexivity.
Qed.

Lemma invert_site_ok (what : string) (J : matrix) (ncols : result Z) (obs : result vector)
  (x : vector) :
  invert_site what J ncols obs = Ok x ->
  exists n o, ncols = Ok n /\ n <= np_matrix_rank J /\ obs = Ok o /\
              np_dot (np_pinv J) o = Ok x.
Proof.
  unfold invert_site. destruct ncols as [n|]; simpl; [|discriminate].
  destruct (Z.ltb_spec (np_matrix_rank J) n); simpl; [discriminate|].
  destruct obs as [o|]; simpl; [|discriminate].
  intros Hx. exists n, o. auto.
Qed.

(** The rank-deficient case at each of the three sites: the warning's
    unbound name ends the stage with [NameError]. *)
Lemma rank_deficient_sites :
  (forall extract_affine fps gathered st n,
     shape1 (to_matrix (fst gathered)) = Ok n ->
     np_matrix_rank (to_matrix (fst gathered)) < n ->
     stochastic_finish extract_affine "separate" fps gathered st
       = Raise (NameError "_warnings")) /\
  (forall fps my_J my_Jaff infos_by_fidpair st n,
     shape1 (to_matrix my_J) = Ok n ->
     np_matrix_rank (to_matrix my_J) < n ->
     hamiltonian_finish false "separate" fps (my_J, my_Jaff, infos_by_fidpair) st
       = Raise (NameError "_warnings")) /\
  (forall fps my_J my_Jaff infos_by_fidpair st n corrected,
     shape1 (to_matrix my_J) = Ok n ->
     np_matrix_rank (to_matrix my_J) < n ->
     affine_correction (to_matrix my_Jaff) st (observed_rates infos_by_fidpair)
       = Ok corrected ->
     hamiltonian_finish true "separate" fps (my_J, my_Jaff, infos_by_fidpair) st
       = Raise (NameError "_warnings")) /\
  (forall extract_hamiltonian extract_stochastic extract_affine nerrors st Jbig cols obs,
     assemble_Jbig extract_hamiltonian extract_stochastic extract_affine nerrors st
       = Ok (Jbig, cols, obs) ->
     np_matrix_rank Jbig < Z.of_nat cols ->
     joint_inversion extract_hamiltonian extract_stochastic extract_affine nerrors st
       = Raise (NameError "_warnings")).
Proof.
  split; [|split; [|split]].
  - intros ea fps gathered st n Hs Hr. unfold stochastic_finish. simpl.
    rewrite Hs. now rewrite (invert_site_rank_deficient _ _ _ _ Hr).
  - intros fps my_J my_Jaff infs st n Hs Hr. unfold hamiltonian_finish. simpl.
    rewrite Hs. now rewrite (invert_site_rank_deficient _ _ _ _ Hr).
  - intros fps my_J my_Jaff infs st n corrected Hs Hr Hc. unfold hamiltonian_finish. simpl.
    rewrite Hc. simpl. rewrite Hs. now rewrite (invert_site_rank_deficient _ _ _ _ Hr).
  - intros eh es ea nerrors st Jbig cols obs Ha Hr. unfold joint_inversion.
    rewrite Ha. cbn -[invert_site]. now rewrite (invert_site_rank_deficient _ _ _ _ Hr).
Qed.

(** ** The stochastic stage: rows and the split of the rates *)

Lemma dict_get_set_same {V : Type} (d : list (string * V)) (k : string) (v : V) :
  dict_get (dict_set d k v) k = Some v.
Proof.
  induction d as [|[k' v'] d IH]; simpl.
  - now rewrite String.eqb_refl.
  - destruct (String.eqb k' k) eqn:E; simpl.
    + now rewrite String.eqb_refl.
    + now rewrite E.
Qed.

Lemma dict_get_set_other {V : Type} (d : list (string * V)) (k k' : string) (v : V) :
  k <> k' -> dict_get (dict_set d k v) k' = dict_get d k'.
Proof.
  intros Hk. induction d as [|[k0 v0] d IH]; simpl.
  - apply String.eqb_neq in Hk. now rewrite Hk.
  - destruct (String.eqb k0 k) eqn:E; simpl.
    + apply String.eqb_eq in E; subst k0.
      apply String.eqb_neq in Hk. now rewrite Hk.
    + destruct (String.eqb k0 k'); [reflexivity|exact IH].
Qed.

Lemma mapM_app {A B : Type} (f : A -> result B) (l1 l2 : list A) :
  mapM f (l1 ++ l2)%list
  = (do a <- mapM f l1 ;; do b <- mapM f l2 ;; Ok (a ++ b)%list).
Proof.
  induction l1 as [|x l1 IH]; simpl.
  - destruct (mapM f l2); reflexivity.
  - destruct (f x); simpl; [|reflexivity].
    rewrite IH. destruct (mapM f l1); simpl; [|reflexivity].
    destruct (mapM f l2); reflexivity.
Qed.

Lemma mapM_map {A B C : Type} (g : A -> B) (f : B -> result C) (l : list A) :
  mapM f (map g l) = mapM (fun a => f (g a)) l.
Proof.
  induction l as [|a l IH]; simpl; [reflexivity|]. now rewrite IH.
Qed.

(** The (fiducial pair, outcome) combinations in the order the stage visits
    them. *)
Definition stochastic_row_keys (maxErrWeight : Z) (fps : list fidpair)
  : list (fidpair * NQOutcome) :=
  flat_map (fun fp => map (pair fp) (alloutcomes (fst fp) (snd fp) maxErrWeight)) fps.

Lemma stochastic_outcome_loop_rows ea errors dicts GiStr maxLengths fitOrder fp outs :
  forall J0 I0 J I,
  foldM (stochastic_outcome_step ea errors dicts GiStr maxLengths fitOrder fp) outs (J0, I0)
    = Ok (J, I) ->
  exists rows, mapM (stochastic_Jrow ea errors fp) outs = Ok rows /\ J = (J0 ++ rows)%list.
Proof.
  induction outs as [|out outs IH]; simpl; intros J0 I0 J I H.
  - inversion H; subst. exists []. now rewrite app_nil_r.
  - destruct (stochastic_Jrow ea errors fp out) as [row|] eqn:Er; simpl in H; [|discriminate].
    destruct (get_obs_stochastic_err_rate fp dicts GiStr out maxLengths fitOrder);
      simpl in H; [|discriminate].
    apply IH in H. destruct H as [rows [Hrows ->]].
    rewrite Hrows. simpl. exists (row :: rows). split; [reflexivity|].
    now rewrite <- app_assoc.
Qed.

Lemma stochastic_gather_rows_from ea errors dicts GiStr maxLengths fitOrder mw fps :
  forall J0 O0 J O,
  foldM (stochastic_fidpair_step ea errors dicts GiStr maxLengths fitOrder mw) fps (J0, O0)
    = Ok (J, O) ->
  exists rows,
    mapM (fun k => stochastic_Jrow ea errors (fst k) (snd k)) (stochastic_row_keys mw fps)
      = Ok rows /\ J = (J0 ++ rows)%list.
Proof.
  induction fps as [|fp fps IH]; intros J0 O0 J O H.
  - simpl in H. inversion H; subst. exists []. now rewrite app_nil_r.
  - cbn [foldM] in H. unfold stochastic_fidpair_step at 1 in H.
    destruct (foldM (stochastic_outcome_step ea errors dicts GiStr maxLengths fitOrder fp)
                (alloutcomes (fst fp) (snd fp) mw) (J0, [])) as [[J1 I1]|] eqn:E;
      cbn [bind fst snd] in H; [|discriminate].
    apply stochastic_outcome_loop_rows in E. destruct E as [rows1 [Hrows1 ->]].
    apply IH in H. destruct H as [rows2 [Hrows2 ->]].
    unfold stochastic_row_keys in *. cbn [flat_map].
    rewrite mapM_app, mapM_map. cbn [fst snd].
    change (mapM (fun a => stochastic_Jrow ea errors fp a) (alloutcomes (fst fp) (snd fp) mw))
      with (mapM (stochastic_Jrow ea errors fp) (alloutcomes (fst fp) (snd fp) mw)).
    rewrite Hrows1. cbn [bind]. rewrite Hrows2. cbn [bind].
    exists (rows1 ++ rows2)%list. split; [reflexivity|]. now rewrite app_assoc.
Qed.

Lemma stochastic_gather_rows ea errors dicts GiStr maxLengths fitOrder mw fps my_J my_infos :
  stochastic_gather ea errors dicts GiStr maxLengths fitOrder mw fps = Ok (my_J, my_infos) ->
  mapM (fun k => stochastic_Jrow ea errors (fst k) (snd k)) (stochastic_row_keys mw fps)
    = Ok my_J.
Proof.
  intros H. apply stochastic_gather_rows_from in H.
  destruct H as [rows [Hrows ->]]. exact Hrows.
Qed.

Lemma stochastic_Jrow_affine errors fp out Jrow :
  stochastic_Jrow true errors fp out = Ok Jrow ->
  exists sto aff,
    mapM (fun err => stochastic_jac_element (fst fp) err (snd fp) out) errors = Ok sto /\
    mapM (fun err => affine_jac_element (fst fp) err (snd fp) out) errors = Ok aff /\
    Jrow = (sto ++ aff)%list /\
    List.length sto = List.length errors /\ List.length aff = List.length errors.
Proof.
  unfold stochastic_Jrow.
  destruct (mapM (fun err => stochastic_jac_element _ err _ out) errors) as [sto|] eqn:Es;
    simpl; [|discriminate].
  destruct (mapM (fun err => affine_jac_element _ err _ out) errors) as [aff|] eqn:Ea;
    simpl; [|discriminate].
  intros H; inversion H; subst. exists sto, aff.
  repeat split; eauto using mapM_length.
Qed.

Lemma mapM_Forall {A B : Type} (f : A -> result B) (P : B -> Prop) (l : list A) (bs : list B) :
  (forall a b, In a l -> f a = Ok b -> P b) -> mapM f l = Ok bs -> Forall P bs.
Proof.
  revert bs. induction l as [|a l IH]; simpl; intros bs HP H.
  - inversion H; constructor.
  - destruct (f a) as [b|] eqn:E; simpl in H; [|discriminate].
    destruct (mapM f l) as [bs'|]; simpl in H; [|discriminate].
    inversion H; subst. constructor; eauto.
Qed.

Lemma half_of_double (n : nat) : ((2 * n) / 2 = n)%nat.
Proof. rewrite Nat.mul_comm. apply Nat.div_mul. discriminate. Qed.

Lemma mapM_Forall2 {A B : Type} (f : A -> result B) (l : list A) (bs : list B) :
  mapM f l = Ok bs -> Forall2 (fun a b => f a = Ok b) l bs.
Proof.
  revert bs. induction l as [|a l IH]; simpl; intros bs H.
  - inversion H; constructor.
  - destruct (f a) as [b|] eqn:E; simpl in H; [|discriminate].
    destruct (mapM f l) as [bs'|]; simpl in H; [|discriminate].
    inversion H; subst. constructor; auto.
Qed.

Lemma hamiltonian_finish_separate_rates ea fps gathered st st' :
  hamiltonian_finish ea "separate" fps gathered st = Ok st' ->
  exists h, intrinsic_rates st' = dict_set (intrinsic_rates st) "hamiltonian" h.
Proof.
  destruct gathered as [[my_J my_Jaff] infs]. unfold hamiltonian_finish.
  cbn [String.eqb Ascii.eqb Bool.eqb].
  match goal with |- context [invert_site ?w ?J ?n] => set (site := invert_site w J n) end.
  destruct (if ea then _ else _) as [obs|]; cbn [bind]; [|discriminate].
  destruct (site (Ok obs)) as [h|]; cbn [bind]; [|discriminate].
  intros H; inversion H; subst. exists h. reflexivity.
Qed.

(** A stochastic-stage row and its two halves. *)
Definition sto_aff_row (errors : list NQPauliOp) (k : fidpair * NQOutcome) (row : list Z)
  : Prop :=
  exists sto aff,
    mapM (fun err => stochastic_jac_element (fst (fst k)) err (snd (fst k)) (snd k)) errors
      = Ok sto /\
    mapM (fun err => affine_jac_element (fst (fst k)) err (snd (fst k)) (snd k)) errors
      = Ok aff /\
    row = (sto ++ aff)%list /\
    List.length sto = List.length errors /\ List.length aff = List.length errors.

(** C8. In jacobian mode "separate" with stochastic and affine extraction
    both requested, a run that returns has gathered, for every fiducial pair
    and outcome in turn, a Jacobian row that is the stochastic elements for
    all enumerated errors followed by the affine elements for the same
    errors in the same order; the vector obtained from the pseudo-inverse
    of these rows is cut at half its length, the first part reported as
    the stochastic and the second as the affine rates (each one entry per
    error when the vector has one entry per column). *)
Theorem stochastic_affine_rows_and_split
  (nQubits : Z) (maxLengths : list Z) (prepDict measDict : paulidict) (maxErrWeight : Z)
  (GiStr : GateString) (extract_hamiltonian : bool) (advancedOptions : AdvancedOptions)
  (res : IdleTomographyResults) :
  jacobian_mode advancedOptions = "separate" ->
  do_idle_tomography nQubits maxLengths (prepDict, measDict) maxErrWeight GiStr
    extract_hamiltonian true true advancedOptions = Ok res ->
  let errors := allerrors nQubits maxErrWeight in
  exists fps my_J my_infos x,
    stochastic_gather true errors (prepDict, measDict) GiStr maxLengths
      (fit_order advancedOptions) maxErrWeight fps = Ok (my_J, my_infos) /\
    Forall2 (sto_aff_row errors) (stochastic_row_keys maxErrWeight fps) my_J /\
    np_dot (np_pinv (to_matrix my_J)) (observed_rates my_infos) = Ok x /\
    dict_get (res_intrinsic_rates res) "stochastic" = Some (firstn (List.length x / 2) x) /\
    dict_get (res_intrinsic_rates res) "affine" = Some (skipn (List.length x / 2) x) /\
    (firstn (List.length x / 2) x ++ skipn (List.length x / 2) x)%list = x /\
    (List.length x = (2 * List.length errors)%nat ->
     List.length (firstn (List.length x / 2) x) = List.length errors /\
     List.length (skipn (List.length x / 2) x) = List.length errors).
Proof.
  intros Hmode Hrun errors. unfold do_idle_tomography in Hrun. rewrite Hmode in Hrun.
  destruct (preferred_signs _ prepDict) as [pps|]; cbn [bind] in Hrun; [|discriminate].
  destruct (preferred_signs _ measDict) as [pms|]; cbn [bind] in Hrun; [|discriminate].
  fold errors in Hrun.
  destruct (stochastic_stage _ _ _ _ _ _ _ _ _ _ _ _ _ _ _) as [st1|] eqn:E1;
    cbn [bind] in Hrun; [|discriminate].
  unfold stochastic_stage in E1.
  destruct (stochastic_fidpairs _ _ _ _ _ _ _ _) as [fps|]; cbn [bind] in E1; [|discriminate].
  destruct (stochastic_gather _ _ _ _ _ _ _ fps) as [[my_J my_infos]|] eqn:Eg;
    cbn [bind] in E1; [|discriminate].
  unfold stochastic_finish in E1. cbn [fst snd String.eqb Ascii.eqb Bool.eqb] in E1.
  destruct (invert_site _ _ _ _) as [x|] eqn:Ex; cbn [bind] in E1; [|discriminate].
  inversion E1 as [Hst1]; clear E1.
  apply invert_site_ok in Ex. destruct Ex as [n [o [_ [_ [Ho Hx]]]]].
  injection Ho as <-.
  assert (Hrates : exists d,
             res_intrinsic_rates res = d /\
             dict_get d "stochastic" = Some (firstn (List.length x / 2) x) /\
             dict_get d "affine" = Some (skipn (List.length x / 2) x)).
  { destruct extract_hamiltonian.
    - destruct (hamiltonian_stage _ _ _ _ _ _ _ _ _ _ _ _ _ _ st1) as [st2|] eqn:E2;
        cbn [bind] in Hrun; [|discriminate].
      unfold hamiltonian_stage in E2.
      destruct (hamiltonian_fidpairs _ _ _ _ _ _ _) as [hfps|]; cbn [bind] in E2;
        [|discriminate].
      destruct (hamiltonian_gather _ _ _ _ _ _ _ hfps) as [g|]; cbn [bind] in E2;
        [|discriminate].
      apply hamiltonian_finish_separate_rates in E2. destruct E2 as [h Hh].
      cbn in Hrun. inversion Hrun; subst res; cbn [res_intrinsic_rates].
      eexists; split; [reflexivity|]. rewrite Hh, <- Hst1. cbn [intrinsic_rates set_keys set_rate].
      split.
      * rewrite (dict_get_set_other _ "hamiltonian" "stochastic") by discriminate.
        rewrite (dict_get_set_other _ "affine" "stochastic") by discriminate.
        apply dict_get_set_same.
      * rewrite (dict_get_set_other _ "hamiltonian" "affine") by discriminate.
        apply dict_get_set_same.
    - cbn in Hrun. inversion Hrun; subst res; cbn [res_intrinsic_rates].
      eexists; split; [reflexivity|]. rewrite <- Hst1. cbn [intrinsic_rates set_keys set_rate].
      split.
      * rewrite (dict_get_set_other _ "affine" "stochastic") by discriminate.
        apply dict_get_set_same.
      * apply dict_get_set_same. }
  destruct Hrates as [d [<- [Hs Ha]]].
  exists fps, my_J, my_infos, x.
  split; [exact Eg|]. split; [|split; [exact Hx|split; [exact Hs|split; [exact Ha|split]]]].
  - apply stochastic_gather_rows in Eg. apply mapM_Forall2 in Eg.
    eapply Forall2_impl; [|exact Eg].
    intros [fp out] row Hrow. cbn [fst snd] in Hrow.
    apply stochastic_Jrow_affine in Hrow. exact Hrow.
  - apply firstn_skipn.
  - intros Hlen. rewrite Hlen, half_of_double.
    rewrite length_firstn, length_skipn, Hlen. lia.
Qed.


(** ** Least squares on lists *)

Open Scope list_scope.

Definition vzeros (n : nat) : vector := repeat 0%R n.
Definition vadd (u v : vector) : vector := map (fun '(a, b) => (a + b)%R) (combine u v).
Definition vsub (u v : vector) : vector := map (fun '(a, b) => (a - b)%R) (combine u v).
Definition vscale (c : R) (v : vector) : vector := map (Rmult c) v.

(** The product of a matrix and a vector, and of the transposed matrix
    (with [n] columns) and a vector. *)
Definition mv (M : matrix) (v : vector) : vector := map (fun row => dot row v) M.

Fixpoint mvT (M : matrix) (r : vector) (n : nat) : vector :=
  match M, r with
  | row :: M', c :: r' => vadd (vscale c row) (mvT M' r' n)
  | _, _ => vzeros n
  end.

(** [y] solves the normal equations of the least-squares problem
    [J y ~ b]: the residual is orthogonal to the columns of [J]. *)
Definition normal_eq (J : matrix) (b y : vector) (n : nat) : Prop :=
  mvT J (vsub (mv J y) b) n = vzeros n.

(** [P] applied to [b] is the least-squares solution of [J y ~ b], and the
    only one: what the pseudo-inverse of a matrix of full column rank
    gives. *)
Definition lstsq_at (J P : matrix) (b : vector) (n : nat) : Prop :=
  List.length b = List.length J /\ List.length (mv P b) = n /\
  forall y, List.length y = n -> (normal_eq J b y n <-> y = mv P b).

Definition width (n : nat) (M : matrix) : Prop := Forall (fun row => List.length row = n) M.

Lemma np_dot_value (M : matrix) (v x : vector) : np_dot M v = Ok x -> x = mv M v.
Proof.
  unfold np_dot. destruct (forallb _ M); [|discriminate]. now intros H; inversion H.
Qed.

Lemma vzeros_length n : List.length (vzeros n) = n.
Proof. apply repeat_length. Qed.

Lemma vzeros_app n k : vzeros (n + k) = (vzeros n ++ vzeros k)%list.
Proof. apply repeat_app. Qed.

Lemma vadd_length u v :
  List.length u = List.length v -> List.length (vadd u v) = List.length u.
Proof. intros H. unfold vadd. rewrite length_map, length_combine. lia. Qed.

Lemma vsub_length u v :
  List.length u = List.length v -> List.length (vsub u v) = List.length u.
Proof. intros H. unfold vsub. rewrite length_map, length_combine. lia. Qed.

Lemma vscale_length c v : List.length (vscale c v) = List.length v.
Proof. apply length_map. Qed.

Lemma mv_length M v : List.length (mv M v) = List.length M.
Proof. apply length_map. Qed.

Lemma combine_append {A B : Type} (u1 u2 : list A) (v1 v2 : list B) :
  List.length u1 = List.length v1 ->
  combine (u1 ++ u2) (v1 ++ v2) = combine u1 v1 ++ combine u2 v2.
Proof.
  revert v1. induction u1 as [|a u1 IH]; intros [|b v1] H; simpl in *; try discriminate;
    [reflexivity|].
  f_equal. apply IH. lia.
Qed.

Lemma vadd_app u1 u2 v1 v2 :
  List.length u1 = List.length v1 ->
  vadd (u1 ++ u2) (v1 ++ v2) = (vadd u1 v1 ++ vadd u2 v2)%list.
Proof.
  intros H. unfold vadd. rewrite combine_append by exact H. apply map_app.
Qed.

Lemma vsub_app u1 u2 v1 v2 :
  List.length u1 = List.length v1 ->
  vsub (u1 ++ u2) (v1 ++ v2) = (vsub u1 v1 ++ vsub u2 v2)%list.
Proof.
  intros H. unfold vsub. rewrite combine_append by exact H. apply map_app.
Qed.

Lemma vadd_zeros_l n v : List.length v = n -> vadd (vzeros n) v = v.
Proof.
  revert v. induction n as [|n IH]; intros [|a v] H; simpl in *; try discriminate;
    [reflexivity|].
  unfold vadd in *. simpl. f_equal; [lra|]. apply IH. lia.
Qed.

Lemma vadd_zeros_r n v : List.length v = n -> vadd v (vzeros n) = v.
Proof.
  revert v. induction n as [|n IH]; intros [|a v] H; simpl in *; try discriminate;
    [reflexivity|].
  unfold vadd in *. simpl. f_equal; [lra|]. apply IH. lia.
Qed.

Lemma vsub_zeros_r n v : List.length v = n -> vsub v (vzeros n) = v.
Proof.
  revert v. induction n as [|n IH]; intros [|a v] H; simpl in *; try discriminate;
    [reflexivity|].
  unfold vsub in *. simpl. f_equal; [lra|]. apply IH. lia.
Qed.

Lemma vadd_assoc u v w : vadd u (vadd v w) = vadd (vadd u v) w.
Proof.
  revert v w. induction u as [|a u IH]; intros [|b v] [|c w]; try reflexivity.
  unfold vadd in *. simpl. f_equal; [lra|]. apply IH.
Qed.

Lemma vsub_vadd a c o : vsub (vadd a c) o = vsub a (vsub o c).
Proof.
  revert c o. induction a as [|x a IH]; intros [|y c] [|z o];
    unfold vsub, vadd in *; simpl; try reflexivity.
  f_equal; [lra|]. apply IH.
Qed.

Lemma vscale_app c u v : vscale c (u ++ v) = (vscale c u ++ vscale c v)%list.
Proof. apply map_app. Qed.

Lemma vscale_zeros c n : vscale c (vzeros n) = vzeros n.
Proof.
  induction n as [|n IH]; simpl; [reflexivity|].
  unfold vscale, vzeros in *. simpl. f_equal; [lra|exact IH].
Qed.

Lemma dot_app u1 u2 v1 v2 :
  List.length u1 = List.length v1 ->
  dot (u1 ++ u2) (v1 ++ v2) = (dot u1 v1 + dot u2 v2)%R.
Proof.
  revert v1. induction u1 as [|a u1 IH]; intros [|b v1] H; simpl in *; try discriminate.
  - unfold dot. simpl. lra.
  - unfold dot in *. simpl. rewrite IH by lia. lra.
Qed.

Lemma dot_zeros_l n v : dot (vzeros n) v = 0%R.
Proof.
  revert v. induction n as [|n IH]; intros [|b v]; try reflexivity.
  unfold dot in *. simpl. rewrite IH. lra.
Qed.

Lemma mvT_length n M r : width n M -> List.length (mvT M r n) = n.
Proof.
  intros H. revert r. induction H as [|row M Hrow _ IH]; intros r; simpl.
  - apply vzeros_length.
  - destruct r as [|c r]; [apply vzeros_length|].
    rewrite vadd_length; rewrite vscale_length; [exact Hrow|].
    now rewrite IH.
Qed.

Lemma mvT_zeros n M k : width n M -> mvT M (vzeros k) n = vzeros n.
Proof.
  intros H. revert k. induction H as [|row M Hrow _ IH]; intros k; simpl; [reflexivity|].
  destruct k as [|k]; simpl; [reflexivity|].
  rewrite IH. rewrite vadd_zeros_r by (now rewrite vscale_length).
  clear -Hrow. revert n Hrow. induction row as [|a row IH]; intros n Hrow; simpl in *.
  - now subst.
  - destruct n as [|n]; [discriminate|]. unfold vscale, vzeros in *. simpl.
    f_equal; [lra|]. apply IH. lia.
Qed.

Lemma mvT_app n M1 M2 r1 r2 :
  width n M1 -> width n M2 -> List.length r1 = List.length M1 ->
  mvT (M1 ++ M2) (r1 ++ r2) n = vadd (mvT M1 r1 n) (mvT M2 r2 n).
Proof.
  intros H1 H2. revert r1. induction H1 as [|row M1 Hrow _ IH]; intros r1 Hlen.
  - destruct r1; [|discriminate]. simpl.
    now rewrite vadd_zeros_l by (now apply mvT_length).
  - destruct r1 as [|c r1]; [discriminate|]. simpl in *.
    rewrite IH by lia. apply vadd_assoc.
Qed.

Lemma mvT_pad_left k n M r :
  mvT (map (app (vzeros k)) M) r (k + n) = (vzeros k ++ mvT M r n)%list.
Proof.
  revert r. induction M as [|row M IH]; intros r; simpl.
  - apply vzeros_app.
  - destruct r as [|c r]; [apply vzeros_app|].
    rewrite IH, vscale_app, vscale_zeros.
    rewrite vadd_app by (now rewrite !vzeros_length).
    now rewrite vadd_zeros_l by apply vzeros_length.
Qed.

Lemma mvT_beside n w Jh T r :
  width n Jh -> List.length T = List.length Jh ->
  mvT (map (fun p => (fst p ++ snd p)%list) (combine Jh T)) r (n + w)
  = (mvT Jh r n ++ mvT T r w)%list.
Proof.
  intros H. revert T r. induction H as [|rh Jh Hrh HJh IH]; intros T r HT.
  - destruct T; [|discriminate]. simpl. apply vzeros_app.
  - destruct T as [|t T]; [discriminate|]. simpl in *.
    destruct r as [|c r]; [apply vzeros_app|].
    rewrite IH by lia. rewrite vscale_app.
    apply vadd_app. rewrite vscale_length, Hrh. symmetry. now apply mvT_length.
Qed.

Lemma mv_pad_left k M h y :
  List.length h = k -> mv (map (app (vzeros k)) M) (h ++ y) = mv M y.
Proof.
  intros Hh. unfold mv. rewrite map_map. apply map_ext. intros row.
  rewrite dot_app by (now rewrite vzeros_length). rewrite dot_zeros_l. lra.
Qed.

Lemma mv_beside n Jh T h y :
  width n Jh -> List.length T = List.length Jh -> List.length h = n ->
  mv (map (fun p => (fst p ++ snd p)%list) (combine Jh T)) (h ++ y)
  = vadd (mv Jh h) (mv T y).
Proof.
  intros H. revert T. induction H as [|rh Jh Hrh _ IH]; intros T HT Hh.
  - destruct T; [reflexivity|discriminate].
  - destruct T as [|t T]; [discriminate|]. simpl in *.
    unfold vadd, mv in *. simpl. rewrite dot_app by lia.
    f_equal. apply IH; [lia|exact Hh].
Qed.

Lemma mv_app M1 M2 v : mv (M1 ++ M2) v = (mv M1 v ++ mv M2 v)%list.
Proof. apply map_app. Qed.

(** The normal equations of the joint problem with design matrix
    [[0 | Jsa]; [Jh | T]] hold for the estimates of the two separate
    problems when the residual of the second is orthogonal to the columns
    of [T]. *)
Lemma block_normal_eq n w Jsa Jh T obs_sa obs_h sa h :
  width w Jsa -> width n Jh -> width w T -> List.length T = List.length Jh ->
  List.length obs_sa = List.length Jsa -> List.length obs_h = List.length Jh ->
  List.length h = n ->
  normal_eq Jsa obs_sa sa w ->
  normal_eq Jh (vsub obs_h (mv T sa)) h n ->
  mvT T (vsub (mv Jh h) (vsub obs_h (mv T sa))) w = vzeros w ->
  normal_eq (map (app (vzeros n)) Jsa
             ++ map (fun p => (fst p ++ snd p)%list) (combine Jh T))%list
            (obs_sa ++ obs_h)%list (h ++ sa)%list (n + w).
Proof.
  intros Wsa Wh WT LT Lsa Lh Lhn Nsa Nh Horth. unfold normal_eq in *.
  rewrite mv_app, mv_pad_left by exact Lhn.
  rewrite (mv_beside n) by assumption.
  rewrite vsub_app by (now rewrite mv_length).
  rewrite vsub_vadd.
  rewrite (mvT_app (n + w)).
  - rewrite mvT_pad_left, Nsa.
    rewrite (mvT_beside n w) by assumption.
    rewrite Nh, Horth. rewrite <- !vzeros_app.
    apply vadd_zeros_l. apply vzeros_length.
  - apply Forall_map. eapply Forall_impl; [|exact Wsa].
    intros row Hrow. cbn beta in *. rewrite length_app, vzeros_length. lia.
  - apply Forall_map. rewrite Forall_forall. intros [rh t] Hin. cbn [fst snd].
    rewrite length_app.
    pose proof (in_combine_l _ _ _ _ Hin) as Hl.
    pose proof (in_combine_r _ _ _ _ Hin) as Hr.
    unfold width in *. rewrite Forall_forall in Wh, WT.
    now rewrite (Wh _ Hl), (WT _ Hr).
  - rewrite vsub_length; rewrite mv_length; [now rewrite length_map | lia].
Qed.


(** ** The assembly of the joint design matrix *)

Lemma firstn_vzeros j z : (j <= z)%nat -> firstn j (vzeros z) = vzeros j.
Proof.
  intros H. unfold vzeros. replace z with (j + (z - j))%nat by lia.
  rewrite repeat_app, firstn_app, repeat_length, Nat.sub_diag. simpl.
  rewrite app_nil_r. rewrite firstn_all2; [reflexivity | rewrite repeat_length; lia].
Qed.

Lemma skipn_vzeros j z : skipn j (vzeros z) = vzeros (z - j).
Proof.
  unfold vzeros. destruct (Nat.le_gt_cases j z) as [H|H].
  - replace z with (j + (z - j))%nat at 1 by lia.
    rewrite repeat_app, skipn_app, repeat_length, Nat.sub_diag. simpl.
    rewrite skipn_all2; [reflexivity | rewrite repeat_length; lia].
  - replace (z - j)%nat with O by lia.
    rewrite skipn_all2; [reflexivity | rewrite repeat_length; lia].
Qed.

(** Writing [src] into a row of zeros that follows [pre]. *)
Lemma set_cols_in_zeros (pre src : list R) (j z c0 c1 : nat) :
  c0 = (List.length pre + j)%nat -> c1 = (c0 + List.length src)%nat ->
  (j + List.length src <= z)%nat ->
  set_cols c0 c1 (pre ++ vzeros z) src
  = Ok (pre ++ vzeros j ++ src ++ vzeros (z - j - List.length src)).
Proof.
  intros -> -> Hz. unfold set_cols.
  rewrite length_app, vzeros_length.
  replace (Nat.min (List.length pre + j) (List.length pre + z))
    with (List.length pre + j)%nat by lia.
  replace (Nat.max (List.length pre + j)
             (Nat.min (List.length pre + j + List.length src) (List.length pre + z)))
    with (List.length pre + j + List.length src)%nat by lia.
  replace (List.length pre + j + List.length src - (List.length pre + j))%nat
    with (List.length src) by lia.
  rewrite Nat.eqb_refl. f_equal.
  rewrite firstn_app, firstn_all2 by lia.
  replace (List.length pre + j - List.length pre)%nat with j by lia.
  rewrite firstn_vzeros by lia.
  rewrite skipn_app, skipn_all2 by lia.
  replace (List.length pre + j + List.length src - List.length pre)%nat
    with (j + List.length src)%nat by lia.
  rewrite skipn_vzeros. simpl.
  replace (z - (j + List.length src))%nat with (z - j - List.length src)%nat by lia.
  now rewrite <- app_assoc.
Qed.

(** A block assignment whose target rows and source rows are both read
    off one list. *)
Lemma assign_block_map {X : Type} (c0 c1 : nat) (l : list X) (ft fb fo : X -> list R) :
  l <> [] ->
  (forall x, In x l -> set_cols c0 c1 (ft x) (fb x) = Ok (fo x)) ->
  assign_block c0 c1 (map ft l) (map fb l) = Ok (map fo l).
Proof.
  intros Hne H. unfold assign_block.
  destruct (map fb l) as [|b0 B] eqn:EB.
  { destruct l; [contradiction|discriminate]. }
  rewrite <- EB. rewrite !length_map, Nat.eqb_refl.
  clear EB Hne. induction l as [|x l IH]; simpl; [reflexivity|].
  rewrite (H x) by (simpl; auto). simpl.
  rewrite IH by (intros y Hy; apply H; simpl; auto). reflexivity.
Qed.

Lemma map_const_repeat {X Y : Type} (c : Y) (l : list X) :
  map (fun _ => c) l = repeat c (List.length l).
Proof. induction l; simpl; congruence. Qed.

Lemma firstn_zeros_rows r1 m cols : firstn r1 (zeros (r1 + m) cols) = zeros r1 cols.
Proof.
  unfold zeros. rewrite repeat_app, firstn_app, repeat_length, Nat.sub_diag. simpl.
  rewrite app_nil_r. apply firstn_all2. rewrite repeat_length. lia.
Qed.

Lemma skipn_zeros_rows r1 m cols : skipn r1 (zeros (r1 + m) cols) = zeros m cols.
Proof.
  unfold zeros. rewrite repeat_app, skipn_app, repeat_length, Nat.sub_diag. simpl.
  rewrite skipn_all2; [reflexivity | rewrite repeat_length; lia].
Qed.

(** The stochastic/affine rows of the joint matrix: [w] columns written
    after [off] columns of zeros. *)
Lemma assign_top (off w : nat) (Jsa : matrix) :
  Jsa <> [] -> width w Jsa ->
  assign_block off (w + off) (zeros (List.length Jsa) (w + off)) Jsa
  = Ok (map (app (vzeros off)) Jsa).
Proof.
  intros Hne HW. unfold zeros.
  rewrite <- (map_const_repeat (repeat 0%R (w + off)) Jsa).
  rewrite <- (map_id Jsa) at 2.
  apply assign_block_map; [exact Hne|].
  intros src Hin. unfold width in HW. rewrite Forall_forall in HW.
  specialize (HW src Hin).
  change (repeat 0%R (w + off)) with ([] ++ vzeros (w + off)).
  rewrite (set_cols_in_zeros [] src off (w + off)); simpl; try lia.
  replace (w + off - off - List.length src)%nat with O by lia.
  simpl. now rewrite app_nil_r.
Qed.


Lemma column_slice_map {X : Type} (c0 : nat) (c1 : option nat) (g : X -> list R) (l : list X) :
  l <> [] ->
  column_slice c0 c1 (map g l)
  = Ok (map (fun x => match c1 with
                      | Some c1 => firstn (c1 - c0) (skipn c0 (g x))
                      | None => skipn c0 (g x)
                      end) l).
Proof.
  intros Hne. destruct l as [|x l]; [contradiction|].
  unfold column_slice. cbn [map]. now rewrite map_map.
Qed.

(** The Hamiltonian rows of the joint matrix when no affine columns
    follow: [n] columns, then [k] columns of zeros. *)
Lemma assign_bottom_plain (n k : nat) (Jh : matrix) :
  Jh <> [] -> width n Jh ->
  (do lblock <- column_slice 0 (Some n) Jh ;;
   assign_block 0 n (zeros (List.length Jh) (k + n)) lblock)
  = Ok (map (fun rh => rh ++ vzeros k) Jh).
Proof.
  intros Hne HW.
  rewrite <- (map_id Jh) at 1. rewrite column_slice_map by exact Hne. cbn [bind].
  unfold zeros. rewrite <- (map_const_repeat (repeat 0%R (k + n)) Jh).
  apply assign_block_map; [exact Hne|].
  intros rh Hin. unfold width in HW. rewrite Forall_forall in HW. specialize (HW rh Hin).
  cbn [skipn]. rewrite Nat.sub_0_r, firstn_all2 by lia.
  change (repeat 0%R (k + n)) with ([] ++ vzeros (k + n)).
  rewrite (set_cols_in_zeros [] rh 0 (k + n)); simpl; try lia.
  now replace (k + n - 0 - List.length rh)%nat with k by lia.
Qed.

(** The Hamiltonian rows of the joint matrix followed by their affine
    columns: [n] columns, [n] columns of zeros, then the [n] affine
    columns. *)
Lemma assign_bottom_affine (n : nat) (Jh Jaff : matrix) :
  Jh <> [] -> width n Jh -> width n Jaff -> List.length Jaff = List.length Jh ->
  let Jhc := map (fun p => fst p ++ snd p) (combine Jh Jaff) in
  (do lblock <- column_slice 0 (Some n) Jhc ;;
   do bottom <- assign_block 0 n (zeros (List.length Jhc) (n + n + n)) lblock ;;
   do rblock <- column_slice n None Jhc ;;
   assign_block (n + n) (n + 2 * n) bottom rblock)
  = Ok (map (fun p => fst p ++ (vzeros n ++ snd p)) (combine Jh Jaff)).
Proof.
  intros Hne HWh HWa Hlen Jhc.
  assert (Hl : combine Jh Jaff <> []).
  { destruct Jh; [contradiction|]. destruct Jaff; [discriminate|]. discriminate. }
  assert (Hrows : forall p, In p (combine Jh Jaff) ->
                    List.length (fst p) = n /\ List.length (snd p) = n).
  { intros [rh ra] Hin. unfold width in *. rewrite Forall_forall in HWh, HWa. split.
    - apply HWh. eapply in_combine_l; exact Hin.
    - apply HWa. eapply in_combine_r; exact Hin. }
  unfold Jhc. rewrite !column_slice_map by exact Hl. cbn [bind].
  rewrite length_map. unfold zeros.
  rewrite <- (map_const_repeat (repeat 0%R (n + n + n)) (combine Jh Jaff)).
  rewrite (assign_block_map 0 n (combine Jh Jaff) _ _ (fun p => fst p ++ vzeros (n + n))).
  2: exact Hl.
  2:{ intros p Hp. destruct (Hrows p Hp) as [H1 H2].
      cbn [skipn]. rewrite Nat.sub_0_r, firstn_app, firstn_all2 by lia.
      rewrite H1, Nat.sub_diag. cbn [firstn]. rewrite app_nil_r.
      change (repeat 0%R (n + n + n)) with ([] ++ vzeros (n + n + n)).
      rewrite (set_cols_in_zeros [] (fst p) 0 (n + n + n)); simpl; try lia.
      now replace (n + n + n - 0 - List.length (fst p))%nat with (n + n)%nat by lia. }
  cbn [bind].
  apply assign_block_map; [exact Hl|].
  intros p Hp. destruct (Hrows p Hp) as [H1 H2].
  rewrite skipn_app, skipn_all2 by lia. rewrite H1, Nat.sub_diag. cbn [skipn app].
  rewrite (set_cols_in_zeros (fst p) (snd p) n (n + n)); try lia.
  replace (n + n - n - List.length (snd p))%nat with O by lia.
  simpl. now rewrite app_nil_r.
Qed.


(** ** Shapes of the gathered design matrices *)

Lemma foldM_invariant {S A : Type} (f : S -> A -> result S) (P : S -> Prop) (l : list A) :
  (forall s a s', P s -> f s a = Ok s' -> P s') ->
  forall s0 s, P s0 -> foldM f l s0 = Ok s -> P s.
Proof.
  intros Hstep. induction l as [|a l IH]; simpl; intros s0 s H0 H.
  - now inversion H; subst.
  - destruct (f s0 a) as [s1|] eqn:E; simpl in H; [|discriminate].
    eapply IH; [|exact H]. eapply Hstep; eauto.
Qed.

Lemma to_matrix_width (n : nat) (rows : list (list Z)) :
  Forall (fun row => List.length row = n) rows -> width n (to_matrix rows).
Proof.
  intros H. unfold width, to_matrix. apply Forall_map.
  eapply Forall_impl; [|exact H]. intros row Hrow. cbn beta in *. now rewrite length_map.
Qed.

Lemma to_matrix_length (rows : list (list Z)) :
  List.length (to_matrix rows) = List.length rows.
Proof. apply length_map. Qed.

(** The width of the stochastic-stage rows: one column per error, and one
    more per error with affine extraction. *)
Definition sto_width (extract_affine : bool) (n : nat) : nat :=
  if extract_affine then (n + n)%nat else n.

Lemma stochastic_Jrow_length ea errors fp out row :
  stochastic_Jrow ea errors fp out = Ok row ->
  List.length row = sto_width ea (List.length errors).
Proof.
  destruct ea.
  - intros H. apply stochastic_Jrow_affine in H.
    destruct H as [sto [aff [_ [_ [Hrow [H1 H2]]]]]].
    subst row. unfold sto_width. rewrite length_app. lia.
  - unfold stochastic_Jrow. simpl.
    destruct (mapM _ errors) as [sto|] eqn:E; simpl; [|discriminate].
    intros H; inversion H; subst. now apply mapM_length in E.
Qed.

Lemma stochastic_gather_width ea errors dicts GiStr maxLengths fitOrder mw fps my_J my_infos :
  stochastic_gather ea errors dicts GiStr maxLengths fitOrder mw fps = Ok (my_J, my_infos) ->
  width (sto_width ea (List.length errors)) (to_matrix my_J).
Proof.
  intros H. apply stochastic_gather_rows in H. apply to_matrix_width.
  eapply mapM_Forall; [|exact H].
  intros [fp out] row _ Hrow. cbn [fst snd] in Hrow.
  now apply stochastic_Jrow_length in Hrow.
Qed.

(** The shape of the rows the Hamiltonian stage gathers. *)
Definition ham_shape (ea : bool) (n : nat) (g : list (list Z) * list (list Z)) : Prop :=
  Forall (fun row => List.length row = n) (fst g) /\
  if ea
  then Forall (fun row => List.length row = n) (snd g) /\
       List.length (snd g) = List.length (fst g)
  else snd g = [].

Lemma hamiltonian_observable_step_shape ea errors dicts GiStr maxLengths fitOrder fp
  J Jaff I obs J' Jaff' I' :
  ham_shape ea (List.length errors) (J, Jaff) ->
  hamiltonian_observable_step ea errors dicts GiStr maxLengths fitOrder fp (J, Jaff, I) obs
    = Ok (J', Jaff', I') ->
  ham_shape ea (List.length errors) (J', Jaff').
Proof.
  intros [HJ Ha] H. unfold hamiltonian_observable_step in H.
  destruct ea; cbn [fst snd] in *.
  - destruct (mapM _ errors) as [r|] eqn:Er; cbn [bind] in H; [|discriminate].
    destruct (get_obs_hamiltonian_err_rate _ _ _ _ _ _) as [info|]; cbn [bind] in H;
      [|discriminate].
    inversion H; subst. destruct Ha as [Ha Hl]. split; [|split].
    + apply Forall_app. split; [exact HJ|]. constructor; [|constructor].
      apply length_map.
    + apply Forall_app. split; [exact Ha|]. constructor; [|constructor].
      now apply mapM_length in Er.
    + cbn [fst snd]. rewrite !length_app. simpl. lia.
  - cbn [bind] in H.
    destruct (get_obs_hamiltonian_err_rate _ _ _ _ _ _) as [info|]; cbn [bind] in H;
      [|discriminate].
    inversion H; subst. split; [|reflexivity].
    apply Forall_app. split; [exact HJ|]. constructor; [|constructor].
    apply length_map.
Qed.

Lemma hamiltonian_gather_shape ea errors dicts GiStr maxLengths fitOrder mw fps
  my_J my_Jaff my_infos :
  hamiltonian_gather ea errors dicts GiStr maxLengths fitOrder mw fps
    = Ok (my_J, my_Jaff, my_infos) ->
  ham_shape ea (List.length errors) (my_J, my_Jaff).
Proof.
  intros H. unfold hamiltonian_gather in H.
  apply (foldM_invariant _ (fun s => ham_shape ea (List.length errors) (fst s)) fps)
    with (s := (my_J, my_Jaff, my_infos)) in H.
  - exact H.
  - intros [[J Jaff] O] fp [[J' Jaff'] O'] Hs Hstep. cbn [fst] in *.
    unfold hamiltonian_fidpair_step in Hstep.
    destruct (foldM (hamiltonian_observable_step ea errors dicts GiStr maxLengths fitOrder fp)
                (allobservables (snd fp) mw) (J, Jaff, [])) as [[[J1 Ja1] I1]|] eqn:E;
      cbn [bind] in Hstep; [|discriminate].
    inversion Hstep; subst.
    apply (foldM_invariant _ (fun s => ham_shape ea (List.length errors) (fst s))
             (allobservables (snd fp) mw)) with (s := (J', Jaff', I1)) in E.
    + exact E.
    + intros [[Ja Jb] Ic] obs [[Ja' Jb'] Ic'] Hs' Hstep'. cbn [fst] in *.
      eapply hamiltonian_observable_step_shape; eauto.
    + exact Hs.
  - cbn. split; [constructor|]. destruct ea; [split; [constructor|reflexivity]|reflexivity].
Qed.


(** ** The stages of a run *)

Lemma run_stages nQubits maxLengths prepDict measDict maxErrWeight GiStr
  (eh es ea : bool) (o : AdvancedOptions) (res : IdleTomographyResults) :
  do_idle_tomography nQubits maxLengths (prepDict, measDict) maxErrWeight GiStr eh es ea o
    = Ok res ->
  exists pps pms st1 st2 st3,
    preferred_signs (opt_preferred_prep_basis_signs o) prepDict = Ok pps /\
    preferred_signs (opt_preferred_meas_basis_signs o) measDict = Ok pms /\
    (if es
     then stochastic_stage nQubits maxLengths (prepDict, measDict) maxErrWeight GiStr es ea o
            (jacobian_mode o) pps pms (option_map (filter same_basis) (opt_pauli_fidpairs o))
            (allerrors nQubits maxErrWeight) (fit_order o) initial_state = Ok st1
     else ea = false /\ st1 = initial_state) /\
    (if eh
     then hamiltonian_stage nQubits maxLengths (prepDict, measDict) maxErrWeight GiStr eh ea o
            (jacobian_mode o) pps pms
            (option_map (filter (fun fp => negb (same_basis fp))) (opt_pauli_fidpairs o))
            (allerrors nQubits maxErrWeight) (fit_order o) st1 = Ok st2
     else st2 = st1) /\
    (if String.eqb (jacobian_mode o) "together"
     then joint_inversion eh es ea (List.length (allerrors nQubits maxErrWeight)) st2 = Ok st3
     else st3 = st2) /\
    res_intrinsic_rates res = intrinsic_rates st3.
Proof.
  intros H. unfold do_idle_tomography in H.
  destruct (preferred_signs _ prepDict) as [pps|]; cbn [bind] in H; [|discriminate].
  destruct (preferred_signs _ measDict) as [pms|]; cbn [bind] in H; [|discriminate].
  match type of H with
  | bind ?s1 _ = _ => destruct s1 as [st1|] eqn:E1; cbn [bind] in H; [|discriminate]
  end.
  match type of H with
  | bind ?s2 _ = _ => destruct s2 as [st2|] eqn:E2; cbn [bind] in H; [|discriminate]
  end.
  match type of H with
  | bind ?s3 _ = _ => destruct s3 as [st3|] eqn:E3; cbn [bind] in H; [|discriminate]
  end.
  inversion H; subst res; cbn [res_intrinsic_rates].
  exists pps, pms, st1, st2, st3. repeat split.
  - destruct es; [exact E1|]. destruct ea; [discriminate|]. now inversion E1.
  - destruct eh; [exact E2|]. now inversion E2.
  - destruct (String.eqb (jacobian_mode o) "together"); [exact E3|]. now inversion E3.
Qed.

Lemma stochastic_stage_ok nQubits maxLengths dicts mw GiStr es ea o mode pps pms sb errors
  fitOrder st st1 :
  stochastic_stage nQubits maxLengths dicts mw GiStr es ea o mode pps pms sb errors fitOrder st
    = Ok st1 ->
  exists fps g,
    stochastic_fidpairs nQubits mw es ea o pps pms sb = Ok fps /\
    stochastic_gather ea errors dicts GiStr maxLengths fitOrder mw fps = Ok g /\
    stochastic_finish ea mode fps g st = Ok st1.
Proof.
  unfold stochastic_stage.
  destruct (stochastic_fidpairs _ _ _ _ _ _ _ _) as [fps|]; cbn [bind]; [|discriminate].
  destruct (stochastic_gather _ _ _ _ _ _ _ fps) as [g|] eqn:Eg; cbn [bind]; [|discriminate].
  intros H. exists fps, g. split; [reflexivity|split; [exact Eg|exact H]].
Qed.

Lemma hamiltonian_stage_ok nQubits maxLengths dicts mw GiStr eh ea o mode pps pms db errors
  fitOrder st st2 :
  hamiltonian_stage nQubits maxLengths dicts mw GiStr eh ea o mode pps pms db errors fitOrder st
    = Ok st2 ->
  exists fps g,
    hamiltonian_fidpairs nQubits mw eh o pps pms db = Ok fps /\
    hamiltonian_gather ea errors dicts GiStr maxLengths fitOrder mw fps = Ok g /\
    hamiltonian_finish ea mode fps g st = Ok st2.
Proof.
  unfold hamiltonian_stage.
  destruct (hamiltonian_fidpairs _ _ _ _ _ _ _) as [fps|]; cbn [bind]; [|discriminate].
  destruct (hamiltonian_gather _ _ _ _ _ _ _ fps) as [g|] eqn:Eg; cbn [bind]; [|discriminate].
  intros H. exists fps, g. split; [reflexivity|split; [exact Eg|exact H]].
Qed.

Definition sto_key (ea : bool) : string := if ea then "stochastic/affine" else "stochastic".

Lemma stochastic_finish_together ea fps g st :
  stochastic_finish ea "together" fps g st
  = Ok (set_keys (set_sto_aff st (to_matrix (fst g)) (observed_rates (snd g)))
          (sto_key ea) fps (snd g)).
Proof. destruct ea; reflexivity. Qed.

Lemma shape1_ok (J : matrix) (n : Z) : shape1 J = Ok n -> J <> [].
Proof. destruct J; [discriminate|discriminate]. Qed.

Lemma stochastic_finish_separate ea fps g st st' :
  stochastic_finish ea "separate" fps g st = Ok st' ->
  to_matrix (fst g) <> [] /\
  exists x,
    np_dot (np_pinv (to_matrix (fst g))) (observed_rates (snd g)) = Ok x /\
    intrinsic_rates st'
    = if ea
      then dict_set (dict_set (intrinsic_rates st) "stochastic"
                       (firstn (List.length x / 2) x))
             "affine" (skipn (List.length x / 2) x)
      else dict_set (intrinsic_rates st) "stochastic" x.
Proof.
  unfold stochastic_finish. cbn [String.eqb Ascii.eqb Bool.eqb].
  destruct (invert_site _ _ _ _) as [x|] eqn:Ex; cbn [bind]; [|discriminate].
  apply invert_site_ok in Ex. destruct Ex as [n [o [Hn [_ [Ho Hx]]]]].
  injection Ho as <-. intros H. split; [now apply shape1_ok in Hn|].
  exists x. split; [exact Hx|].
  destruct ea; cbn [bind] in H; inversion H; reflexivity.
Qed.

Lemma hamiltonian_finish_separate ea fps my_J my_Jaff my_infos st st' :
  hamiltonian_finish ea "separate" fps (my_J, my_Jaff, my_infos) st = Ok st' ->
  to_matrix my_J <> [] /\
  exists obs' h,
    (if ea then affine_correction (to_matrix my_Jaff) st (observed_rates my_infos)
     else Ok (observed_rates my_infos)) = Ok obs' /\
    np_dot (np_pinv (to_matrix my_J)) obs' = Ok h /\
    intrinsic_rates st' = dict_set (intrinsic_rates st) "hamiltonian" h.
Proof.
  unfold hamiltonian_finish. cbn [String.eqb Ascii.eqb Bool.eqb].
  destruct (if ea then _ else _) as [obs'|] eqn:Eo; cbn [bind]; [|discriminate].
  destruct (invert_site _ _ _ _) as [h|] eqn:Eh; cbn [bind]; [|discriminate].
  apply invert_site_ok in Eh. destruct Eh as [n [o [Hn [_ [Ho Hh]]]]].
  injection Ho as <-. intros H. split; [now apply shape1_ok in Hn|].
  exists obs', h. repeat split; [exact Hh|]. now inversion H.
Qed.

Lemma hamiltonian_finish_together ea fps my_J my_Jaff my_infos st st' :
  hamiltonian_finish ea "together" fps (my_J, my_Jaff, my_infos) st = Ok st' ->
  exists hj,
    (if ea then concat_columns (to_matrix my_J) (to_matrix my_Jaff)
     else Ok (to_matrix my_J)) = Ok hj /\
    st' = set_keys (set_ham_aff st hj (observed_rates my_infos)) "hamiltonian" fps my_infos.
Proof.
  unfold hamiltonian_finish. cbn [String.eqb Ascii.eqb Bool.eqb].
  destruct (if ea then _ else _) as [hj|] eqn:Eo; cbn [bind]; [|discriminate].
  intros H. exists hj. split; [reflexivity|]. now inversion H.
Qed.

Lemma concat_columns_ok (J Jaff hj : matrix) :
  concat_columns J Jaff = Ok hj -> hj = map (fun p => fst p ++ snd p) (combine J Jaff).
Proof.
  unfold concat_columns. destruct J as [|r J]; [discriminate|].
  destruct Jaff as [|ra Jaff]; [discriminate|].
  destruct (Nat.eqb _ _); [|discriminate].
  intros H. injection H as <-.
  change ((r ++ ra) :: map (fun '(a, b) => a ++ b) (combine J Jaff))
    with (map (fun '(a, b) => a ++ b) (combine (r :: J) (ra :: Jaff))).
  apply map_ext. now intros [a b].
Qed.

Lemma affine_correction_value (Jaff : matrix) (st : RunState) (obs obs' a : vector) :
  dict_get (intrinsic_rates st) "affine" = Some a ->
  List.length obs = List.length Jaff ->
  affine_correction Jaff st obs = Ok obs' ->
  obs' = vsub obs (mv Jaff a).
Proof.
  intros Ha Hlen. unfold affine_correction. rewrite Ha. cbn [bind].
  assert (Hdot : forall corr, np_dot Jaff a = Ok corr -> vec_isub obs corr = Ok obs' ->
                              obs' = vsub obs (mv Jaff a)).
  { intros corr Hc Hs. apply np_dot_value in Hc. subst corr.
    unfold vec_isub in Hs. rewrite mv_length, Hlen, Nat.eqb_refl in Hs.
    now inversion Hs. }
  destruct Jaff as [|ra Jaff].
  - destruct a as [|a0 a]; [|discriminate].
    destruct (np_dot [] []) as [corr|] eqn:Ec; cbn [bind]; [|discriminate]. now apply Hdot.
  - destruct (np_dot (ra :: Jaff) a) as [corr|] eqn:Ec; cbn [bind]; [|discriminate].
    now apply Hdot.
Qed.


(** ** The joint inversion *)

(** The rates the joint inversion files, from the solution [X]. *)
Definition joint_rates (eh es ea : bool) (n : nat) (X : vector)
  (d : list (string * vector)) : list (string * vector) :=
  let d1 := if eh then dict_set d "hamiltonian" (slice 0 n X) else d in
  let off1 := if eh then n else O in
  let d2 := if es then dict_set d1 "stochastic" (slice off1 n X) else d1 in
  let off2 := if es then (off1 + n)%nat else off1 in
  if ea then dict_set d2 "affine" (slice off2 n X) else d2.

Lemma joint_inversion_ok eh es ea n st st' :
  joint_inversion eh es ea n st = Ok st' ->
  exists Jbig cols obs b,
    assemble_Jbig eh es ea n st = Ok (Jbig, cols, obs) /\
    np_concatenate obs = Ok b /\
    intrinsic_rates st' = joint_rates eh es ea n (mv (np_pinv Jbig) b) (intrinsic_rates st).
Proof.
  unfold joint_inversion.
  destruct (assemble_Jbig eh es ea n st) as [[[Jbig cols] obs]|]; cbn [bind]; [|discriminate].
  destruct (invert_site _ _ _ _) as [X|] eqn:EX; cbn [bind]; [|discriminate].
  apply invert_site_ok in EX. destruct EX as [k [b [_ [_ [Hb HX]]]]].
  apply np_dot_value in HX. subst X.
  intros H. exists Jbig, cols, obs, b. split; [reflexivity|]. split; [exact Hb|].
  destruct eh, es, ea; injection H as <-; reflexivity.
Qed.

Lemma map_app_nil_l (M : matrix) : map (app (vzeros 0)) M = M.
Proof. unfold vzeros. cbn. apply map_id. Qed.

Lemma map_app_nil_r (M : matrix) : map (fun row => row ++ vzeros 0) M = M.
Proof.
  unfold vzeros. cbn. rewrite <- (map_id M) at 2. apply map_ext. intros a. apply app_nil_r.
Qed.

Lemma zeros_no_rows cols : zeros 0 cols = [].
Proof. reflexivity. Qed.

(** [Jbig] when only the stochastic stage ran. *)
Lemma assemble_sto_only ea n st Jsa obs_sa :
  sto_aff_jac st = Some Jsa -> sto_aff_obs_err_rates st = Some obs_sa ->
  Jsa <> [] -> width (sto_width ea n) Jsa ->
  exists cols, assemble_Jbig false true ea n st = Ok (Jsa, cols, [obs_sa]).
Proof.
  intros HJ Ho Hne Hw. unfold assemble_Jbig. rewrite HJ, Ho. cbn [from_option bind].
  replace (n + (if ea then n else 0) + 0)%nat with (sto_width ea n + 0)%nat
    by (destruct ea; unfold sto_width; lia).
  rewrite firstn_zeros_rows, skipn_zeros_rows, assign_top by assumption.
  cbn [bind]. rewrite map_app_nil_l, zeros_no_rows, app_nil_r. eexists. reflexivity.
Qed.

(** [Jbig] when only the Hamiltonian stage ran. *)
Lemma assemble_ham_only n st Jh obs_h :
  ham_aff_jac st = Some Jh -> ham_aff_obs_err_rates st = Some obs_h ->
  Jh <> [] -> width n Jh ->
  exists cols, assemble_Jbig true false false n st = Ok (Jh, cols, [obs_h]).
Proof.
  intros HJ Ho Hne Hw. unfold assemble_Jbig. rewrite HJ, Ho. cbn [from_option bind].
  change (firstn 0 (zeros (0 + List.length Jh) (0 + n))) with (@nil (list R)).
  change (skipn 0 (zeros (0 + List.length Jh) (0 + n))) with (zeros (List.length Jh) (0 + n)).
  pose proof (assign_bottom_plain n 0 Jh Hne Hw) as Hb.
  destruct (column_slice 0 (Some n) Jh) as [lblock|]; cbn [bind] in *; [|discriminate].
  rewrite Hb. cbn [bind app]. rewrite map_app_nil_r. eexists. reflexivity.
Qed.

Lemma beside_zeros n (Jh : matrix) :
  map (fun rh => rh ++ vzeros n) Jh
  = map (fun p => fst p ++ snd p) (combine Jh (map (fun _ => vzeros n) Jh)).
Proof. induction Jh as [|r Jh IH]; [reflexivity|]. cbn. now rewrite IH. Qed.

Lemma beside_padded n (Jh Jaff : matrix) :
  map (fun p => fst p ++ (vzeros n ++ snd p)) (combine Jh Jaff)
  = map (fun p => fst p ++ snd p) (combine Jh (map (app (vzeros n)) Jaff)).
Proof.
  revert Jaff. induction Jh as [|r Jh IH]; intros [|ra Jaff]; try reflexivity.
  cbn. now rewrite IH.
Qed.

(** The right-hand block of the Hamiltonian rows of [Jbig]: zero columns
    for the stochastic rates, then the affine-observable columns. *)
Definition ham_right_block (n : nat) (ea : bool) (Jh Jaff : matrix) : matrix :=
  if ea then map (app (vzeros n)) Jaff else map (fun _ => vzeros n) Jh.

(** [Jbig] with Hamiltonian and stochastic (and affine) rates: the
    stochastic rows behind [n] zero columns, above the Hamiltonian rows. *)
Definition joint_matrix (n : nat) (ea : bool) (Jsa Jh Jaff : matrix) : matrix :=
  map (app (vzeros n)) Jsa
  ++ map (fun p => fst p ++ snd p) (combine Jh (ham_right_block n ea Jh Jaff)).

Lemma assemble_both ea n st Jsa obs_sa Jh Jaff obs_h :
  sto_aff_jac st = Some Jsa -> sto_aff_obs_err_rates st = Some obs_sa ->
  Jsa <> [] -> width (sto_width ea n) Jsa ->
  ham_aff_jac st
  = Some (if ea then map (fun p => fst p ++ snd p) (combine Jh Jaff) else Jh) ->
  ham_aff_obs_err_rates st = Some obs_h ->
  Jh <> [] -> width n Jh ->
  (ea = true -> width n Jaff /\ List.length Jaff = List.length Jh) ->
  exists cols,
    assemble_Jbig true true ea n st
    = Ok (joint_matrix n ea Jsa Jh Jaff, cols, [obs_sa; obs_h]).
Proof.
  intros HJ Ho Hne Hw HJh Hoh Hneh Hwh Haff. unfold assemble_Jbig, joint_matrix, ham_right_block.
  rewrite HJ, Ho, HJh, Hoh. cbn [from_option bind].
  destruct ea.
  - destruct (Haff eq_refl) as [Hwa Hla]. unfold sto_width in Hw.
    set (Jhc := map (fun p => fst p ++ snd p) (combine Jh Jaff)).
    rewrite firstn_zeros_rows, skipn_zeros_rows.
    rewrite (assign_top n (n + n) Jsa Hne Hw). cbn [bind].
    pose proof (assign_bottom_affine n Jh Jaff Hneh Hwh Hwa Hla) as Hb.
    cbn zeta in Hb. fold Jhc in Hb.
    destruct (column_slice 0 (Some n) Jhc) as [lblock|]; cbn [bind] in *; [|discriminate].
    destruct (assign_block 0 n _ lblock) as [bottom|]; cbn [bind] in *; [|discriminate].
    destruct (column_slice n None Jhc) as [rblock|]; cbn [bind] in *; [|discriminate].
    rewrite Hb. cbn [bind app]. rewrite beside_padded. eexists. reflexivity.
  - unfold sto_width in Hw.
    replace (n + 0 + n)%nat with (n + n)%nat by lia.
    rewrite firstn_zeros_rows, skipn_zeros_rows.
    rewrite (assign_top n n Jsa Hne Hw). cbn [bind].
    pose proof (assign_bottom_plain n n Jh Hneh Hwh) as Hb.
    destruct (column_slice 0 (Some n) Jh) as [lblock|]; cbn [bind] in *; [|discriminate].
    rewrite Hb. cbn [bind app]. rewrite beside_zeros. eexists. reflexivity.
Qed.


(** ** The design matrices and observed rates of a run *)

(** [advancedOptions] with its entry ["jacobian mode"] set. *)
Definition with_mode (mode : string) (o : AdvancedOptions) : AdvancedOptions :=
  mkOptions (Some mode) (opt_preferred_prep_basis_signs o) (opt_preferred_meas_basis_signs o)
            (opt_pauli_fidpairs o) (opt_fit_order o) (opt_ham_tmpl o).

(** What the stochastic stage hands to its inversion: [J] and
    [obs_err_rates]. Neither depends on the jacobian mode. *)
Definition stochastic_design (nQubits : Z) (maxLengths : list Z)
  (pauliDicts : paulidict * paulidict) (maxErrWeight : Z) (GiStr : GateString)
  (extract_stochastic extract_affine : bool) (advancedOptions : AdvancedOptions)
  : result (matrix * vector) :=
  do pps <- preferred_signs (opt_preferred_prep_basis_signs advancedOptions)
              (fst pauliDicts) ;;
  do pms <- preferred_signs (opt_preferred_meas_basis_signs advancedOptions)
              (snd pauliDicts) ;;
  do fps <- stochastic_fidpairs nQubits maxErrWeight extract_stochastic extract_affine
              advancedOptions pps pms
              (option_map (filter same_basis) (opt_pauli_fidpairs advancedOptions)) ;;
  do g <- stochastic_gather extract_affine (allerrors nQubits maxErrWeight) pauliDicts GiStr
            maxLengths (fit_order advancedOptions) maxErrWeight fps ;;
  Ok (to_matrix (fst g), observed_rates (snd g)).

(** What the Hamiltonian stage gathers: [J], [Jaff] and [obs_err_rates]. *)
Definition hamiltonian_design (nQubits : Z) (maxLengths : list Z)
  (pauliDicts : paulidict * paulidict) (maxErrWeight : Z) (GiStr : GateString)
  (extract_hamiltonian extract_affine : bool) (advancedOptions : AdvancedOptions)
  : result (matrix * matrix * vector) :=
  do pps <- preferred_signs (opt_preferred_prep_basis_signs advancedOptions)
              (fst pauliDicts) ;;
  do pms <- preferred_signs (opt_preferred_meas_basis_signs advancedOptions)
              (snd pauliDicts) ;;
  do fps <- hamiltonian_fidpairs nQubits maxErrWeight extract_hamiltonian
              advancedOptions pps pms
              (option_map (filter (fun fp => negb (same_basis fp)))
                 (opt_pauli_fidpairs advancedOptions)) ;;
  do g <- hamiltonian_gather extract_affine (allerrors nQubits maxErrWeight) pauliDicts GiStr
            maxLengths (fit_order advancedOptions) maxErrWeight fps ;;
  let '(my_J, my_Jaff, infos_by_fidpair) := g in
  Ok (to_matrix my_J, to_matrix my_Jaff, observed_rates infos_by_fidpair).

(** A run in a given mode: the designs, their shapes, and the finishing
    steps on them. *)
Lemma run_with_mode nQubits maxLengths prepDict measDict maxErrWeight GiStr
  (eh es ea : bool) (o : AdvancedOptions) (mode : string) (res : IdleTomographyResults)
  (Jsa : matrix) (obs_sa : vector) (Jh Jaff : matrix) (obs_h : vector) :
  let n := List.length (allerrors nQubits maxErrWeight) in
  do_idle_tomography nQubits maxLengths (prepDict, measDict) maxErrWeight GiStr eh es ea
    (with_mode mode o) = Ok res ->
  (es = true -> stochastic_design nQubits maxLengths (prepDict, measDict) maxErrWeight GiStr
                  es ea o = Ok (Jsa, obs_sa)) ->
  (eh = true -> hamiltonian_design nQubits maxLengths (prepDict, measDict) maxErrWeight GiStr
                  eh ea o = Ok (Jh, Jaff, obs_h)) ->
  exists st1 st2 st3,
    (if es
     then width (sto_width ea n) Jsa /\
          exists fps g, to_matrix (fst g) = Jsa /\ observed_rates (snd g) = obs_sa /\
                        stochastic_finish ea mode fps g initial_state = Ok st1
     else ea = false /\ st1 = initial_state) /\
    (if eh
     then width n Jh /\ (if ea then width n Jaff /\ List.length Jaff = List.length Jh
                         else Jaff = []) /\
          exists fps my_J my_Jaff my_infos,
            to_matrix my_J = Jh /\ to_matrix my_Jaff = Jaff /\
            observed_rates my_infos = obs_h /\
            hamiltonian_finish ea mode fps (my_J, my_Jaff, my_infos) st1 = Ok st2
     else st2 = st1) /\
    (if String.eqb mode "together"
     then joint_inversion eh es ea n st2 = Ok st3
     else st3 = st2) /\
    res_intrinsic_rates res = intrinsic_rates st3.
Proof.
  intros n Hrun Hs Hh. apply run_stages in Hrun.
  destruct Hrun as [pps [pms [st1 [st2 [st3 [Hpp [Hpm [H1 [H2 [H3 Hres]]]]]]]]]].
  cbn [with_mode opt_preferred_prep_basis_signs opt_preferred_meas_basis_signs
       opt_pauli_fidpairs jacobian_mode opt_jacobian_mode] in *.
  exists st1, st2, st3. repeat apply conj; [| |exact H3|exact Hres].
  - destruct es; [|exact H1]. apply stochastic_stage_ok in H1.
    destruct H1 as [fps [g [Hf [Hg Hfin]]]].
    specialize (Hs eq_refl). unfold stochastic_design in Hs. cbn [fst snd] in Hs.
    rewrite Hpp, Hpm in Hs. cbn [bind] in Hs.
    change (stochastic_fidpairs nQubits maxErrWeight true ea o pps pms
              (option_map (filter same_basis) (opt_pauli_fidpairs o)))
      with (stochastic_fidpairs nQubits maxErrWeight true ea (with_mode mode o) pps pms
              (option_map (filter same_basis) (opt_pauli_fidpairs o))) in Hs.
    rewrite Hf in Hs. cbn [bind] in Hs.
    change (fit_order o) with (fit_order (with_mode mode o)) in Hs.
    rewrite Hg in Hs. cbn [bind] in Hs. injection Hs as HJ Hobs.
    split.
    + rewrite <- HJ. destruct g as [my_J my_infos]. cbn [fst].
      eapply stochastic_gather_width. exact Hg.
    + exists fps, g. auto.
  - destruct eh; [|exact H2]. apply hamiltonian_stage_ok in H2.
    destruct H2 as [fps [[[my_J my_Jaff] my_infos] [Hf [Hg Hfin]]]].
    specialize (Hh eq_refl). unfold hamiltonian_design in Hh. cbn [fst snd] in Hh.
    rewrite Hpp, Hpm in Hh. cbn [bind] in Hh.
    change (hamiltonian_fidpairs nQubits maxErrWeight true o pps pms
              (option_map (filter (fun fp => negb (same_basis fp))) (opt_pauli_fidpairs o)))
      with (hamiltonian_fidpairs nQubits maxErrWeight true (with_mode mode o) pps pms
              (option_map (filter (fun fp => negb (same_basis fp))) (opt_pauli_fidpairs o)))
      in Hh.
    rewrite Hf in Hh. cbn [bind] in Hh.
    change (fit_order o) with (fit_order (with_mode mode o)) in Hh.
    rewrite Hg in Hh. cbn [bind] in Hh. injection Hh as HJ HJa Hobs.
    apply hamiltonian_gather_shape in Hg. destruct Hg as [Hw Ha]. cbn [fst snd] in Hw, Ha.
    split; [|split].
    + rewrite <- HJ. now apply to_matrix_width.
    + destruct ea.
      * destruct Ha as [Hwa Hla]. rewrite <- HJa, <- HJ. split.
        -- now apply to_matrix_width.
        -- now rewrite !to_matrix_length.
      * rewrite <- HJa, Ha. reflexivity.
    + exists fps, my_J, my_Jaff, my_infos. auto.
Qed.


(** The rates the stochastic stage files in mode "separate", from the
    solution [x]. *)
Definition separate_sto_rates (ea : bool) (x : vector) : list (string * vector) :=
  if ea
  then dict_set (dict_set [] "stochastic" (firstn (List.length x / 2) x))
         "affine" (skipn (List.length x / 2) x)
  else dict_set [] "stochastic" x.

Lemma separate_run nQubits maxLengths prepDict measDict maxErrWeight GiStr
  (eh es ea : bool) (o : AdvancedOptions) (res : IdleTomographyResults)
  (Jsa : matrix) (obs_sa : vector) (Jh Jaff : matrix) (obs_h : vector) :
  let n := List.length (allerrors nQubits maxErrWeight) in
  do_idle_tomography nQubits maxLengths (prepDict, measDict) maxErrWeight GiStr eh es ea
    (with_mode "separate" o) = Ok res ->
  (es = true -> stochastic_design nQubits maxLengths (prepDict, measDict) maxErrWeight GiStr
                  es ea o = Ok (Jsa, obs_sa)) ->
  (eh = true -> hamiltonian_design nQubits maxLengths (prepDict, measDict) maxErrWeight GiStr
                  eh ea o = Ok (Jh, Jaff, obs_h)) ->
  (ea = true -> es = true) /\
  (es = true -> Jsa <> [] /\ width (sto_width ea n) Jsa) /\
  (eh = true -> Jh <> [] /\ width n Jh /\
                (ea = true -> width n Jaff /\ List.length Jaff = List.length Jh)) /\
  exists st1 obs',
    intrinsic_rates st1
    = (if es then separate_sto_rates ea (mv (np_pinv Jsa) obs_sa) else []) /\
    (eh = true -> (if ea then affine_correction Jaff st1 obs_h else Ok obs_h) = Ok obs') /\
    res_intrinsic_rates res
    = if eh then dict_set (intrinsic_rates st1) "hamiltonian" (mv (np_pinv Jh) obs')
      else intrinsic_rates st1.
Proof.
  intros n Hrun Hs Hh.
  destruct (run_with_mode _ _ _ _ _ _ _ _ _ _ _ _ _ _ _ _ _ Hrun Hs Hh)
    as [st1 [st2 [st3 [H1 [H2 [H3 Hres]]]]]].
  cbn [String.eqb Ascii.eqb Bool.eqb] in H3. subst st3. clear Hrun Hs Hh.
  assert (Hst1 : (ea = true -> es = true) /\
                 (es = true -> Jsa <> [] /\ width (sto_width ea n) Jsa) /\
                 intrinsic_rates st1
                 = (if es then separate_sto_rates ea (mv (np_pinv Jsa) obs_sa) else [])).
  { destruct es.
    - destruct H1 as [Hw [fps [g [HJ [Hobs Hfin]]]]].
      apply stochastic_finish_separate in Hfin. rewrite HJ, Hobs in Hfin.
      destruct Hfin as [Hne [x [Hx Hr]]]. apply np_dot_value in Hx. subst x.
      repeat split; auto.
    - destruct H1 as [-> ->]. repeat split; try discriminate. }
  destruct Hst1 as [Hea [Hsto Hr1]]. split; [exact Hea|]. split; [exact Hsto|].
  destruct eh.
  - destruct H2 as [Hw [Haff [fps [my_J [my_Jaff [my_infos [HJ [HJa [Hobs Hfin]]]]]]]]].
    apply hamiltonian_finish_separate in Hfin. rewrite HJ, HJa, Hobs in Hfin.
    destruct Hfin as [Hne [obs' [h [Hc [Hh Hr]]]]]. apply np_dot_value in Hh. subst h.
    split.
    + intros _. split; [exact Hne|]. split; [exact Hw|].
      intros ->. exact Haff.
    + exists st1, obs'. split; [exact Hr1|]. split; [intros _; exact Hc|].
      rewrite Hres. exact Hr.
  - subst st2. split; [discriminate|]. exists st1, []. split; [exact Hr1|].
    split; [discriminate|exact Hres].
Qed.

Lemma together_run nQubits maxLengths prepDict measDict maxErrWeight GiStr
  (eh es ea : bool) (o : AdvancedOptions) (res : IdleTomographyResults)
  (Jsa : matrix) (obs_sa : vector) (Jh Jaff : matrix) (obs_h : vector) :
  let n := List.length (allerrors nQubits maxErrWeight) in
  do_idle_tomography nQubits maxLengths (prepDict, measDict) maxErrWeight GiStr eh es ea
    (with_mode "together" o) = Ok res ->
  (es = true -> stochastic_design nQubits maxLengths (prepDict, measDict) maxErrWeight GiStr
                  es ea o = Ok (Jsa, obs_sa)) ->
  (eh = true -> hamiltonian_design nQubits maxLengths (prepDict, measDict) maxErrWeight GiStr
                  eh ea o = Ok (Jh, Jaff, obs_h)) ->
  (es = true -> Jsa <> []) -> (eh = true -> Jh <> []) ->
  exists Jbig b,
    res_intrinsic_rates res = joint_rates eh es ea n (mv (np_pinv Jbig) b) [] /\
    match es, eh with
    | true, false => Jbig = Jsa /\ b = obs_sa
    | false, true => Jbig = Jh /\ b = obs_h
    | true, true => Jbig = joint_matrix n ea Jsa Jh Jaff /\ b = obs_sa ++ obs_h
    | false, false => False
    end.
Proof.
  intros n Hrun Hs Hh Hnes Hneh.
  destruct (run_with_mode _ _ _ _ _ _ _ _ _ _ _ _ _ _ _ _ _ Hrun Hs Hh)
    as [st1 [st2 [st3 [H1 [H2 [H3 Hres]]]]]].
  cbn [String.eqb Ascii.eqb Bool.eqb] in H3. clear Hrun Hs Hh.
  subst n. set (n := List.length (allerrors nQubits maxErrWeight)) in *.
  apply joint_inversion_ok in H3.
  destruct H3 as [Jbig [cols [obs [b [Hasm [Hb Hrates]]]]]].
  assert (Hr2 : intrinsic_rates st2 = [] /\
                (es = true -> sto_aff_jac st2 = Some Jsa /\
                              sto_aff_obs_err_rates st2 = Some obs_sa /\
                              width (sto_width ea n) Jsa) /\
                (eh = true -> ham_aff_jac st2
                              = Some (if ea then map (fun p => fst p ++ snd p) (combine Jh Jaff)
                                      else Jh) /\
                              ham_aff_obs_err_rates st2 = Some obs_h /\ width n Jh /\
                              (ea = true -> width n Jaff /\
                                            List.length Jaff = List.length Jh)) /\
                (es = false -> ea = false)).
  { assert (Hst1 : intrinsic_rates st1 = [] /\
                   (es = true -> sto_aff_jac st1 = Some Jsa /\
                                 sto_aff_obs_err_rates st1 = Some obs_sa /\
                                 width (sto_width ea n) Jsa) /\
                   (es = false -> ea = false)).
    { destruct es.
      - destruct H1 as [Hw [fps [g [HJ [Hobs Hfin]]]]].
        rewrite stochastic_finish_together, HJ, Hobs in Hfin. injection Hfin as <-.
        repeat split; try reflexivity; try discriminate. exact Hw.
      - destruct H1 as [-> ->]. repeat split; discriminate. }
    destruct Hst1 as [Hr1 [Hsto Hea]].
    destruct eh.
    - destruct H2 as [Hw [Haff [fps [my_J [my_Jaff [my_infos [HJ [HJa [Hobs Hfin]]]]]]]]].
      apply hamiltonian_finish_together in Hfin. rewrite HJ, HJa, Hobs in Hfin.
      destruct Hfin as [hj [Hhj ->]]. cbn. split; [exact Hr1|]. split; [exact Hsto|].
      split; [|exact Hea]. intros _. repeat split.
      + destruct ea; [apply concat_columns_ok in Hhj|injection Hhj as <-]; now subst.
      + exact Hw.
      + subst ea. apply Haff.
      + subst ea. apply Haff.
    - subst st2. split; [exact Hr1|]. split; [exact Hsto|]. split; [discriminate|exact Hea]. }
  destruct Hr2 as [Hr2 [Hsto [Hham Hea]]]. rewrite Hr2 in Hrates.
  exists Jbig, b. split; [now rewrite Hres|].
  destruct es, eh.
  - destruct (Hsto eq_refl) as [HJ [Ho Hw]]. destruct (Hham eq_refl) as [HJh [Hoh [Hwh Haff]]].
    destruct (assemble_both ea n st2 Jsa obs_sa Jh Jaff obs_h HJ Ho (Hnes eq_refl) Hw
                HJh Hoh (Hneh eq_refl) Hwh Haff) as [cols' Hasm'].
    rewrite Hasm' in Hasm. injection Hasm as <- _ <-.
    cbn in Hb. injection Hb as <-. rewrite app_nil_r. auto.
  - destruct (Hsto eq_refl) as [HJ [Ho Hw]].
    destruct (assemble_sto_only ea n st2 Jsa obs_sa HJ Ho (Hnes eq_refl) Hw) as [cols' Hasm'].
    rewrite Hasm' in Hasm. injection Hasm as <- _ <-.
    cbn in Hb. injection Hb as <-. rewrite app_nil_r. auto.
  - rewrite (Hea eq_refl) in *.
    destruct (Hham eq_refl) as [HJh [Hoh [Hwh Haff]]].
    destruct (assemble_ham_only n st2 Jh obs_h HJh Hoh (Hneh eq_refl) Hwh) as [cols' Hasm'].
    rewrite Hasm' in Hasm. injection Hasm as <- _ <-.
    cbn in Hb. injection Hb as <-. rewrite app_nil_r. auto.
  - rewrite (Hea eq_refl) in *. cbn in Hasm. injection Hasm as _ _ <-. discriminate.
Qed.


(** ** Sequential and joint least squares *)

Lemma mv_zero_rows n (Jh : matrix) x :
  mv (map (fun _ => vzeros n) Jh) x = vzeros (List.length Jh).
Proof.
  induction Jh as [|r Jh IH]; [reflexivity|].
  cbn [map mv List.length]. unfold mv in IH. rewrite IH, dot_zeros_l. reflexivity.
Qed.

Lemma mvT_zero_rows n (Jh : matrix) r :
  mvT (map (fun _ => vzeros n) Jh) r n = vzeros n.
Proof.
  revert r. induction Jh as [|row Jh IH]; intros [|c r]; try reflexivity.
  cbn [map mvT]. rewrite IH, vscale_zeros. apply vadd_zeros_l, vzeros_length.
Qed.

Lemma ham_right_block_length n ea (Jh Jaff : matrix) :
  (ea = true -> List.length Jaff = List.length Jh) ->
  List.length (ham_right_block n ea Jh Jaff) = List.length Jh.
Proof.
  intros H. unfold ham_right_block. destruct ea; rewrite length_map; auto.
Qed.

Lemma ham_right_block_width n ea (Jh Jaff : matrix) :
  (ea = true -> width n Jaff) -> width (sto_width ea n) (ham_right_block n ea Jh Jaff).
Proof.
  intros H. unfold ham_right_block, sto_width, width. destruct ea.
  - specialize (H eq_refl). apply Forall_map. revert H. apply Forall_impl.
    intros a Ha. rewrite length_app, vzeros_length, Ha. reflexivity.
  - apply Forall_map. apply Forall_forall. intros a _. apply vzeros_length.
Qed.

Lemma joint_matrix_length n ea (Jsa Jh Jaff : matrix) :
  (ea = true -> List.length Jaff = List.length Jh) ->
  List.length (joint_matrix n ea Jsa Jh Jaff) = (List.length Jsa + List.length Jh)%nat.
Proof.
  intros H. unfold joint_matrix.
  rewrite length_app, !length_map, length_combine, ham_right_block_length by exact H. lia.
Qed.

(** The rates the Hamiltonian stage of mode "separate" fits: the observed
    ones less what the affine rates (the second half of [x]) explain. *)
Definition corrected_rates (n : nat) (ea : bool) (Jaff : matrix) (obs_h x : vector) : vector :=
  if ea then vsub obs_h (mv Jaff (skipn n x)) else obs_h.

(** Solving for the stochastic and affine rates first and for the
    Hamiltonian rates next gives the solution of the joint problem, when the
    residual of the second fit is orthogonal to the affine-observable
    columns. *)
Lemma joint_solution n ea (Jsa Jh Jaff Psa Ph Pbig : matrix) (obs_sa obs_h : vector) :
  let x := mv Psa obs_sa in
  let h := mv Ph (corrected_rates n ea Jaff obs_h x) in
  width (sto_width ea n) Jsa -> width n Jh ->
  (ea = true -> width n Jaff /\ List.length Jaff = List.length Jh) ->
  lstsq_at Jsa Psa obs_sa (sto_width ea n) ->
  lstsq_at Jh Ph (corrected_rates n ea Jaff obs_h x) n ->
  lstsq_at (joint_matrix n ea Jsa Jh Jaff) Pbig (obs_sa ++ obs_h) (n + sto_width ea n) ->
  (ea = true ->
   mvT Jaff (vsub (mv Jh h) (corrected_rates n ea Jaff obs_h x)) n = vzeros n) ->
  mv Pbig (obs_sa ++ obs_h) = h ++ x.
Proof.
  intros x h Hw Hwh Haff [Ls1 [Ls2 Ls3]] [Lh1 [Lh2 Lh3]] [Lb1 [Lb2 Lb3]] Horth.
  fold x in Ls2. fold h in Lh2.
  assert (Hlen : List.length obs_h = List.length Jh).
  { rewrite length_app, joint_matrix_length in Lb1 by (intros e; apply (Haff e)). lia. }
  assert (HT : mv (ham_right_block n ea Jh Jaff) x
               = if ea then mv Jaff (skipn n x) else vzeros (List.length Jh)).
  { unfold ham_right_block. destruct ea; [|apply mv_zero_rows].
    rewrite <- (firstn_skipn n x) at 1. apply mv_pad_left.
    rewrite length_firstn, Ls2. unfold sto_width. lia. }
  assert (Hb : vsub obs_h (mv (ham_right_block n ea Jh Jaff) x)
               = corrected_rates n ea Jaff obs_h x).
  { rewrite HT. unfold corrected_rates. destruct ea; [reflexivity|].
    now apply vsub_zeros_r. }
  symmetry. apply Lb3.
  - rewrite length_app, Lh2, Ls2. reflexivity.
  - unfold joint_matrix.
    apply block_normal_eq; try assumption.
    + apply ham_right_block_width. intros e. apply (Haff e).
    + apply ham_right_block_length. intros e. apply (Haff e).
    + apply Ls3; [exact Ls2|reflexivity].
    + rewrite Hb. apply Lh3; [exact Lh2|reflexivity].
    + rewrite Hb. unfold ham_right_block, sto_width. destruct ea.
      * rewrite mvT_pad_left, (Horth eq_refl), <- vzeros_app. reflexivity.
      * apply mvT_zero_rows.
Qed.

(** ** Reading the rates *)

Lemma dict_get_set {V : Type} (d : list (string * V)) (k k' : string) (v : V) :
  dict_get (dict_set d k v) k' = if String.eqb k k' then Some v else dict_get d k'.
Proof.
  destruct (String.eqb_spec k k') as [<-|Hne].
  - apply dict_get_set_same.
  - now apply dict_get_set_other.
Qed.

Lemma slice_prefix (h x : vector) n : List.length h = n -> slice 0 n (h ++ x) = h.
Proof.
  intros <-. unfold slice. cbn [skipn].
  rewrite firstn_app, Nat.sub_diag, firstn_all. cbn [firstn]. apply app_nil_r.
Qed.

Lemma slice_suffix (h x : vector) n k m :
  List.length h = n -> slice (n + k) m (h ++ x) = slice k m x.
Proof.
  intros <-. unfold slice. rewrite skipn_app.
  rewrite skipn_all2 by lia. cbn [app]. f_equal. f_equal. lia.
Qed.

Lemma slice_all (x : vector) n : List.length x = n -> slice 0 n x = x.
Proof. intros <-. unfold slice. cbn [skipn]. apply firstn_all. Qed.

Lemma slice_rest (x : vector) n : List.length x = (n + n)%nat -> slice n n x = skipn n x.
Proof.
  intros H. unfold slice. apply firstn_all2. rewrite length_skipn. lia.
Qed.

Lemma half_of_sum (n : nat) : ((n + n) / 2 = n)%nat.
Proof. replace (n + n)%nat with (2 * n)%nat by lia. apply half_of_double. Qed.


Ltac by_key cls :=
  rewrite ?dict_get_set; cbn [dict_get];
  destruct (String.eqb_spec "hamiltonian" cls); destruct (String.eqb_spec "stochastic" cls);
  destruct (String.eqb_spec "affine" cls); subst; try reflexivity; try discriminate.

(** ** The two jacobian modes *)

(** C2, amended: take a run of [do_idle_tomography] in jacobian mode
    "separate" and one in mode "together" on the same arguments, both
    returning, with design matrices of full column rank: the pseudo-inverse
    applied to each right-hand side is the one solution of the normal
    equations, for the stochastic/affine matrix, the Hamiltonian matrix and
    the joint matrix. If affine and Hamiltonian rates are both requested,
    let moreover the residual of the affine-corrected Hamiltonian fit be
    orthogonal to the affine-observable columns. Then the two runs give the
    same rate vector for every error class. *)
Theorem jacobian_modes_agree nQubits maxLengths prepDict measDict maxErrWeight GiStr
  (eh es ea : bool) (o : AdvancedOptions) (res_sep res_tog : IdleTomographyResults)
  (Jsa : matrix) (obs_sa : vector) (Jh Jaff : matrix) (obs_h : vector) :
  let n := List.length (allerrors nQubits maxErrWeight) in
  let run mode := do_idle_tomography nQubits maxLengths (prepDict, measDict) maxErrWeight
                    GiStr eh es ea (with_mode mode o) in
  let x := mv (np_pinv Jsa) obs_sa in
  let c := corrected_rates n ea Jaff obs_h x in
  let h := mv (np_pinv Jh) c in
  let Jbig := joint_matrix n ea Jsa Jh Jaff in
  run "separate" = Ok res_sep ->
  run "together" = Ok res_tog ->
  (es = true -> stochastic_design nQubits maxLengths (prepDict, measDict) maxErrWeight GiStr
                  es ea o = Ok (Jsa, obs_sa)) ->
  (eh = true -> hamiltonian_design nQubits maxLengths (prepDict, measDict) maxErrWeight GiStr
                  eh ea o = Ok (Jh, Jaff, obs_h)) ->
  (es = true -> lstsq_at Jsa (np_pinv Jsa) obs_sa (sto_width ea n)) ->
  (eh = true -> lstsq_at Jh (np_pinv Jh) c n) ->
  (es = true -> eh = true ->
   lstsq_at Jbig (np_pinv Jbig) (obs_sa ++ obs_h) (n + sto_width ea n)) ->
  (ea = true -> eh = true -> mvT Jaff (vsub (mv Jh h) c) n = vzeros n) ->
  forall cls,
    dict_get (res_intrinsic_rates res_sep) cls = dict_get (res_intrinsic_rates res_tog) cls.
Proof.
  intros n run x c h Jbig Hsep Htog Hs Hh L1 L2 L3 L4 cls.
  destruct (separate_run _ _ _ _ _ _ _ _ _ _ _ _ _ _ _ _ Hsep Hs Hh)
    as [Hea [Hsto [Hham [st1 [obs' [Hr1 [Hc Hrs]]]]]]].
  destruct (together_run _ _ _ _ _ _ _ _ _ _ _ _ _ _ _ _ Htog Hs Hh
              (fun e => proj1 (Hsto e)) (fun e => proj1 (Hham e)))
    as [Jb [b [Hrt Hcase]]].
  fold n in Hsto, Hham, Hrt, Hcase. fold x in Hr1. rewrite Hrs, Hrt, Hr1. clear Hrs Hrt Hsep Htog Hs Hh.
  destruct es, eh; try contradiction.
  - (* all stages *)
    destruct Hcase as [-> ->]. fold Jbig.
    destruct (Hsto eq_refl) as [_ Hw]. destruct (Hham eq_refl) as [_ [Hwh Haff]].
    specialize (L1 eq_refl). specialize (L2 eq_refl). specialize (L3 eq_refl eq_refl).
    specialize (Hc eq_refl).
    assert (Hx : List.length x = sto_width ea n) by apply L1.
    assert (Hlh : List.length h = n) by apply L2.
    assert (Hobs : obs' = c).
    { unfold c, corrected_rates. destruct ea; [|now injection Hc as <-].
      unfold sto_width in Hx.
      apply (affine_correction_value Jaff st1 obs_h obs' (skipn n x)); [| |exact Hc].
      - rewrite Hr1. unfold separate_sto_rates. rewrite Hx, half_of_sum. reflexivity.
      - destruct L3 as [Lb1 _]. destruct L1 as [Ls1 _]. destruct (Haff eq_refl) as [_ Hla].
        unfold Jbig in Lb1. rewrite length_app, joint_matrix_length in Lb1 by (intros _; exact Hla).
        lia. }
    rewrite Hobs. fold h.
    rewrite (joint_solution n ea Jsa Jh Jaff (np_pinv Jsa) (np_pinv Jh) (np_pinv Jbig)
               obs_sa obs_h Hw Hwh Haff L1 L2 L3 (fun e => L4 e eq_refl)).
    fold x c h. unfold joint_rates, separate_sto_rates.
    rewrite (slice_prefix h x n Hlh).
    replace (slice n n (h ++ x)) with (slice 0 n x)
      by (symmetry; rewrite <- (Nat.add_0_r n) at 1; now apply slice_suffix).
    rewrite (slice_suffix h x n n n Hlh).
    destruct ea; unfold sto_width in Hx.
    + rewrite Hx, half_of_sum, (slice_rest x n Hx). unfold slice. cbn [skipn]. by_key cls.
    + rewrite (slice_all x n Hx). by_key cls.
  - (* stochastic (and affine) only *)
    destruct Hcase as [-> ->]. fold x. specialize (L1 eq_refl).
    assert (Hx : List.length x = sto_width ea n) by apply L1.
    unfold joint_rates, separate_sto_rates. destruct ea; unfold sto_width in Hx.
    + rewrite Hx, half_of_sum. cbn [Nat.add]. rewrite (slice_rest x n Hx).
      unfold slice. cbn [skipn]. by_key cls.
    + rewrite (slice_all x n Hx). by_key cls.
  - (* Hamiltonian only *)
    destruct Hcase as [-> ->].
    assert (Hea' : ea = false) by (destruct ea; [specialize (Hea eq_refl); discriminate|reflexivity]).
    subst ea. specialize (Hc eq_refl). injection Hc as <-.
    specialize (L2 eq_refl). unfold c, corrected_rates in L2.
    assert (Hlh : List.length (mv (np_pinv Jh) obs_h) = n) by apply L2.
    unfold joint_rates. rewrite (slice_all _ n Hlh). reflexivity.
Qed.


(** ** Unique least-squares solutions and the rank *)

Lemma dot_vadd_r (r y z : vector) :
  List.length y = List.length z -> dot r (vadd y z) = (dot r y + dot r z)%R.
Proof.
  revert y z. induction r as [|a r IH]; intros [|b y] [|c z] H; try discriminate H;
    unfold dot, vadd in *; cbn; try lra.
  rewrite IH by (cbn in H; lia). lra.
Qed.

Lemma mv_vadd (J : matrix) (y z : vector) :
  List.length y = List.length z -> mv J (vadd y z) = vadd (mv J y) (mv J z).
Proof.
  intros H. induction J as [|r J IH]; [reflexivity|].
  cbn [mv map]. rewrite dot_vadd_r by exact H. unfold mv in IH. rewrite IH. reflexivity.
Qed.

Lemma vadd_cancel_l (y z : vector) :
  List.length z = List.length y -> vadd y z = y -> z = vzeros (List.length y).
Proof.
  revert z. induction y as [|a y IH]; intros [|b z] H E; try discriminate H; [reflexivity|].
  unfold vadd in E. cbn in E. injection E as E1 E2.
  cbn [List.length vzeros repeat]. f_equal; [lra|].
  apply IH; [cbn in H; lia|exact E2].
Qed.

(** Where the least-squares solution is unique the matrix has full column
    rank: no vector but zero is sent to zero. *)
Lemma lstsq_at_trivial_kernel (J P : matrix) (b : vector) (n : nat) :
  lstsq_at J P b n ->
  forall z, List.length z = n -> mv J z = vzeros (List.length J) -> z = vzeros n.
Proof.
  intros [H1 [H2 H3]] z Hz HJz.
  assert (H0 : normal_eq J b (mv P b) n) by (apply H3; [exact H2|reflexivity]).
  assert (Hsum : normal_eq J b (vadd (mv P b) z) n).
  { unfold normal_eq in *. rewrite mv_vadd by congruence.
    rewrite HJz, vadd_zeros_r by apply mv_length. exact H0. }
  apply H3 in Hsum; [|rewrite vadd_length; congruence].
  apply vadd_cancel_l in Hsum; [|congruence]. now rewrite H2 in Hsum.
Qed.


(** * Further properties of the code *)

(** ** [preferred_signs_from_paulidict] *)

(** The gates of the plus key of a letter: those of ["+L"], else those of
    ["L"]. *)
Definition plus_gates (pauliDict : paulidict) (let_ : string) : option (list string) :=
  match dict_get pauliDict ("+" ++ let_) with
  | Some g => Some g
  | None => dict_get pauliDict let_
  end.

Definition minus_gates (pauliDict : paulidict) (let_ : string) : option (list string) :=
  dict_get pauliDict ("-" ++ let_).

(** The sign the gates of a letter call for: '-' when only the minus key
    is there or its gate sequence is strictly shorter, '+' otherwise. *)
Definition sign_by_length (pauliDict : paulidict) (let_ : string) : string :=
  match plus_gates pauliDict let_, minus_gates pauliDict let_ with
  | Some p, Some m => if (List.length p <=? List.length m)%nat then "+" else "-"
  | None, Some _ => "-"
  | _, None => "+"
  end.

Definition has_basis (pauliDict : paulidict) (let_ : string) : bool :=
  match plus_gates pauliDict let_, minus_gates pauliDict let_ with
  | None, None => false
  | _, _ => true
  end.

Lemma preferred_sign_value (d : paulidict) (l : string) :
  preferred_sign d l
  = if has_basis d l then Ok (sign_by_length d l)
    else Raise (ValueError "No entry for %s-basis!").
Proof.
  unfold preferred_sign, has_basis, sign_by_length, plus_gates, minus_gates, dict_mem.
  destruct (dict_get d ("-" ++ l)) as [m|] eqn:Em;
    destruct (dict_get d ("+" ++ l)) as [p|] eqn:Ep;
    try (destruct (dict_get d l) as [q|] eqn:Eq);
    try rewrite Em; try rewrite Ep; try rewrite Eq; reflexivity.
Qed.

(** X1. [preferred_signs_from_paulidict] returns when the dictionary has, for
    each of X, Y and Z, a plus key (["+L"] or ["L"]) or the minus key
    ["-L"], and raises its [ValueError] otherwise (its message is kept as
    the format string of the source), and nothing else. What
    it returns are three signs, one per letter in the order X, Y, Z: '-'
    when the letter has only the minus key or the gate sequence of the
    minus key is strictly shorter than that of the plus key, '+' otherwise
    (so on a tie). Each is '+' or '-', and the three signs give every basis
    letter its sign +1 or -1 in [idle_tomography_fidpairs]. *)
Theorem preferred_signs_by_gate_count (pauliDict : paulidict) :
  (forallb (has_basis pauliDict) ["X"; "Y"; "Z"] = true ->
   preferred_signs_from_paulidict pauliDict
   = Ok [sign_by_length pauliDict "X"; sign_by_length pauliDict "Y";
         sign_by_length pauliDict "Z"]) /\
  (forallb (has_basis pauliDict) ["X"; "Y"; "Z"] = false ->
   preferred_signs_from_paulidict pauliDict = Raise (ValueError "No entry for %s-basis!")) /\
  (forall signs, preferred_signs_from_paulidict pauliDict = Ok signs ->
     List.length signs = 3%nat /\
     Forall (fun s => s = "+" \/ s = "-") signs /\
     forall l, is_XYZ l = true ->
       exists s, letter_get (base_signs signs) l = Ok s /\ is_sign s).
Proof.
  assert (Hval : forall l, sign_by_length pauliDict l = "+" \/ sign_by_length pauliDict l = "-").
  { intros l. unfold sign_by_length.
    destruct (plus_gates pauliDict l), (minus_gates pauliDict l); auto.
    destruct (_ <=? _)%nat; auto. }
  assert (Hok : forallb (has_basis pauliDict) ["X"; "Y"; "Z"] = true ->
                preferred_signs_from_paulidict pauliDict
                = Ok [sign_by_length pauliDict "X"; sign_by_length pauliDict "Y";
                      sign_by_length pauliDict "Z"]).
  { intros H. cbn [forallb] in H. rewrite !andb_true_iff in H. destruct H as [HX [HY [HZ _]]].
    unfold preferred_signs_from_paulidict. cbn [mapM].
    rewrite !preferred_sign_value, HX, HY, HZ. reflexivity. }
  split; [exact Hok|]. split.
  - intros H. unfold preferred_signs_from_paulidict. cbn [mapM forallb] in *.
    rewrite !preferred_sign_value.
    destruct (has_basis pauliDict "X"); [|reflexivity].
    destruct (has_basis pauliDict "Y"); [|reflexivity].
    destruct (has_basis pauliDict "Z"); [discriminate|reflexivity].
  - intros signs Hs.
    destruct (forallb (has_basis pauliDict) ["X"; "Y"; "Z"]) eqn:E.
    + rewrite (Hok eq_refl) in Hs. injection Hs as <-.
      split; [reflexivity|].
      split; [repeat (apply Forall_cons; [apply Hval|]); apply Forall_nil|].
      intros l Hl. apply is_XYZ_cases in Hl.
      assert (Hc : forall s, s = "+" \/ s = "-" -> is_sign (conv s)).
      { intros s [-> | ->]; [left|right]; reflexivity. }
      destruct Hl as [-> | [-> | ->]]; eexists; (split; [reflexivity|]); apply Hc, Hval.
    + exfalso. revert Hs. unfold preferred_signs_from_paulidict. cbn [mapM forallb] in *.
      rewrite !preferred_sign_value.
      destruct (has_basis pauliDict "X"); [|discriminate].
      destruct (has_basis pauliDict "Y"); [|discriminate].
      destruct (has_basis pauliDict "Z"); discriminate.
Qed.


(** ** [idle_tomography_fidpairs]: its two parts, [prev] and [next] *)

(** X2. The fiducial pairs [idle_tomography_fidpairs] returns are the
    stochastic (and affine) pairs followed by the Hamiltonian pairs, each
    part being what the function returns when asked for that part alone;
    it fails when one of the two parts fails, with the error of the first
    that does. These two parts are the calls [do_idle_tomography] makes for
    its two stages. *)
Theorem fidpairs_stochastic_then_hamiltonian (nQubits maxweight : Z)
  (include_hamiltonian include_stochastic include_affine : bool)
  (ham_tmpl ps ms : list string) :
  idle_tomography_fidpairs nQubits maxweight include_hamiltonian include_stochastic
    include_affine ham_tmpl ps ms
  = (do sto <- idle_tomography_fidpairs nQubits maxweight false include_stochastic
                 include_affine ham_tmpl ps ms ;;
     do ham <- idle_tomography_fidpairs nQubits maxweight include_hamiltonian false false
                 ham_tmpl ps ms ;;
     Ok (sto ++ ham)).
Proof.
  unfold idle_tomography_fidpairs.
  destruct include_stochastic.
  - destruct (sto_flips maxweight include_affine) as [flips|]; cbn [bind]; [|reflexivity].
    destruct (sto_tmpl_pairs maxweight _ _ flips) as [tmpl|]; cbn [bind app]; [|reflexivity].
    destruct include_hamiltonian; cbn [bind app]; [|now rewrite app_nil_r].
    destruct (ham_tmpl_pairs maxweight _ _ ham_tmpl) as [htmpl|]; cbn [bind app]; reflexivity.
  - destruct include_affine; cbn [bind app]; [reflexivity|].
    destruct include_hamiltonian; cbn [bind app]; [|reflexivity].
    destruct (ham_tmpl_pairs maxweight _ _ ham_tmpl) as [htmpl|]; cbn [bind app]; reflexivity.
Qed.

Lemma letter_get_raises {V : Type} (d : list (ascii * V)) (c : ascii) (e : exn) :
  letter_get d c = Raise e -> e = KeyError (String c EmptyString).
Proof.
  induction d as [|[k v] d IH]; cbn [letter_get].
  - intros H. now inversion H.
  - destruct (Ascii.eqb k c); [discriminate|exact IH].
Qed.

Lemma letter_get_prev_next (c : ascii) :
  (forall p, letter_get prevPauli c = Ok p ->
     is_XYZ c = true /\ letter_get nextPauli p = Ok c /\
     letter_get prevPauli p = letter_get nextPauli c) /\
  (forall n, letter_get nextPauli c = Ok n ->
     is_XYZ c = true /\ letter_get prevPauli n = Ok c /\
     letter_get nextPauli n = letter_get prevPauli c) /\
  (is_XYZ c = false ->
     letter_get prevPauli c = Raise (KeyError (String c EmptyString)) /\
     letter_get nextPauli c = Raise (KeyError (String c EmptyString))).
Proof.
  unfold is_XYZ, prevPauli, nextPauli. cbn [letter_get].
  rewrite !(Ascii.eqb_sym _ c).
  destruct (Ascii.eqb_spec c "X") as [->|HX]; [repeat split; intros; try discriminate;
    match goal with H : Ok _ = Ok _ |- _ => injection H as <- end; reflexivity|].
  destruct (Ascii.eqb_spec c "Y") as [->|HY]; [repeat split; intros; try discriminate;
    match goal with H : Ok _ = Ok _ |- _ => injection H as <- end; reflexivity|].
  destruct (Ascii.eqb_spec c "Z") as [->|HZ]; [repeat split; intros; try discriminate;
    match goal with H : Ok _ = Ok _ |- _ => injection H as <- end; reflexivity|].
  repeat split; intros; try discriminate; reflexivity.
Qed.

Lemma chars_length (t : string) : List.length (chars t) = String.length t.
Proof. induction t as [|c t IH]; cbn; [reflexivity|now rewrite <- IH]. Qed.

Lemma string_of_chars (t : string) : string_of_list_ascii (chars t) = t.
Proof. apply string_of_list_ascii_of_string. Qed.

Lemma mapM_inverse {A B : Type} (f : A -> result B) (g : B -> result A) (l : list A)
  (bs : list B) :
  (forall a b, f a = Ok b -> g b = Ok a) -> mapM f l = Ok bs -> mapM g bs = Ok l.
Proof.
  intros Hfg. revert bs. induction l as [|a l IH]; cbn [mapM]; intros bs H.
  - injection H as <-. reflexivity.
  - destruct (f a) as [b|] eqn:E; cbn [bind] in H; [|discriminate].
    destruct (mapM f l) as [bs'|]; cbn [bind] in H; [|discriminate].
    injection H as <-. cbn [mapM]. rewrite (Hfg a b E). cbn [bind].
    rewrite (IH bs' eq_refl). reflexivity.
Qed.

Lemma mapM_first_raise {A B : Type} (f : A -> result B) (l : list A) (e : exn) :
  mapM f l = Raise e -> exists a, In a l /\ f a = Raise e.
Proof.
  induction l as [|a l IH]; cbn [mapM]; [discriminate|].
  destruct (f a) as [b|] eqn:E; cbn [bind].
  - destruct (mapM f l) as [bs|]; cbn [bind]; [discriminate|].
    intros H. injection H as <-. destruct (IH eq_refl) as [a' [Hin Ha']].
    exists a'. split; [now right|exact Ha'].
  - intros H. injection H as <-. exists a. split; [now left|exact E].
Qed.

Lemma shift_letters_ok (table : list (ascii * ascii)) (t u : string) :
  shift_letters table t = Ok u ->
  mapM (letter_get table) (chars t) = Ok (chars u).
Proof.
  unfold shift_letters. destruct (mapM _ _) as [ls|]; cbn [bind]; [|discriminate].
  intros H. injection H as <-. now rewrite chars_string_of_list.
Qed.

(** The first letter of a string that is not X, Y or Z. *)
Definition first_other_letter (expt : string) : option ascii :=
  find (fun c => negb (is_XYZ c)) (chars expt).

Lemma shift_letters_first_other (table : list (ascii * ascii)) (f : ascii -> ascii)
  (expt : string) :
  (forall c, is_XYZ c = true -> letter_get table c = Ok (f c)) ->
  (forall c, is_XYZ c = false -> letter_get table c = Raise (KeyError (String c EmptyString))) ->
  shift_letters table expt
  = match first_other_letter expt with
    | None => Ok (string_of_list_ascii (map f (chars expt)))
    | Some c => Raise (KeyError (String c EmptyString))
    end.
Proof.
  intros Hok Hbad. unfold shift_letters, first_other_letter.
  assert (H : mapM (letter_get table) (chars expt)
              = match find (fun c => negb (is_XYZ c)) (chars expt) with
                | None => Ok (map f (chars expt))
                | Some c => Raise (KeyError (String c EmptyString))
                end).
  { induction (chars expt) as [|a l IH]; cbn [mapM find map]; [reflexivity|].
    destruct (is_XYZ a) eqn:Ea; cbn [negb].
    - rewrite (Hok a Ea), IH. cbn [bind].
      destruct (find (fun c => negb (is_XYZ c)) l); reflexivity.
    - now rewrite (Hbad a Ea). }
  rewrite H. destruct (find (fun c => negb (is_XYZ c)) (chars expt)); reflexivity.
Qed.

(** X3. The helpers [prev] and [next] of [idle_tomography_fidpairs] shift
    every letter of a string one step back or forward in the cycle X, Y, Z:
    [next] turns X into Y, Y into Z and Z into X, [prev] turns X into Z, Y
    into X and Z into Y, letter by letter. Each undoes the other, three
    steps forward give the string back, and two steps forward are one step
    back. A string with a letter other than X, Y or Z (an 'I', say) makes
    both raise [KeyError] of the first such letter, and only such a string
    makes them raise. *)
Theorem prev_next_round_trip (expt : string) :
  (forall u, next expt = Ok u ->
     prev u = Ok expt /\ String.length u = String.length expt /\
     (forall v, next u = Ok v -> next v = Ok expt /\ prev expt = Ok v)) /\
  (forall u, prev expt = Ok u -> next u = Ok expt /\ String.length u = String.length expt) /\
  (Forall (fun c => is_XYZ c = true) (chars expt) ->
     is_ok (next expt) = true /\ is_ok (prev expt) = true) /\
  (forall e, next expt = Raise e \/ prev expt = Raise e ->
     exists c, In c (chars expt) /\ is_XYZ c = false /\ e = KeyError (String c EmptyString)) /\
  match first_other_letter expt with
  | None =>
      next expt = Ok (string_of_list_ascii (map succ_letter (chars expt))) /\
      prev expt = Ok (string_of_list_ascii (map pred_letter (chars expt)))
  | Some c =>
      In c (chars expt) /\ is_XYZ c = false /\
      next expt = Raise (KeyError (String c EmptyString)) /\
      prev expt = Raise (KeyError (String c EmptyString))
  end /\
  (Exists (fun c => is_XYZ c = false) (chars expt) -> first_other_letter expt <> None) /\
  (succ_letter "X" = "Y" /\ succ_letter "Y" = "Z" /\ succ_letter "Z" = "X" /\
   pred_letter "X" = "Z" /\ pred_letter "Y" = "X" /\ pred_letter "Z" = "Y")%char.
Proof.
  assert (Hlen : forall table t u, shift_letters table t = Ok u ->
                                   String.length u = String.length t).
  { intros table t u H. apply shift_letters_ok in H. apply mapM_length in H.
    now rewrite !chars_length in H. }
  assert (Hinv : forall ta tb t u,
             (forall a b, letter_get ta a = Ok b -> letter_get tb b = Ok a) ->
             shift_letters ta t = Ok u -> shift_letters tb u = Ok t).
  { intros ta tb t u Hab H. apply shift_letters_ok in H.
    apply (mapM_inverse _ (letter_get tb)) in H; [|exact Hab].
    unfold shift_letters. rewrite H. cbn [bind]. now rewrite string_of_chars. }
  assert (Hnp : forall a b, letter_get nextPauli a = Ok b -> letter_get prevPauli b = Ok a)
    by (intros a b H; now apply letter_get_prev_next in H).
  assert (Hpn : forall a b, letter_get prevPauli a = Ok b -> letter_get nextPauli b = Ok a)
    by (intros a b H; now apply letter_get_prev_next in H).
  split; [|split; [|split; [|split; [|split; [|split]]]]].
  - intros u Hu. split; [exact (Hinv _ _ _ _ Hnp Hu)|]. split; [exact (Hlen _ _ _ Hu)|].
    intros v Hv.
    assert (Hpv : prev expt = Ok v).
    { unfold prev, next in *. apply shift_letters_ok in Hu, Hv.
      unfold shift_letters.
      assert (H2 : mapM (letter_get prevPauli) (chars expt) = Ok (chars v)).
      { revert Hu Hv. generalize (chars expt) (chars u) (chars v).
        induction l as [|a l IH]; cbn [mapM]; intros lu lv Hu Hv.
        - injection Hu as <-. cbn [mapM] in Hv. exact Hv.
        - destruct (letter_get nextPauli a) as [b|] eqn:Ea; cbn [bind] in Hu; [|discriminate].
          destruct (mapM (letter_get nextPauli) l) as [bs|] eqn:El; cbn [bind] in Hu;
            [|discriminate].
          injection Hu as <-. cbn [mapM] in Hv.
          destruct (letter_get nextPauli b) as [c|] eqn:Eb; cbn [bind] in Hv; [|discriminate].
          destruct (mapM (letter_get nextPauli) bs) as [cs|] eqn:Ebs; cbn [bind] in Hv;
            [|discriminate].
          injection Hv as <-.
          apply letter_get_prev_next in Ea. destruct Ea as [_ [_ Ea]].
          rewrite <- Ea, Eb. cbn [bind]. rewrite (IH bs cs eq_refl Ebs). reflexivity. }
      rewrite H2. cbn [bind]. now rewrite string_of_chars. }
    split; [|exact Hpv]. exact (Hinv _ _ _ _ Hpn Hpv).
  - intros u Hu. split; [exact (Hinv _ _ _ _ Hpn Hu)|exact (Hlen _ _ _ Hu)].
  - intros H. rewrite (shift_next expt H), (shift_prev expt H). split; reflexivity.
  - intros e He.
    assert (Hr : forall table, (table = nextPauli \/ table = prevPauli) ->
                 shift_letters table expt = Raise e ->
                 exists c, In c (chars expt) /\ is_XYZ c = false /\
                           e = KeyError (String c EmptyString)).
    { intros table Ht H. unfold shift_letters in H.
      destruct (mapM (letter_get table) (chars expt)) as [ls|] eqn:E; cbn [bind] in H;
        [discriminate|].
      injection H as ->. apply mapM_first_raise in E. destruct E as [c [Hin Hc]].
      exists c. split; [exact Hin|]. split; [|now apply letter_get_raises in Hc].
      destruct (is_XYZ c) eqn:Hx; [|reflexivity]. exfalso.
      apply pred_succ_XYZ in Hx. destruct Hx as [_ [_ [_ [Hp Hn]]]].
      destruct Ht as [-> | ->]; congruence. }
    destruct He as [He | He]; [apply (Hr nextPauli)|apply (Hr prevPauli)]; auto.
  - unfold next, prev.
    rewrite (shift_letters_first_other nextPauli succ_letter expt),
            (shift_letters_first_other prevPauli pred_letter expt);
      try (intros c Hc; now apply pred_succ_XYZ in Hc);
      try (intros c Hc; now apply letter_get_prev_next in Hc).
    destruct (first_other_letter expt) as [c|] eqn:E; [|split; reflexivity].
    unfold first_other_letter in E. apply find_some in E. destruct E as [Hin Hc].
    apply negb_true_iff in Hc. repeat split; assumption.
  - intros H E. unfold first_other_letter in E.
    apply Exists_exists in H. destruct H as [c [Hin Hc]].
    pose proof (find_none _ _ E c Hin) as Hn. cbn beta in Hn. rewrite Hc in Hn. discriminate.
  - repeat split.
Qed.


(** ** [idle_tomography_fidpairs]: what the stochastic templates are *)

Lemma product_repeat_In {A : Type} (pool : list A) (n : nat) (t : list A) :
  In t (product_repeat pool n) -> List.length t = n /\ Forall (fun a => In a pool) t.
Proof.
  revert t. induction n as [|n IH]; cbn [product_repeat]; intros t H.
  - destruct H as [<- | []]. split; [reflexivity|constructor].
  - apply in_flat_map in H. destruct H as [a [Ha H]].
    apply in_map_iff in H. destruct H as [t' [<- Ht']].
    apply IH in Ht'. destruct Ht' as [Hl Hf]. split; [cbn; now rewrite Hl|].
    constructor; assumption.
Qed.

Lemma flipped_signs_shape (signs : list string) (fliptup : list Z) (lets : list ascii)
  (out : list Z) :
  Forall is_sign fliptup ->
  Forall (fun s => s = "+" \/ s = "-") signs ->
  flipped_signs (base_signs signs) fliptup lets = Ok out ->
  List.length out = Nat.min (List.length fliptup) (List.length lets) /\ Forall is_sign out.
Proof.
  intros Hf Hs H. unfold flipped_signs in H. split.
  - apply mapM_length in H. now rewrite length_combine in H.
  - revert H. apply mapM_Forall. intros [f l] b Hin Hb.
    apply in_combine_l in Hin. rewrite Forall_forall in Hf. specialize (Hf f Hin).
    destruct (letter_get (base_signs signs) l) as [s|] eqn:El; cbn [bind] in Hb;
      [|discriminate].
    injection Hb as <-.
    assert (Hsgn : is_sign s).
    { clear - El Hs. unfold base_signs in El.
      assert (Hc : forall x, is_sign (conv x)).
      { intros x. unfold conv. destruct (String.eqb x "+"); [left|right]; reflexivity. }
      revert El. generalize (combine XYZ signs). intros d.
      induction d as [|[k x] d IH]; cbn [map letter_get]; [discriminate|].
      destruct (Ascii.eqb k l); [|exact IH]. intros H. injection H as <-. apply Hc. }
    destruct Hf as [-> | ->], Hsgn as [-> | ->]; [left|right|right|left]; reflexivity.
Qed.

(** What [stochastic_outcome] and [affine_jac_element] assert of a fiducial
    pair: the same basis letters, all among X, Y, Z. *)
Definition same_basis_pair (n : nat) (pair : fidpair) : Prop :=
  state_rep (fst pair) = state_rep (snd pair) /\
  String.length (state_rep (fst pair)) = n /\
  Forall (fun c => is_XYZ c = true) (chars (state_rep (fst pair))) /\
  List.length (state_signs (fst pair)) = n /\ Forall is_sign (state_signs (fst pair)) /\
  List.length (state_signs (snd pair)) = n /\ Forall is_sign (state_signs (snd pair)).

Lemma sto_tmpl_pair_shape (ps ms : list string) (fliptup : list Z) (lets : list ascii)
  (n : nat) (pair : fidpair) :
  Forall (fun s => s = "+" \/ s = "-") ps -> Forall (fun s => s = "+" \/ s = "-") ms ->
  Forall is_sign fliptup -> List.length fliptup = n ->
  In lets (product_repeat XYZ n) ->
  sto_tmpl_pair (base_signs ps) (base_signs ms) fliptup lets = Ok pair ->
  same_basis_pair n pair.
Proof.
  intros Hps Hms Hf Hlen Hin H. apply product_repeat_In in Hin. destruct Hin as [Hl Hx].
  unfold sto_tmpl_pair in H.
  destruct (flipped_signs (base_signs ps) fliptup lets) as [a|] eqn:Ea; cbn [bind] in H;
    [|discriminate].
  destruct (flipped_signs (base_signs ms) fliptup lets) as [b|] eqn:Eb; cbn [bind] in H;
    [|discriminate].
  injection H as <-. apply flipped_signs_shape in Ea, Eb; try assumption.
  destruct Ea as [Ea1 Ea2], Eb as [Eb1 Eb2].
  unfold same_basis_pair. cbn [fst snd state_rep state_signs].
  rewrite chars_string_of_list, <- chars_length, chars_string_of_list.
  repeat split; try assumption; try lia.
  eapply Forall_impl; [|exact Hx]. intros c Hc. unfold XYZ in Hc. cbn in Hc.
  destruct Hc as [<- | [<- | [<- | []]]]; reflexivity.
Qed.

Lemma concat_length_const {A : Type} (n : nat) (ls : list (list A)) :
  Forall (fun l => List.length l = n) ls ->
  List.length (List.concat ls) = (List.length ls * n)%nat.
Proof.
  induction 1 as [|l ls Hl _ IH]; cbn; [reflexivity|]. now rewrite length_app, Hl, IH.
Qed.

Lemma sto_tmpl_pairs_shape (maxweight : Z) (ps ms : list string) (flips : list (list Z))
  (tmpl : list fidpair) :
  Forall (fun s => s = "+" \/ s = "-") ps -> Forall (fun s => s = "+" \/ s = "-") ms ->
  Forall (fun fliptup => Forall is_sign fliptup /\
                         List.length fliptup = Z.to_nat maxweight) flips ->
  sto_tmpl_pairs maxweight (base_signs ps) (base_signs ms) flips = Ok tmpl ->
  List.length tmpl = (List.length flips * 3 ^ Z.to_nat maxweight)%nat /\
  Forall (same_basis_pair (Z.to_nat maxweight)) tmpl.
Proof.
  intros Hps Hms Hflips H. unfold sto_tmpl_pairs in H.
  destruct (mapM _ flips) as [per_flip|] eqn:E; cbn [bind] in H; [|discriminate].
  injection H as <-.
  assert (Hlen : List.length per_flip = List.length flips) by (eapply mapM_length; exact E).
  assert (Hall : Forall (fun l => List.length l = (3 ^ Z.to_nat maxweight)%nat /\
                                  Forall (same_basis_pair (Z.to_nat maxweight)) l) per_flip).
  { revert E. apply mapM_Forall. intros fliptup l Hin Hl.
    rewrite Forall_forall in Hflips. destruct (Hflips fliptup Hin) as [Hsgn Hfl].
    unfold itertools_product in Hl.
    destruct (maxweight <? 0); cbn [bind] in Hl; [discriminate|].
    split.
    - apply mapM_length in Hl. rewrite Hl. apply (product_repeat_length XYZ).
    - revert Hl. apply mapM_Forall. intros lets pair Hlets Hpair.
      exact (sto_tmpl_pair_shape ps ms fliptup lets _ pair Hps Hms Hsgn Hfl Hlets Hpair). }
  split.
  - rewrite (concat_length_const (3 ^ Z.to_nat maxweight)), Hlen; [reflexivity|].
    eapply Forall_impl; [|exact Hall]. now intros l [Hl _].
  - apply Forall_concat. eapply Forall_impl; [|exact Hall]. now intros l [_ Hl].
Qed.

Lemma zip_same_basis {A B C : Type} (cs : list ascii) (a : list A) (b : list B) (e : list C) :
  Forall (fun z : A * (ascii * (B * (ascii * C))) =>
            let '(_, (P1, (_, (P2, _)))) := z in P1 = P2 /\ In P1 cs)
         (combine a (combine cs (combine b (combine cs e)))).
Proof.
  assert (H : forall pre cs' a b e,
            cs = pre ++ cs' ->
            Forall (fun z : A * (ascii * (B * (ascii * C))) =>
                      let '(_, (P1, (_, (P2, _)))) := z in P1 = P2 /\ In P1 cs)
                   (combine a (combine cs' (combine b (combine cs' e))))).
  { intros pre cs'. revert pre.
    induction cs' as [|c cs' IH]; intros pre a' b' e' Hcs.
    - destruct a'; constructor.
    - destruct a' as [|x a']; [constructor|].
      destruct b' as [|y b']; [constructor|].
      destruct e' as [|w e']; [constructor|].
      cbn [combine]. constructor.
      + split; [reflexivity|]. rewrite Hcs. apply in_or_app. right. now left.
      + apply (IH (pre ++ [c])). now rewrite <- app_assoc. }
  apply (H []). reflexivity.
Qed.

Lemma same_basis_pair_asserts (n : nat) (pair : fidpair) (error : NQPauliOp)
  (outcome : NQOutcome) :
  same_basis_pair n pair ->
  Forall bases_match5 (stochastic_zip (fst pair) error (snd pair)) /\
  Forall affine_qubit_ok (affine_zip (fst pair) error (snd pair) outcome).
Proof.
  intros [Hrep [_ [Hxyz _]]].
  unfold stochastic_zip, affine_zip, zip6, zip5. rewrite <- Hrep. split.
  - eapply Forall_impl; [|apply zip_same_basis].
    intros [s1 [P1 [s2 [P2 E]]]] [H _]. exact H.
  - eapply Forall_impl; [|apply zip_same_basis].
    intros [s1 [P1 [s2 [P2 [E o]]]]] [H Hin]. split; [exact H|].
    rewrite Forall_forall in Hxyz. now apply Hxyz.
Qed.

Lemma affine_jac_element_ok (prep : NQPauliState) (error : NQPauliOp) (meas : NQPauliState)
  (outcome : NQOutcome) :
  Forall affine_qubit_ok (affine_zip prep error meas outcome) ->
  affine_jac_element prep error meas outcome
  = Ok (np_prod (map affine_qubit_rule (affine_zip prep error meas outcome))).
Proof.
  intros H. unfold affine_jac_element.
  change (fun '(s1, (P1, (s2, (P2, (Err, o))))) => affhelper s1 P1 Err s2 P2 o)
    with affine_qubit_helper.
  rewrite (mapM_ok affine_qubit_helper affine_qubit_rule); [reflexivity|].
  eapply Forall_impl; [|exact H].
  intros [s1 [P1 [s2 [P2 [Err o]]]]] [-> HP]. cbn. now apply affhelper_rule.
Qed.

(** The number of sign-flip patterns: one without affine sequences, two
    for maxweight 1 and three for maxweight 2 with them. *)
Definition flip_count (maxweight : Z) (include_affine : bool) : nat :=
  if include_affine then (if maxweight =? 1 then 2%nat else 3%nat) else 1%nat.

Lemma sto_flips_shape (maxweight : Z) (include_affine : bool) (flips : list (list Z)) :
  sto_flips maxweight include_affine = Ok flips ->
  Forall (fun fliptup => Forall is_sign fliptup /\
                         List.length fliptup = Z.to_nat maxweight) flips /\
  List.length flips = flip_count maxweight include_affine.
Proof.
  unfold sto_flips. destruct include_affine.
  - destruct (Z.eqb_spec maxweight 1) as [->|H1].
    + intros H. injection H as <-. split; [|reflexivity].
      repeat constructor; first [now left | now right].
    + destruct (Z.eqb_spec maxweight 2) as [->|H2]; [|discriminate].
      intros H. injection H as <-. split; [|reflexivity].
      repeat constructor; first [now left | now right].
  - intros H. injection H as <-. split; [|reflexivity].
    constructor; [|constructor]. split; [|apply repeat_length].
    apply Forall_forall. intros x Hx. apply repeat_spec in Hx. now left.
Qed.

(** X4. The stochastic (and affine) fiducial pairs that
    [idle_tomography_fidpairs] returns are the tiling of template pairs, one
    per sign-flip pattern and tuple of [maxweight] basis letters: [3^maxweight]
    of them without affine sequences, twice as many with them for
    maxweight 1 and three times as many for maxweight 2. Every template
    pair prepares and measures in the same basis, has [maxweight] letters
    among X, Y, Z and as many signs, each +1 or -1; so on a template pair
    [stochastic_outcome] and [affine_jac_element] pass their assertions
    whatever the error and the outcome are. *)
Theorem stochastic_templates_same_basis (nQubits maxweight : Z) (include_affine : bool)
  (ham_tmpl ps ms : list string) (fidpairs : list fidpair) :
  Forall (fun s => s = "+" \/ s = "-") ps -> Forall (fun s => s = "+" \/ s = "-") ms ->
  idle_tomography_fidpairs nQubits maxweight false true include_affine ham_tmpl ps ms
    = Ok fidpairs ->
  exists tmpl,
    fidpairs = tile_pauli_fidpairs tmpl nQubits maxweight /\
    List.length tmpl
    = (flip_count maxweight include_affine * 3 ^ Z.to_nat maxweight)%nat /\
    Forall (same_basis_pair (Z.to_nat maxweight)) tmpl /\
    forall pair error outcome, In pair tmpl ->
      is_ok (stochastic_outcome (fst pair) error (snd pair)) = true /\
      is_ok (affine_jac_element (fst pair) error (snd pair) outcome) = true.
Proof.
  intros Hps Hms H. unfold idle_tomography_fidpairs in H.
  destruct (sto_flips maxweight include_affine) as [flips|] eqn:Ef; cbn [bind] in H;
    [|discriminate].
  destruct (sto_tmpl_pairs maxweight _ _ flips) as [tmpl|] eqn:Et; cbn [bind app] in H;
    [|discriminate].
  injection H as <-. apply sto_flips_shape in Ef. destruct Ef as [Hflips Hn].
  apply sto_tmpl_pairs_shape in Et; try assumption. destruct Et as [Hlen Hall].
  exists tmpl. split; [reflexivity|]. split; [now rewrite Hlen, Hn|]. split; [exact Hall|].
  intros pair error outcome Hin. rewrite Forall_forall in Hall.
  destruct (same_basis_pair_asserts _ pair error outcome (Hall pair Hin)) as [Hs Ha].
  split.
  - unfold stochastic_outcome. now rewrite (stochastic_outcome_loop_ok _ "" Hs).
  - now rewrite (affine_jac_element_ok _ _ _ _ Ha).
Qed.


(** ** [affine_jac_obs_element] *)

Definition affobs_zip (prep : NQPauliState) (error : NQPauliOp) (meas : NQPauliState)
  (observable : NQPauliOp) :=
  zip6 (state_signs prep) (chars (state_rep prep))
       (state_signs meas) (chars (state_rep meas))
       (chars (op_rep error)) (chars (op_rep observable)).

(** The value one qubit contributes: for observable letter 'I', 1 when
    the error letter is 'I' too and 0 otherwise; for another observable
    letter and error letter 'I', the prep sign when the prep basis is the
    observable's letter and 0 otherwise; else 2 when observable and error
    have the same letter and 0 otherwise. *)
Definition affobs_rule (prepSign : Z) (prepBasis errP obsP : ascii) : Z :=
  if Ascii.eqb obsP "I" then (if Ascii.eqb errP "I" then 1 else 0)
  else if Ascii.eqb errP "I" then (if Ascii.eqb prepBasis obsP then prepSign else 0)
  else (if Ascii.eqb obsP errP then 2 else 0).

Definition affobs_qubit_ok (z : Z * (ascii * (Z * (ascii * (ascii * ascii))))) : Prop :=
  let '(_, (P1, (_, (P2, _)))) := z in is_XYZ P1 = true /\ is_XYZ P2 = true.

Definition affobs_qubit_rule (z : Z * (ascii * (Z * (ascii * (ascii * ascii))))) : Z :=
  let '(s1, (P1, (_, (_, (Err, o))))) := z in affobs_rule s1 P1 Err o.

Definition affobs_qubit_helper (z : Z * (ascii * (Z * (ascii * (ascii * ascii)))))
  : result Z :=
  let '(s1, (P1, (s2, (P2, (Err, o))))) := z in affobshelper s1 P1 Err s2 P2 o.

Lemma affobshelper_value s1 P1 e s2 P2 o :
  affobshelper s1 P1 e s2 P2 o
  = if is_XYZ P1 && is_XYZ P2 then Ok (affobs_rule s1 P1 e o) else Raise (AssertionError "").
Proof.
  unfold affobshelper, affobs_rule, py_assert.
  destruct (is_XYZ P1); cbn [bind andb]; [|reflexivity].
  destruct (is_XYZ P2); cbn [bind]; [|reflexivity].
  destruct (Ascii.eqb o "I"); [reflexivity|]. destruct (Ascii.eqb e "I"); reflexivity.
Qed.

Lemma np_prod_zero (l : list Z) : In 0 l -> np_prod l = 0.
Proof.
  unfold np_prod. induction l as [|a l IH]; cbn; [tauto|].
  intros [-> | H]; [reflexivity|]. rewrite (IH H). lia.
Qed.

Lemma combine_map_r {A B C : Type} (f : B -> C) (a : list A) (b : list B) :
  combine a (map f b) = map (fun p => (fst p, f (snd p))) (combine a b).
Proof.
  revert b. induction a as [|x a IH]; intros [|y b]; cbn; [reflexivity..|].
  now rewrite IH.
Qed.

Lemma affobs_meas_signs (a : list Z) (b : list ascii) (s s' : list Z)
  (tl : list (ascii * (ascii * ascii))) :
  List.length s' = List.length s ->
  mapM affobs_qubit_helper (combine a (combine b (combine s' tl)))
  = mapM affobs_qubit_helper (combine a (combine b (combine s tl))).
Proof.
  revert b s s' tl.
  induction a as [|x a IH]; intros b s s' tl Hl; [reflexivity|].
  destruct b as [|y b]; [reflexivity|].
  destruct s as [|u s], s' as [|u' s']; try discriminate Hl; [reflexivity|].
  destruct tl as [|[P2 [Err o]] tl]; [reflexivity|].
  cbn [combine mapM affobs_qubit_helper]. rewrite !affobshelper_value.
  rewrite (IH b s s' tl) by (cbn in Hl; lia). reflexivity.
Qed.

Lemma int64_wraps (z : Z) : exists q, int64 z = z + 2 ^ 64 * q.
Proof.
  exists (- ((z + 2 ^ 63) / 2 ^ 64)). unfold int64.
  rewrite Z.mod_eq by (apply Z.pow_nonzero; lia). lia.
Qed.

Lemma int64_congruent (a b q : Z) : a = b + 2 ^ 64 * q -> int64 a = int64 b.
Proof.
  intros ->. unfold int64. f_equal.
  replace (b + 2 ^ 64 * q + 2 ^ 63) with (b + 2 ^ 63 + q * 2 ^ 64) by lia.
  apply Z_mod_plus_full.
Qed.

Lemma int64_mul_l (a b : Z) : int64 (int64 a * b) = int64 (a * b).
Proof.
  destruct (int64_wraps a) as [q Hq]. apply (int64_congruent _ _ (q * b)).
  rewrite Hq. ring.
Qed.

Lemma int64_in_range (z : Z) : - 2 ^ 63 <= z < 2 ^ 63 -> int64 z = z.
Proof. intros H. unfold int64. rewrite Z.mod_small; lia. Qed.

(** Multiplying in [int64] step by step gives the exact product, wrapped
    once. *)
Lemma np_prod_int64_wraps (l : list Z) : np_prod_int64 l = int64 (np_prod l).
Proof.
  assert (H : forall acc,
            fold_left (fun acc a => int64 (acc * a)) l (int64 acc)
            = int64 (acc * np_prod l)).
  { unfold np_prod. induction l as [|a l IH]; intros acc; cbn [fold_left fold_right].
    - now rewrite Z.mul_1_r.
    - rewrite int64_mul_l, IH. f_equal. ring. }
  unfold np_prod_int64. rewrite <- (Z.mul_1_l (np_prod l)). exact (H 1).
Qed.

Lemma np_prod_bound (l : list Z) :
  Forall (fun a => -2 <= a <= 2) l -> Z.abs (np_prod l) <= 2 ^ Z.of_nat (List.length l).
Proof.
  unfold np_prod. induction 1 as [|a l Ha _ IH]; cbn [fold_right List.length]; [cbn; lia|].
  rewrite Nat2Z.inj_succ, Z.pow_succ_r by lia. rewrite Z.abs_mul.
  apply Z.mul_le_mono_nonneg; lia.
Qed.

Lemma np_prod_int64_exact (l : list Z) :
  Forall (fun a => -2 <= a <= 2) l -> (List.length l <= 62)%nat ->
  np_prod_int64 l = np_prod l.
Proof.
  intros H Hlen. rewrite np_prod_int64_wraps. apply int64_in_range.
  pose proof (np_prod_bound l H) as Hb.
  assert (Hp : 2 ^ Z.of_nat (List.length l) <= 2 ^ 62) by (apply Z.pow_le_mono_r; lia).
  lia.
Qed.

Lemma affobs_rule_range (z : Z * (ascii * (Z * (ascii * (ascii * ascii))))) :
  is_sign (fst z) -> -2 <= affobs_qubit_rule z <= 2.
Proof.
  destruct z as [s1 [P1 [s2 [P2 [Err o]]]]]. cbn [fst affobs_qubit_rule].
  unfold affobs_rule, is_sign. intros Hs.
  destruct (Ascii.eqb o "I"), (Ascii.eqb Err "I"), (Ascii.eqb P1 o), (Ascii.eqb o Err); lia.
Qed.

(** X5. [affine_jac_obs_element(prep, error, meas, observable)] is the
    product over the qubits (as far as the shortest of the six sequences
    goes) of the per-qubit value, taken as [numpy.prod] takes it: in 64-bit
    integers, wrapping around. For prep signs +1 or -1 the per-qubit values
    lie between -2 and 2, so up to 62 qubits the result is the exact
    product. The function raises [AssertionError] exactly when the prep or
    the meas basis letter of one of these qubits is not X, Y or Z; unlike
    [affine_jac_element] it accepts prep and meas bases that differ. The
    result is 0 as soon as one qubit contributes 0, and it depends on [meas]
    only through its basis letters being valid and the number of its signs:
    the meas signs play no part. *)
Theorem affine_jac_obs_element_product
  (prep : NQPauliState) (error : NQPauliOp) (meas : NQPauliState) (observable : NQPauliOp) :
  let zs := affobs_zip prep error meas observable in
  (Forall affobs_qubit_ok zs ->
     affine_jac_obs_element prep error meas observable
       = Ok (int64 (np_prod (map affobs_qubit_rule zs)))) /\
  (Forall affobs_qubit_ok zs -> Forall is_sign (state_signs prep) ->
   (List.length zs <= 62)%nat ->
     affine_jac_obs_element prep error meas observable
       = Ok (np_prod (map affobs_qubit_rule zs))) /\
  (~ Forall affobs_qubit_ok zs ->
     affine_jac_obs_element prep error meas observable = Raise (AssertionError "")) /\
  (Forall affobs_qubit_ok zs -> Exists (fun z => affobs_qubit_rule z = 0) zs ->
     affine_jac_obs_element prep error meas observable = Ok 0) /\
  (forall signs', List.length signs' = List.length (state_signs meas) ->
     affine_jac_obs_element prep error (mkState (state_rep meas) signs') observable
       = affine_jac_obs_element prep error meas observable).
Proof.
  intros zs.
  assert (Hfun : forall p m,
            affine_jac_obs_element p error m observable
            = (do factors <- mapM affobs_qubit_helper (affobs_zip p error m observable) ;;
               Ok (np_prod_int64 factors))) by reflexivity.
  assert (Hok : Forall affobs_qubit_ok zs ->
                affine_jac_obs_element prep error meas observable
                = Ok (int64 (np_prod (map affobs_qubit_rule zs)))).
  { intros H. rewrite Hfun. fold zs.
    rewrite (mapM_ok affobs_qubit_helper affobs_qubit_rule).
    - cbn [bind]. now rewrite np_prod_int64_wraps.
    - eapply Forall_impl; [|exact H].
      intros [s1 [P1 [s2 [P2 [Err o]]]]] [H1 H2]. cbn.
      now rewrite affobshelper_value, H1, H2. }
  split; [exact Hok|]. split; [|split; [|split]].
  - intros H Hs Hlen. rewrite (Hok H), <- np_prod_int64_wraps.
    rewrite np_prod_int64_exact; [reflexivity| |now rewrite length_map].
    apply Forall_map. apply Forall_forall. intros z Hz. apply affobs_rule_range.
    unfold zs, affobs_zip, zip6 in Hz. destruct z as [s1 rest]. apply in_combine_l in Hz.
    cbn [fst]. rewrite Forall_forall in Hs. now apply Hs.
  - intros H. rewrite Hfun. fold zs.
    destruct (mapM_raise affobs_qubit_helper (fun e => e = AssertionError "") zs)
      as [e [-> ->]]; [| |reflexivity].
    + intros [s1 [P1 [s2 [P2 [Err o]]]]] e _. cbn. rewrite affobshelper_value.
      destruct (is_XYZ P1 && is_XYZ P2); [discriminate|]. intros E. now injection E.
    + apply Exists_Forall_neg in H.
      * eapply Exists_impl; [|exact H].
        intros [s1 [P1 [s2 [P2 [Err o]]]]] Hn. cbn in *. rewrite affobshelper_value.
        destruct (is_XYZ P1), (is_XYZ P2); cbn; try reflexivity. exfalso; auto.
      * intros [s1 [P1 [s2 [P2 [Err o]]]]]. cbn.
        destruct (is_XYZ P1), (is_XYZ P2); intuition congruence.
  - intros H Hz. rewrite (Hok H). f_equal.
    rewrite np_prod_zero; [reflexivity|].
    apply Exists_exists in Hz. destruct Hz as [z [Hin Hz]].
    rewrite <- Hz. now apply in_map.
  - intros signs' Hlen. rewrite !Hfun. unfold affobs_zip, zip6, zip5.
    cbn [state_rep state_signs].
    now rewrite (affobs_meas_signs _ _ (state_signs meas) signs' _ Hlen).
Qed.


(** ** The points the two estimators fit *)

(** The circuit of a fiducial pair at one length: [prepFid + GiStr*L + measFid]. *)
Definition sweep_circuit (pauli_fidpair : fidpair) (pauliDicts : paulidict * paulidict)
  (GiStr : GateString) (L : Z) : GateString :=
  to_gatestring (fst pauli_fidpair) (fst pauliDicts) ++ gs_repeat GiStr L
  ++ to_gatestring (snd pauli_fidpair) (snd pauliDicts).




Lemma gather_points_missing (point : GateString -> result (R * R))
  (prepFid GiStr measFid : GateString) (maxLengths : list Z) (L : Z) :
  In L maxLengths -> is_ok (point (prepFid ++ gs_repeat GiStr L ++ measFid)) = false ->
  is_ok (gather_points point prepFid GiStr measFid maxLengths) = false.
Proof.
  induction maxLengths as [|L' rest IH]; cbn [gather_points In]; [tauto|].
  intros [-> | Hin] HL.
  - destruct (point _); [discriminate|reflexivity].
  - destruct (point (prepFid ++ gs_repeat GiStr L' ++ measFid)); [|reflexivity].
    cbn [bind]. specialize (IH Hin HL).
    destruct (gather_points point prepFid GiStr measFid rest); [discriminate|reflexivity].
Qed.













Lemma bind_fails {A B : Type} (r : result A) (k : A -> result B) :
  is_ok r = false -> is_ok (bind r k) = false.
Proof. destruct r; [discriminate|reflexivity]. Qed.

(** X8. Neither estimator returns when the data set lacks the circuit
    [prepFid + GiStr*L + measFid] of one of the lengths; the stochastic one
    raises the data set's [KeyError] when it is the circuit of the first
    length. *)
Theorem missing_circuit_fails (pauli_fidpair : fidpair) (pauliDicts : paulidict * paulidict)
  (GiStr : GateString) (outcome : NQOutcome) (observable : NQPauliOp)
  (maxLengths : list Z) (fitOrder : Z) (L : Z) :
  In L maxLengths ->
  dataset (sweep_circuit pauli_fidpair pauliDicts GiStr L) = None ->
  is_ok (get_obs_stochastic_err_rate pauli_fidpair pauliDicts GiStr outcome maxLengths
           fitOrder) = false /\
  is_ok (get_obs_hamiltonian_err_rate pauli_fidpair pauliDicts GiStr observable maxLengths
           fitOrder) = false /\
  (forall rest, maxLengths = L :: rest ->
     get_obs_stochastic_err_rate pauli_fidpair pauliDicts GiStr outcome maxLengths fitOrder
     = Raise (KeyError "gatestring")).
Proof.
  intros Hin Hnone. destruct pauli_fidpair as [pp pm], pauliDicts as [pd md].
  unfold sweep_circuit in Hnone. cbn [fst snd] in Hnone.
  split; [|split].
  - unfold get_obs_stochastic_err_rate.
    apply bind_fails. apply (gather_points_missing _ _ _ _ maxLengths L Hin).
    unfold freq_and_weight, dataset_row. now rewrite Hnone.
  - unfold get_obs_hamiltonian_err_rate.
    destruct (mapM _ _) as [signs|]; cbn [bind]; [|reflexivity].
    apply bind_fails. apply (gather_points_missing _ _ _ _ maxLengths L Hin).
    unfold unsigned_exptn_and_weight, dataset_row. now rewrite Hnone.
  - intros rest ->. unfold get_obs_stochastic_err_rate. cbn [gather_points].
    unfold freq_and_weight at 1, dataset_row. now rewrite Hnone.
Qed.


(** ** [do_idle_tomography]: the jacobian mode and the records it keeps *)

Lemma stochastic_finish_unknown_mode ea mode fps g st :
  mode <> "separate" -> mode <> "together" ->
  stochastic_finish ea mode fps g st
  = if ea then Raise (ValueError "Invalid `jacmode` == %s")
    else Ok (set_keys st "stochastic" fps (snd g)).
Proof.
  intros Hs Ht. apply String.eqb_neq in Hs, Ht. unfold stochastic_finish.
  rewrite Hs, Ht. destruct ea; reflexivity.
Qed.

Lemma hamiltonian_finish_unknown_mode ea mode fps g st :
  mode <> "separate" -> mode <> "together" ->
  hamiltonian_finish ea mode fps g st = Ok (set_keys st "hamiltonian" fps (snd g)).
Proof.
  intros Hs Ht. apply String.eqb_neq in Hs, Ht. destruct g as [[my_J my_Jaff] infs].
  unfold hamiltonian_finish. rewrite Hs, Ht. reflexivity.
Qed.

(** X9. A jacobian mode other than "separate" and "together" is not
    refused as such. With stochastic and affine rates requested the run
    fails (once the stochastic stage has gathered its rows, with the
    [ValueError] on the mode, whose message is kept as the format string of
    the source). Without affine rates whatever run returns
    has inverted nothing: its intrinsic rates are empty. *)
Theorem unknown_jacobian_mode nQubits maxLengths prepDict measDict maxErrWeight GiStr
  (eh es ea : bool) (o : AdvancedOptions) :
  jacobian_mode o <> "separate" -> jacobian_mode o <> "together" ->
  let run := do_idle_tomography nQubits maxLengths (prepDict, measDict) maxErrWeight GiStr
               eh es ea o in
  (ea = true -> is_ok run = false) /\
  (forall res, run = Ok res -> res_intrinsic_rates res = []) /\
  (es = true -> ea = true ->
   forall pps pms fps g,
     preferred_signs (opt_preferred_prep_basis_signs o) prepDict = Ok pps ->
     preferred_signs (opt_preferred_meas_basis_signs o) measDict = Ok pms ->
     stochastic_fidpairs nQubits maxErrWeight es ea o pps pms
       (option_map (filter same_basis) (opt_pauli_fidpairs o)) = Ok fps ->
     stochastic_gather ea (allerrors nQubits maxErrWeight) (prepDict, measDict) GiStr
       maxLengths (fit_order o) maxErrWeight fps = Ok g ->
     run = Raise (ValueError "Invalid `jacmode` == %s")).
Proof.
  intros Hs Ht run.
  assert (Hrates : forall res, run = Ok res -> res_intrinsic_rates res = [] /\ ea = false).
  { intros res Hrun. apply run_stages in Hrun.
    destruct Hrun as [pps [pms [st1 [st2 [st3 [_ [_ [H1 [H2 [H3 ->]]]]]]]]]].
    apply String.eqb_neq in Ht. rewrite Ht in H3. subst st3.
    assert (H1' : intrinsic_rates st1 = [] /\ ea = false).
    { destruct es.
      - apply stochastic_stage_ok in H1. destruct H1 as [fps [g [_ [_ Hfin]]]].
        apply String.eqb_neq in Ht.
        rewrite (stochastic_finish_unknown_mode _ _ _ _ _ Hs Ht) in Hfin.
        destruct ea; [discriminate|]. injection Hfin as <-. split; reflexivity.
      - destruct H1 as [-> ->]. split; reflexivity. }
    destruct H1' as [Hr1 Hea]. split; [|exact Hea].
    destruct eh; [|now subst st2].
    apply hamiltonian_stage_ok in H2. destruct H2 as [fps [g [_ [_ Hfin]]]].
    apply String.eqb_neq in Ht.
    rewrite (hamiltonian_finish_unknown_mode _ _ _ _ _ Hs Ht) in Hfin.
    injection Hfin as <-. exact Hr1. }
  split; [|split].
  - intros ->. destruct run as [res|] eqn:E; [|reflexivity].
    destruct (Hrates res eq_refl) as [_ H]. discriminate.
  - intros res Hrun. now apply Hrates.
  - intros -> -> pps pms fps g Hp Hm Hf Hg. unfold run, do_idle_tomography.
    rewrite Hp, Hm. cbn [bind]. unfold stochastic_stage. rewrite Hf. cbn [bind].
    rewrite Hg. cbn [bind]. rewrite (stochastic_finish_unknown_mode _ _ _ _ _ Hs Ht).
    reflexivity.
Qed.

Lemma foldM_count {St A : Type} (f : St -> A -> result St) (m : St -> nat) (l : list A) :
  (forall s a s', f s a = Ok s' -> m s' = S (m s)) ->
  forall s0 s, foldM f l s0 = Ok s -> m s = (m s0 + List.length l)%nat.
Proof.
  intros Hstep. induction l as [|a l IH]; cbn [foldM List.length]; intros s0 s H.
  - injection H as <-. lia.
  - destruct (f s0 a) as [s1|] eqn:E; cbn [bind] in H; [|discriminate].
    apply IH in H. rewrite H, (Hstep _ _ _ E). lia.
Qed.

Lemma stochastic_gather_infos ea errors dicts GiStr maxLengths fitOrder mw fps g :
  stochastic_gather ea errors dicts GiStr maxLengths fitOrder mw fps = Ok g ->
  List.length (snd g) = List.length fps.
Proof.
  unfold stochastic_gather. intros H.
  apply (foldM_count _ (fun s => List.length (snd s))) in H; [exact H|].
  intros [J O] fp s' Hs. unfold stochastic_fidpair_step in Hs.
  destruct (foldM (stochastic_outcome_step ea errors dicts GiStr maxLengths fitOrder fp)
              (alloutcomes (fst fp) (snd fp) mw) (J, [])) as [r|];
    cbn [bind] in Hs; [|discriminate].
  injection Hs as <-. cbn [snd]. rewrite length_app. cbn. lia.
Qed.

Lemma hamiltonian_gather_infos ea errors dicts GiStr maxLengths fitOrder mw fps g :
  hamiltonian_gather ea errors dicts GiStr maxLengths fitOrder mw fps = Ok g ->
  List.length (snd g) = List.length fps.
Proof.
  unfold hamiltonian_gather. intros H.
  apply (foldM_count _ (fun s => List.length (snd s))) in H; [exact H|].
  intros [[J Ja] O] fp s' Hs. unfold hamiltonian_fidpair_step in Hs.
  destruct (foldM (hamiltonian_observable_step ea errors dicts GiStr maxLengths fitOrder fp)
              (allobservables (snd fp) mw) (J, Ja, [])) as [[[J1 Ja1] I1]|];
    cbn [bind] in Hs; [|discriminate].
  injection Hs as <-. cbn [snd]. rewrite length_app. cbn. lia.
Qed.

Lemma stochastic_finish_keys ea mode fps g st st' :
  stochastic_finish ea mode fps g st = Ok st' ->
  pauli_fidpair_dict st' = dict_set (pauli_fidpair_dict st) (sto_key ea) fps /\
  observed_rate_infos st' = dict_set (observed_rate_infos st) (sto_key ea) (snd g).
Proof.
  unfold stochastic_finish.
  destruct (if String.eqb mode "separate" then _ else _) as [x|]; cbn [bind]; [|discriminate].
  destruct ea.
  - destruct (String.eqb mode "separate"); cbn [bind].
    + intros H. injection H as <-. split; reflexivity.
    + destruct (String.eqb mode "together"); cbn [bind]; [|discriminate].
      intros H. injection H as <-. split; reflexivity.
  - intros H. injection H as <-.
    destruct (String.eqb mode "separate"); [split; reflexivity|].
    destruct (String.eqb mode "together"); split; reflexivity.
Qed.

Lemma hamiltonian_finish_keys ea mode fps g st st' :
  hamiltonian_finish ea mode fps g st = Ok st' ->
  pauli_fidpair_dict st' = dict_set (pauli_fidpair_dict st) "hamiltonian" fps /\
  observed_rate_infos st' = dict_set (observed_rate_infos st) "hamiltonian" (snd g).
Proof.
  destruct g as [[my_J my_Jaff] infs]. unfold hamiltonian_finish.
  destruct (String.eqb mode "separate").
  - destruct (if ea then _ else _) as [obs|]; cbn [bind]; [|discriminate].
    destruct (invert_site _ _ _ _) as [h|]; cbn [bind]; [|discriminate].
    intros H. injection H as <-. split; reflexivity.
  - destruct (String.eqb mode "together").
    + destruct (if ea then _ else _) as [hj|]; cbn [bind]; [|discriminate].
      intros H. injection H as <-. split; reflexivity.
    + cbn [bind]. intros H. injection H as <-. split; reflexivity.
Qed.

Lemma joint_inversion_keys eh es ea n st st' :
  joint_inversion eh es ea n st = Ok st' ->
  pauli_fidpair_dict st' = pauli_fidpair_dict st /\
  observed_rate_infos st' = observed_rate_infos st.
Proof.
  unfold joint_inversion.
  destruct (assemble_Jbig eh es ea n st) as [[[Jbig cols] obs]|]; cbn [bind]; [|discriminate].
  destruct (invert_site _ _ _ _) as [X|]; cbn [bind]; [|discriminate].
  intros H. destruct eh, es, ea; injection H as <-; split; reflexivity.
Qed.

(** A run that returns, stage by stage, with the record it builds. *)
Lemma run_stages_records nQubits maxLengths prepDict measDict maxErrWeight GiStr
  (eh es ea : bool) (o : AdvancedOptions) (res : IdleTomographyResults) :
  do_idle_tomography nQubits maxLengths (prepDict, measDict) maxErrWeight GiStr eh es ea o
    = Ok res ->
  exists pps pms st1 st2 st3,
    preferred_signs (opt_preferred_prep_basis_signs o) prepDict = Ok pps /\
    preferred_signs (opt_preferred_meas_basis_signs o) measDict = Ok pms /\
    (if es
     then stochastic_stage nQubits maxLengths (prepDict, measDict) maxErrWeight GiStr es ea o
            (jacobian_mode o) pps pms (option_map (filter same_basis) (opt_pauli_fidpairs o))
            (allerrors nQubits maxErrWeight) (fit_order o) initial_state = Ok st1
     else ea = false /\ st1 = initial_state) /\
    (if eh
     then hamiltonian_stage nQubits maxLengths (prepDict, measDict) maxErrWeight GiStr eh ea o
            (jacobian_mode o) pps pms
            (option_map (filter (fun fp => negb (same_basis fp))) (opt_pauli_fidpairs o))
            (allerrors nQubits maxErrWeight) (fit_order o) st1 = Ok st2
     else st2 = st1) /\
    (if String.eqb (jacobian_mode o) "together"
     then joint_inversion eh es ea (List.length (allerrors nQubits maxErrWeight)) st2 = Ok st3
     else st3 = st2) /\
    res = mkResults maxLengths maxErrWeight (fit_order o) (allerrors nQubits maxErrWeight)
            (intrinsic_rates st3) (pauli_fidpair_dict st3) (observed_rate_infos st3).
Proof.
  intros H. unfold do_idle_tomography in H.
  destruct (preferred_signs _ prepDict) as [pps|]; cbn [bind] in H; [|discriminate].
  destruct (preferred_signs _ measDict) as [pms|]; cbn [bind] in H; [|discriminate].
  match type of H with
  | bind ?s1 _ = _ => destruct s1 as [st1|] eqn:E1; cbn [bind] in H; [|discriminate]
  end.
  match type of H with
  | bind ?s2 _ = _ => destruct s2 as [st2|] eqn:E2; cbn [bind] in H; [|discriminate]
  end.
  match type of H with
  | bind ?s3 _ = _ => destruct s3 as [st3|] eqn:E3; cbn [bind] in H; [|discriminate]
  end.
  injection H as <-.
  exists pps, pms, st1, st2, st3. repeat split.
  - destruct es; [exact E1|]. destruct ea; [discriminate|]. now inversion E1.
  - destruct eh; [exact E2|]. now inversion E2.
  - destruct (String.eqb (jacobian_mode o) "together"); [exact E3|]. now inversion E3.
Qed.

(** The entries a run files under the keys of its stages. *)
Definition stage_entries {V : Type} (eh es ea : bool) (sto ham : V) : list (string * V) :=
  (if es then [(sto_key ea, sto)] else []) ++ (if eh then [("hamiltonian", ham)] else []).

(** X10. What a run that returns records besides the rates: the lengths,
    the error weight, the fit order (1 unless the options give one) and the
    enumerated errors it worked with; under the key of each stage that ran
    ("stochastic", or "stochastic/affine" with affine rates, and
    "hamiltonian") the fiducial pairs of the stage, and under the same key
    one record of fits per fiducial pair. When the options give
    [pauli_fidpairs], the stochastic stage gets the pairs whose prep and
    meas have the same basis letters and the Hamiltonian stage all the
    others, each in the given order, signs playing no part. When they give
    none, each stage gets the pairs [idle_tomography_fidpairs] generates
    for it, from the preferred signs and the template of the options. *)
Theorem run_records_stage_pairs nQubits maxLengths prepDict measDict maxErrWeight GiStr
  (eh es ea : bool) (o : AdvancedOptions) (res : IdleTomographyResults) :
  do_idle_tomography nQubits maxLengths (prepDict, measDict) maxErrWeight GiStr eh es ea o
    = Ok res ->
  res_maxLengths res = maxLengths /\ res_maxErrWeight res = maxErrWeight /\
  res_fitOrder res = fit_order o /\ res_errors res = allerrors nQubits maxErrWeight /\
  exists pps pms sfps hfps sto_infos ham_infos,
    preferred_signs (opt_preferred_prep_basis_signs o) prepDict = Ok pps /\
    preferred_signs (opt_preferred_meas_basis_signs o) measDict = Ok pms /\
    res_pauli_fidpair_dict res = stage_entries eh es ea sfps hfps /\
    res_observed_rate_infos res = stage_entries eh es ea sto_infos ham_infos /\
    (es = true -> List.length sto_infos = List.length sfps) /\
    (eh = true -> List.length ham_infos = List.length hfps) /\
    match opt_pauli_fidpairs o with
    | Some fps =>
        (es = true -> sfps = filter same_basis fps) /\
        (eh = true -> hfps = filter (fun fp => negb (same_basis fp)) fps)
    | None =>
        let ham_tmpl :=
          match opt_ham_tmpl o with Some t => t | None => default_ham_tmpl end in
        (es = true ->
         idle_tomography_fidpairs nQubits maxErrWeight false true ea ham_tmpl pps pms
           = Ok sfps) /\
        (eh = true ->
         idle_tomography_fidpairs nQubits maxErrWeight true false false ham_tmpl pps pms
           = Ok hfps)
    end.
Proof.
  intros Hrun. apply run_stages_records in Hrun.
  destruct Hrun as [pps [pms [st1 [st2 [st3 [Hpp [Hpm [H1 [H2 [H3 ->]]]]]]]]]].
  cbn [res_maxLengths res_maxErrWeight res_fitOrder res_errors res_pauli_fidpair_dict
       res_observed_rate_infos].
  repeat (split; [reflexivity|]).
  assert (K3 : pauli_fidpair_dict st3 = pauli_fidpair_dict st2 /\
               observed_rate_infos st3 = observed_rate_infos st2).
  { destruct (String.eqb (jacobian_mode o) "together"); [|now subst st3].
    now apply joint_inversion_keys in H3. }
  destruct K3 as [-> ->].
  assert (K1 : exists sfps sto_infos,
             pauli_fidpair_dict st1 = (if es then [(sto_key ea, sfps)] else []) /\
             observed_rate_infos st1 = (if es then [(sto_key ea, sto_infos)] else []) /\
             (es = true -> List.length sto_infos = List.length sfps) /\
             (es = true ->
              stochastic_fidpairs nQubits maxErrWeight true ea o pps pms
                (option_map (filter same_basis) (opt_pauli_fidpairs o)) = Ok sfps)).
  { destruct es.
    - apply stochastic_stage_ok in H1. destruct H1 as [fps1 [g [Hf [Hg Hfin]]]].
      apply stochastic_finish_keys in Hfin. destruct Hfin as [-> ->].
      exists fps1, (snd g). repeat split; intros _; [|exact Hf].
      now apply stochastic_gather_infos in Hg.
    - destruct H1 as [_ ->]. exists [], []. repeat split; discriminate. }
  destruct K1 as [sfps [sto_infos [K1 [K1' [K1'' Ks]]]]].
  assert (K2 : exists hfps ham_infos,
             pauli_fidpair_dict st2
             = pauli_fidpair_dict st1 ++ (if eh then [("hamiltonian", hfps)] else []) /\
             observed_rate_infos st2
             = observed_rate_infos st1 ++ (if eh then [("hamiltonian", ham_infos)] else []) /\
             (eh = true -> List.length ham_infos = List.length hfps) /\
             (eh = true ->
              hamiltonian_fidpairs nQubits maxErrWeight true o pps pms
                (option_map (filter (fun fp => negb (same_basis fp))) (opt_pauli_fidpairs o))
              = Ok hfps)).
  { destruct eh.
    - apply hamiltonian_stage_ok in H2. destruct H2 as [fps2 [g [Hf [Hg Hfin]]]].
      apply hamiltonian_finish_keys in Hfin. destruct Hfin as [-> ->]. rewrite K1, K1'.
      exists fps2, (snd g).
      split; [destruct es; [destruct ea|]; reflexivity|].
      split; [destruct es; [destruct ea|]; reflexivity|].
      split; [|intros _; exact Hf]. intros _. now apply hamiltonian_gather_infos in Hg.
    - subst st2. exists [], []. rewrite !app_nil_r. repeat split; discriminate. }
  destruct K2 as [hfps [ham_infos [K2 [K2' [K2'' Kh]]]]].
  exists pps, pms, sfps, hfps, sto_infos, ham_infos.
  split; [exact Hpp|]. split; [exact Hpm|].
  split; [rewrite K2, K1; reflexivity|]. split; [rewrite K2', K1'; reflexivity|].
  split; [exact K1''|]. split; [exact K2''|].
  unfold stochastic_fidpairs in Ks. unfold hamiltonian_fidpairs in Kh.
  destruct (opt_pauli_fidpairs o) as [fps|]; cbn [option_map] in Ks, Kh.
  - split; intros E; [specialize (Ks E)|specialize (Kh E)]; congruence.
  - cbv zeta. split; intros E; [exact (Ks E)|exact (Kh E)].
Qed.


(** ** [do_idle_tomography] in jacobian mode "separate": the stages *)

Lemma hamiltonian_finish_separate_plain fps my_J my_Jaff my_infos st :
  hamiltonian_finish false "separate" fps (my_J, my_Jaff, my_infos) st
  = (do h <- invert_site
               "Idle tomography: hamiltonian-jacobian rank (%d) < #intrinsic rates (%d)"
               (to_matrix my_J) (shape1 (to_matrix my_J)) (Ok (observed_rates my_infos)) ;;
     Ok (set_keys (set_rate st "hamiltonian" h) "hamiltonian" fps my_infos)).
Proof.
  unfold hamiltonian_finish. cbn [String.eqb Ascii.eqb Bool.eqb bind].
  destruct (invert_site _ _ _ _); reflexivity.
Qed.

Lemma separate_sto_rates_keys ea x :
  dict_get (separate_sto_rates ea x) "hamiltonian" = None.
Proof. destruct ea; reflexivity. Qed.

(** X11. In jacobian mode "separate" the stages do not disturb each
    other. Whenever a run returns, the run that asks for the same
    stochastic (and affine) rates but no Hamiltonian ones returns too and
    gives the same rates for every class but "hamiltonian", for which it has
    none. Without affine rates, the run that asks for the Hamiltonian rates
    alone returns too and gives the same Hamiltonian rates. (With affine
    rates the Hamiltonian stage uses the affine rates of the first stage.) *)
Theorem separate_stages_independent nQubits maxLengths prepDict measDict maxErrWeight GiStr
  (eh es ea : bool) (o : AdvancedOptions) (res : IdleTomographyResults) :
  jacobian_mode o = "separate" ->
  do_idle_tomography nQubits maxLengths (prepDict, measDict) maxErrWeight GiStr eh es ea o
    = Ok res ->
  (exists res_s,
     do_idle_tomography nQubits maxLengths (prepDict, measDict) maxErrWeight GiStr
       false es ea o = Ok res_s /\
     dict_get (res_intrinsic_rates res_s) "hamiltonian" = None /\
     forall cls, cls <> "hamiltonian" ->
       dict_get (res_intrinsic_rates res_s) cls = dict_get (res_intrinsic_rates res) cls) /\
  (ea = false ->
   exists res_h,
     do_idle_tomography nQubits maxLengths (prepDict, measDict) maxErrWeight GiStr
       eh false false o = Ok res_h /\
     dict_get (res_intrinsic_rates res_h) "hamiltonian"
     = dict_get (res_intrinsic_rates res) "hamiltonian").
Proof.
  intros Hmode Hrun. apply run_stages in Hrun.
  destruct Hrun as [pps [pms [st1 [st2 [st3 [Hpp [Hpm [H1 [H2 [H3 Hres]]]]]]]]]].
  rewrite Hmode in H1, H2, H3. cbn [String.eqb Ascii.eqb Bool.eqb] in H3. subst st3.
  assert (Hst1 : dict_get (intrinsic_rates st1) "hamiltonian" = None).
  { destruct es.
    - apply stochastic_stage_ok in H1. destruct H1 as [fps [g [_ [_ Hfin]]]].
      apply stochastic_finish_separate in Hfin. destruct Hfin as [_ [x [_ ->]]].
      destruct ea; reflexivity.
    - destruct H1 as [_ ->]. reflexivity. }
  assert (Hst2 : exists fps g,
             eh = true ->
             hamiltonian_fidpairs nQubits maxErrWeight eh o pps pms
               (option_map (filter (fun fp => negb (same_basis fp))) (opt_pauli_fidpairs o))
             = Ok fps /\
             hamiltonian_gather ea (allerrors nQubits maxErrWeight) (prepDict, measDict)
               GiStr maxLengths (fit_order o) maxErrWeight fps = Ok g /\
             hamiltonian_finish ea "separate" fps g st1 = Ok st2).
  { destruct eh.
    - apply hamiltonian_stage_ok in H2. destruct H2 as [fps [g H2]].
      exists fps, g. intros _. exact H2.
    - exists [], ([], [], []). discriminate. }
  destruct Hst2 as [hfps [hg Hst2]].
  split.
  - exists (mkResults maxLengths maxErrWeight (fit_order o) (allerrors nQubits maxErrWeight)
              (intrinsic_rates st1) (pauli_fidpair_dict st1) (observed_rate_infos st1)).
    split; [|split].
    + unfold do_idle_tomography. rewrite Hpp, Hpm, Hmode. cbn [bind].
      destruct es.
      * rewrite H1. reflexivity.
      * destruct H1 as [-> ->]. reflexivity.
    + exact Hst1.
    + intros cls Hcls. cbn [res_intrinsic_rates]. rewrite Hres.
      destruct eh; [|now subst st2].
      destruct (Hst2 eq_refl) as [_ [_ Hfin]].
      apply hamiltonian_finish_separate_rates in Hfin. destruct Hfin as [h ->].
      symmetry. apply dict_get_set_other. congruence.
  - intros ->. destruct eh.
    + destruct (Hst2 eq_refl) as [Hf [Hg Hfin]]. destruct hg as [[my_J my_Jaff] my_infos].
      rewrite hamiltonian_finish_separate_plain in Hfin.
      destruct (invert_site _ _ _ _) as [h|] eqn:Eh; cbn [bind] in Hfin; [|discriminate].
      injection Hfin as <-.
      exists (mkResults maxLengths maxErrWeight (fit_order o) (allerrors nQubits maxErrWeight)
                (dict_set [] "hamiltonian" h)
                (dict_set [] "hamiltonian" hfps) (dict_set [] "hamiltonian" my_infos)).
      split.
      * unfold do_idle_tomography. rewrite Hpp, Hpm, Hmode. cbn [bind].
        unfold hamiltonian_stage. rewrite Hf. cbn [bind]. rewrite Hg. cbn [bind].
        rewrite hamiltonian_finish_separate_plain, Eh. reflexivity.
      * cbn [res_intrinsic_rates]. rewrite Hres.
        cbn [intrinsic_rates set_keys set_rate].
        rewrite dict_get_set_same. symmetry. apply dict_get_set_same.
    + subst st2.
      exists (mkResults maxLengths maxErrWeight (fit_order o) (allerrors nQubits maxErrWeight)
                [] [] []).
      split.
      * unfold do_idle_tomography. rewrite Hpp, Hpm, Hmode. reflexivity.
      * cbn [res_intrinsic_rates]. rewrite Hres, Hst1. reflexivity.
Qed.


Lemma stochastic_finish_separate_rank ea fps g st st' :
  stochastic_finish ea "separate" fps g st = Ok st' ->
  exists n,
    shape1 (to_matrix (fst g)) = Ok n /\ n <= np_matrix_rank (to_matrix (fst g)) /\
    np_dot (np_pinv (to_matrix (fst g))) (observed_rates (snd g))
    = Ok (mv (np_pinv (to_matrix (fst g))) (observed_rates (snd g))) /\
    (ea = false ->
     intrinsic_rates st'
     = dict_set (intrinsic_rates st) "stochastic"
         (mv (np_pinv (to_matrix (fst g))) (observed_rates (snd g)))).
Proof.
  unfold stochastic_finish. cbn [String.eqb Ascii.eqb Bool.eqb].
  destruct (invert_site _ _ _ _) as [x|] eqn:Ex; cbn [bind]; [|discriminate].
  apply invert_site_ok in Ex. destruct Ex as [n [o [Hn [Hr [Ho Hx]]]]].
  injection Ho as <-. pose proof (np_dot_value _ _ _ Hx) as ->.
  intros H. exists n. repeat split; try assumption.
  intros ->. now injection H as <-.
Qed.

Lemma hamiltonian_finish_separate_rank ea fps my_J my_Jaff my_infos st st' :
  hamiltonian_finish ea "separate" fps (my_J, my_Jaff, my_infos) st = Ok st' ->
  exists n obs',
    shape1 (to_matrix my_J) = Ok n /\ n <= np_matrix_rank (to_matrix my_J) /\
    (if ea then affine_correction (to_matrix my_Jaff) st (observed_rates my_infos)
     else Ok (observed_rates my_infos)) = Ok obs' /\
    np_dot (np_pinv (to_matrix my_J)) obs' = Ok (mv (np_pinv (to_matrix my_J)) obs') /\
    intrinsic_rates st'
    = dict_set (intrinsic_rates st) "hamiltonian" (mv (np_pinv (to_matrix my_J)) obs').
Proof.
  unfold hamiltonian_finish. cbn [String.eqb Ascii.eqb Bool.eqb].
  destruct (if ea then _ else _) as [obs'|] eqn:Eo; cbn [bind]; [|discriminate].
  destruct (invert_site _ _ _ _) as [h|] eqn:Eh; cbn [bind]; [|discriminate].
  apply invert_site_ok in Eh. destruct Eh as [n [o [Hn [Hr [Ho Hh]]]]].
  injection Ho as <-. pose proof (np_dot_value _ _ _ Hh) as ->.
  intros H. injection H as <-. exists n, obs'. repeat split; assumption.
Qed.

(** X12. In jacobian mode "separate" a run returns an estimate only from
    design matrices that passed the rank check: the matrix of every stage
    that ran has at least one row, and its rank is not below its number of
    columns. The rates are then the pseudo-inverse applied to the observed
    rates of the stage: without affine rates, the stochastic rates are
    [pinv(J) . obs] for the stochastic stage and the Hamiltonian rates
    [pinv(J) . obs] for the Hamiltonian stage. *)
Theorem separate_rates_from_full_rank nQubits maxLengths prepDict measDict maxErrWeight GiStr
  (eh es ea : bool) (o : AdvancedOptions) (res : IdleTomographyResults) :
  jacobian_mode o = "separate" ->
  do_idle_tomography nQubits maxLengths (prepDict, measDict) maxErrWeight GiStr eh es ea o
    = Ok res ->
  (es = true ->
   exists Jsa obs_sa n,
     stochastic_design nQubits maxLengths (prepDict, measDict) maxErrWeight GiStr es ea o
       = Ok (Jsa, obs_sa) /\
     shape1 Jsa = Ok n /\ n <= np_matrix_rank Jsa /\
     np_dot (np_pinv Jsa) obs_sa = Ok (mv (np_pinv Jsa) obs_sa) /\
     (ea = false ->
      dict_get (res_intrinsic_rates res) "stochastic" = Some (mv (np_pinv Jsa) obs_sa))) /\
  (eh = true ->
   exists Jh Jaff obs_h n,
     hamiltonian_design nQubits maxLengths (prepDict, measDict) maxErrWeight GiStr eh ea o
       = Ok (Jh, Jaff, obs_h) /\
     shape1 Jh = Ok n /\ n <= np_matrix_rank Jh /\
     (ea = false ->
      np_dot (np_pinv Jh) obs_h = Ok (mv (np_pinv Jh) obs_h) /\
      dict_get (res_intrinsic_rates res) "hamiltonian" = Some (mv (np_pinv Jh) obs_h))).
Proof.
  intros Hmode Hrun. apply run_stages in Hrun.
  destruct Hrun as [pps [pms [st1 [st2 [st3 [Hpp [Hpm [H1 [H2 [H3 Hres]]]]]]]]]].
  rewrite Hmode in H1, H2, H3. cbn [String.eqb Ascii.eqb Bool.eqb] in H3. subst st3.
  rewrite Hres. clear Hres. split.
  - intros ->. apply stochastic_stage_ok in H1. destruct H1 as [fps [g [Hf [Hg Hfin]]]].
    apply stochastic_finish_separate_rank in Hfin.
    destruct Hfin as [n [Hn [Hr [Hdot Hrates]]]].
    exists (to_matrix (fst g)), (observed_rates (snd g)), n.
    split; [|split; [exact Hn|split; [exact Hr|split; [exact Hdot|]]]].
    + unfold stochastic_design. cbn [fst snd]. rewrite Hpp, Hpm. cbn [bind].
      rewrite Hf. cbn [bind]. rewrite Hg. reflexivity.
    + intros ->. specialize (Hrates eq_refl).
      destruct eh.
      * apply hamiltonian_stage_ok in H2. destruct H2 as [hfps [hg [_ [_ Hfin]]]].
        apply hamiltonian_finish_separate_rates in Hfin. destruct Hfin as [h ->].
        rewrite dict_get_set_other by discriminate. rewrite Hrates.
        apply dict_get_set_same.
      * subst st2. rewrite Hrates. apply dict_get_set_same.
  - intros ->. apply hamiltonian_stage_ok in H2.
    destruct H2 as [fps [[[my_J my_Jaff] my_infos] [Hf [Hg Hfin]]]].
    apply hamiltonian_finish_separate_rank in Hfin.
    destruct Hfin as [n [obs' [Hn [Hr [Hc [Hdot Hrates]]]]]].
    exists (to_matrix my_J), (to_matrix my_Jaff), (observed_rates my_infos), n.
    split; [|split; [exact Hn|split; [exact Hr|]]].
    + unfold hamiltonian_design. cbn [fst snd]. rewrite Hpp, Hpm. cbn [bind].
      rewrite Hf. cbn [bind]. rewrite Hg. reflexivity.
    + intros ->. injection Hc as <-. split; [exact Hdot|].
      rewrite Hrates. apply dict_get_set_same.
Qed.


(** ** [do_idle_tomography] in jacobian mode "together" *)

Lemma run_mode_only nQubits maxLengths dicts maxErrWeight GiStr (eh es ea : bool)
  (o : AdvancedOptions) :
  do_idle_tomography nQubits maxLengths dicts maxErrWeight GiStr eh es ea o
  = do_idle_tomography nQubits maxLengths dicts maxErrWeight GiStr eh es ea
      (with_mode (jacobian_mode o) o).
Proof. destruct dicts as [prepDict measDict]. reflexivity. Qed.

Lemma assemble_Jbig_cols eh es ea n st Jbig cols obs :
  assemble_Jbig eh es ea n st = Ok (Jbig, cols, obs) ->
  cols = ((if es then sto_width ea n else 0) + (if eh then n else 0))%nat.
Proof.
  unfold assemble_Jbig.
  destruct (if es then _ else _) as [sto_rows|]; cbn [bind]; [|discriminate].
  destruct (if eh then _ else _) as [ham_rows|]; cbn [bind]; [|discriminate].
  match goal with |- bind ?t _ = _ -> _ => destruct t as [[top o1]|]; cbn [bind]; [|discriminate] end.
  match goal with |- bind ?t _ = _ -> _ => destruct t as [[bot o2]|]; cbn [bind]; [|discriminate] end.
  intros H. injection H as _ <- _. destruct es, ea; unfold sto_width; lia.
Qed.

Lemma joint_inversion_rank eh es ea n st st' :
  joint_inversion eh es ea n st = Ok st' ->
  exists Jbig cols obs b,
    assemble_Jbig eh es ea n st = Ok (Jbig, cols, obs) /\
    np_concatenate obs = Ok b /\
    Z.of_nat cols <= np_matrix_rank Jbig /\
    np_dot (np_pinv Jbig) b = Ok (mv (np_pinv Jbig) b) /\
    intrinsic_rates st' = joint_rates eh es ea n (mv (np_pinv Jbig) b) (intrinsic_rates st).
Proof.
  unfold joint_inversion.
  destruct (assemble_Jbig eh es ea n st) as [[[Jbig cols] obs]|]; cbn [bind]; [|discriminate].
  destruct (invert_site _ _ _ _) as [X|] eqn:EX; cbn [bind]; [|discriminate].
  apply invert_site_ok in EX. destruct EX as [k [b [Hk [Hr [Hb HX]]]]].
  injection Hk as <-. pose proof (np_dot_value _ _ _ HX) as ->.
  intros H. exists Jbig, cols, obs, b. split; [reflexivity|]. split; [exact Hb|].
  split; [exact Hr|]. split; [exact HX|].
  destruct eh, es, ea; injection H as <-; reflexivity.
Qed.


Lemma together_run_rank nQubits maxLengths prepDict measDict maxErrWeight GiStr
  (eh es ea : bool) (o : AdvancedOptions) (res : IdleTomographyResults)
  (Jsa : matrix) (obs_sa : vector) (Jh Jaff : matrix) (obs_h : vector) :
  let n := List.length (allerrors nQubits maxErrWeight) in
  do_idle_tomography nQubits maxLengths (prepDict, measDict) maxErrWeight GiStr eh es ea
    (with_mode "together" o) = Ok res ->
  (es = true -> stochastic_design nQubits maxLengths (prepDict, measDict) maxErrWeight GiStr
                  es ea o = Ok (Jsa, obs_sa)) ->
  (eh = true -> hamiltonian_design nQubits maxLengths (prepDict, measDict) maxErrWeight GiStr
                  eh ea o = Ok (Jh, Jaff, obs_h)) ->
  (es = true -> Jsa <> []) -> (eh = true -> Jh <> []) ->
  exists Jbig b,
    res_intrinsic_rates res = joint_rates eh es ea n (mv (np_pinv Jbig) b) [] /\
    Z.of_nat ((if es then sto_width ea n else 0) + (if eh then n else 0))
      <= np_matrix_rank Jbig /\
    match es, eh with
    | true, false => Jbig = Jsa /\ b = obs_sa
    | false, true => Jbig = Jh /\ b = obs_h
    | true, true => Jbig = joint_matrix n ea Jsa Jh Jaff /\ b = obs_sa ++ obs_h
    | false, false => False
    end.
Proof.
  intros n Hrun Hs Hh Hnes Hneh.
  destruct (run_with_mode _ _ _ _ _ _ _ _ _ _ _ _ _ _ _ _ _ Hrun Hs Hh)
    as [st1 [st2 [st3 [H1 [H2 [H3 Hres]]]]]].
  cbn [String.eqb Ascii.eqb Bool.eqb] in H3. clear Hrun Hs Hh.
  subst n. set (n := List.length (allerrors nQubits maxErrWeight)) in *.
  apply joint_inversion_rank in H3.
  destruct H3 as [Jbig [cols [obs [b [Hasm [Hb [Hrank [_ Hrates]]]]]]]].
  rewrite (assemble_Jbig_cols _ _ _ _ _ _ _ _ Hasm) in Hrank.
  assert (Hr2 : intrinsic_rates st2 = [] /\
                (es = true -> sto_aff_jac st2 = Some Jsa /\
                              sto_aff_obs_err_rates st2 = Some obs_sa /\
                              width (sto_width ea n) Jsa) /\
                (eh = true -> ham_aff_jac st2
                              = Some (if ea then map (fun p => fst p ++ snd p) (combine Jh Jaff)
                                      else Jh) /\
                              ham_aff_obs_err_rates st2 = Some obs_h /\ width n Jh /\
                              (ea = true -> width n Jaff /\
                                            List.length Jaff = List.length Jh)) /\
                (es = false -> ea = false)).
  { assert (Hst1 : intrinsic_rates st1 = [] /\
                   (es = true -> sto_aff_jac st1 = Some Jsa /\
                                 sto_aff_obs_err_rates st1 = Some obs_sa /\
                                 width (sto_width ea n) Jsa) /\
                   (es = false -> ea = false)).
    { destruct es.
      - destruct H1 as [Hw [fps [g [HJ [Hobs Hfin]]]]].
        rewrite stochastic_finish_together, HJ, Hobs in Hfin. injection Hfin as <-.
        repeat split; try reflexivity; try discriminate. exact Hw.
      - destruct H1 as [-> ->]. repeat split; discriminate. }
    destruct Hst1 as [Hr1 [Hsto Hea]].
    destruct eh.
    - destruct H2 as [Hw [Haff [fps [my_J [my_Jaff [my_infos [HJ [HJa [Hobs Hfin]]]]]]]]].
      apply hamiltonian_finish_together in Hfin. rewrite HJ, HJa, Hobs in Hfin.
      destruct Hfin as [hj [Hhj ->]]. cbn. split; [exact Hr1|]. split; [exact Hsto|].
      split; [|exact Hea]. intros _. repeat split.
      + destruct ea; [apply concat_columns_ok in Hhj|injection Hhj as <-]; now subst.
      + exact Hw.
      + subst ea. apply Haff.
      + subst ea. apply Haff.
    - subst st2. split; [exact Hr1|]. split; [exact Hsto|]. split; [discriminate|exact Hea]. }
  destruct Hr2 as [Hr2 [Hsto [Hham Hea]]]. rewrite Hr2 in Hrates.
  exists Jbig, b. split; [now rewrite Hres|]. split; [exact Hrank|].
  clear Hrank. destruct es, eh.
  - destruct (Hsto eq_refl) as [HJ [Ho Hw]]. destruct (Hham eq_refl) as [HJh [Hoh [Hwh Haff]]].
    destruct (assemble_both ea n st2 Jsa obs_sa Jh Jaff obs_h HJ Ho (Hnes eq_refl) Hw
                HJh Hoh (Hneh eq_refl) Hwh Haff) as [cols' Hasm'].
    rewrite Hasm' in Hasm. injection Hasm as <- _ <-.
    cbn in Hb. injection Hb as <-. rewrite app_nil_r. auto.
  - destruct (Hsto eq_refl) as [HJ [Ho Hw]].
    destruct (assemble_sto_only ea n st2 Jsa obs_sa HJ Ho (Hnes eq_refl) Hw) as [cols' Hasm'].
    rewrite Hasm' in Hasm. injection Hasm as <- _ <-.
    cbn in Hb. injection Hb as <-. rewrite app_nil_r. auto.
  - rewrite (Hea eq_refl) in *.
    destruct (Hham eq_refl) as [HJh [Hoh [Hwh Haff]]].
    destruct (assemble_ham_only n st2 Jh obs_h HJh Hoh (Hneh eq_refl) Hwh) as [cols' Hasm'].
    rewrite Hasm' in Hasm. injection Hasm as <- _ <-.
    cbn in Hb. injection Hb as <-. rewrite app_nil_r. auto.
  - rewrite (Hea eq_refl) in *. cbn in Hasm. injection Hasm as _ _ <-. discriminate.
Qed.

Lemma joint_matrix_width n ea (Jsa Jh Jaff : matrix) :
  width (sto_width ea n) Jsa -> width n Jh ->
  (ea = true -> width n Jaff /\ List.length Jaff = List.length Jh) ->
  width (n + sto_width ea n) (joint_matrix n ea Jsa Jh Jaff).
Proof.
  intros Hw Hwh Haff. unfold joint_matrix, width. apply Forall_app. split.
  - apply Forall_map. eapply Forall_impl; [|exact Hw].
    intros row Hrow. cbn beta. now rewrite length_app, vzeros_length, Hrow.
  - apply Forall_map. apply Forall_forall. intros [rh rt] Hin. cbn [fst snd].
    rewrite length_app.
    pose proof (ham_right_block_width n ea Jh Jaff (fun e => proj1 (Haff e))) as Hrb.
    apply in_combine_l in Hin as Hl. apply in_combine_r in Hin as Hr.
    unfold width in Hwh, Hrb. rewrite Forall_forall in Hwh, Hrb.
    now rewrite (Hwh _ Hl), (Hrb _ Hr).
Qed.

(** X13. In jacobian mode "together" with stochastic and Hamiltonian
    rates requested, a run that returns has solved one joint system. Its
    matrix has the stochastic-stage rows (behind one zero column per
    Hamiltonian rate) above the Hamiltonian-stage rows (their Hamiltonian
    columns, then one zero column per stochastic rate, then with affine
    rates the affine-observable columns); its right-hand side is the
    observed rates of the two stages, the stochastic stage first; and the
    matrix passed the rank check. The solution, the pseudo-inverse applied
    to the right-hand side, is cut into the Hamiltonian rates, then the
    stochastic rates, then (with affine rates) the affine rates, one entry
    per enumerated error each. *)
Theorem together_rates_from_joint_system nQubits maxLengths prepDict measDict maxErrWeight
  GiStr (ea : bool) (o : AdvancedOptions) (res : IdleTomographyResults)
  (Jsa : matrix) (obs_sa : vector) (Jh Jaff : matrix) (obs_h : vector) :
  let n := List.length (allerrors nQubits maxErrWeight) in
  let Jbig := joint_matrix n ea Jsa Jh Jaff in
  let X := mv (np_pinv Jbig) (obs_sa ++ obs_h) in
  jacobian_mode o = "together" ->
  do_idle_tomography nQubits maxLengths (prepDict, measDict) maxErrWeight GiStr true true ea o
    = Ok res ->
  stochastic_design nQubits maxLengths (prepDict, measDict) maxErrWeight GiStr true ea o
    = Ok (Jsa, obs_sa) ->
  hamiltonian_design nQubits maxLengths (prepDict, measDict) maxErrWeight GiStr true ea o
    = Ok (Jh, Jaff, obs_h) ->
  Jsa <> [] -> Jh <> [] ->
  List.length Jbig = (List.length Jsa + List.length Jh)%nat /\
  width (n + sto_width ea n) Jbig /\
  Z.of_nat (n + sto_width ea n) <= np_matrix_rank Jbig /\
  dict_get (res_intrinsic_rates res) "hamiltonian" = Some (slice 0 n X) /\
  dict_get (res_intrinsic_rates res) "stochastic" = Some (slice n n X) /\
  dict_get (res_intrinsic_rates res) "affine"
  = (if ea then Some (slice (n + n) n X) else None).
Proof.
  intros n Jbig X Hmode Hrun Hs Hh Hnes Hneh.
  rewrite run_mode_only, Hmode in Hrun.
  destruct (run_with_mode _ _ _ _ _ _ _ _ _ _ _ _ _ _ _ _ _ Hrun (fun _ => Hs) (fun _ => Hh))
    as [st1 [st2 [st3 [[Hw _] [[Hwh [Haff _]] _]]]]].
  fold n in Hw, Hwh, Haff.
  assert (Haff' : ea = true -> width n Jaff /\ List.length Jaff = List.length Jh).
  { intros ->. exact Haff. }
  destruct (together_run_rank _ _ _ _ _ _ _ _ _ _ _ _ _ _ _ _ Hrun (fun _ => Hs) (fun _ => Hh)
              (fun _ => Hnes) (fun _ => Hneh)) as [Jb [b [Hrates [Hrank [-> ->]]]]].
  fold n in Hrates, Hrank. fold Jbig in Hrates, Hrank. fold X in Hrates.
  split; [apply joint_matrix_length; intros e; apply (Haff' e)|].
  split; [now apply joint_matrix_width|].
  split; [now rewrite Nat.add_comm|].
  rewrite Hrates. unfold joint_rates. cbn [Nat.add].
  destruct ea; repeat split; by_key "hamiltonian".
Qed.


(** ** [make_idle_tomography_list] *)

(** The list of circuits of an idle-tomography experiment. The signs
    ["auto"] are [None], as in [preferred_signs]. *)
Definition make_idle_tomography_list (nQubits : Z) (pauliDicts : paulidict * paulidict)
  (maxLengths : list Z) (maxErrWeight : Z)
  (includeHamSeqs includeStochasticSeqs includeAffineSeqs : bool)
  (ham_tmpl : list string)
  (preferred_prep_basis_signs preferred_meas_basis_signs : option (list string))
  (GiStr : GateString) : result (list GateString) :=
  let '(prepDict, measDict) := pauliDicts in
  do preferred_prep_basis_signs <- preferred_signs preferred_prep_basis_signs prepDict ;;
  do preferred_meas_basis_signs <- preferred_signs preferred_meas_basis_signs measDict ;;
  do pauli_fidpairs <-
    idle_tomography_fidpairs nQubits maxErrWeight includeHamSeqs includeStochasticSeqs
      includeAffineSeqs ham_tmpl preferred_prep_basis_signs preferred_meas_basis_signs ;;
  let fidpairs :=
    map (fun '(x, y) => (to_gatestring x prepDict, to_gatestring y measDict)) pauli_fidpairs in
  let listOfExperiments :=
    flat_map (fun '(prepFid, measFid) =>
                map (fun L => prepFid ++ gs_repeat GiStr L ++ measFid) maxLengths)
             fidpairs in
  Ok listOfExperiments.

(** [advancedOptions.get('ham_tmpl', ("ZY","ZX","XZ","YZ","YX","XY"))] *)
Definition ham_tmpl_option (advancedOptions : AdvancedOptions) : list string :=
  match opt_ham_tmpl advancedOptions with Some t => t | None => default_ham_tmpl end.

(** The circuits of a list of fiducial pairs: for each pair in turn, one
    circuit per length. *)
Definition sweep_circuits (pauliDicts : paulidict * paulidict) (GiStr : GateString)
  (maxLengths : list Z) (fps : list fidpair) : list GateString :=
  flat_map (fun fp => map (sweep_circuit fp pauliDicts GiStr) maxLengths) fps.

Lemma sweep_circuits_length dicts GiStr maxLengths fps :
  List.length (sweep_circuits dicts GiStr maxLengths fps)
  = (List.length fps * List.length maxLengths)%nat.
Proof.
  unfold sweep_circuits. apply flat_map_length_const. intros fp. apply length_map.
Qed.

Lemma experiments_are_sweeps prepDict measDict GiStr maxLengths (fps : list fidpair) :
  flat_map (fun '(prepFid, measFid) =>
              map (fun L => prepFid ++ gs_repeat GiStr L ++ measFid) maxLengths)
           (map (fun '(x, y) => (to_gatestring x prepDict, to_gatestring y measDict)) fps)
  = sweep_circuits (prepDict, measDict) GiStr maxLengths fps.
Proof.
  unfold sweep_circuits. induction fps as [|[x y] fps IH]; cbn [map flat_map]; [reflexivity|].
  now rewrite IH.
Qed.

(** The fiducial pairs the two stages of [do_idle_tomography] generate when
    the options give none. *)
Lemma generated_fidpairs nQubits maxErrWeight (eh es ea : bool) (o : AdvancedOptions)
  (pps pms : list string) (fps : list fidpair) :
  idle_tomography_fidpairs nQubits maxErrWeight eh es ea (ham_tmpl_option o) pps pms = Ok fps ->
  exists sfps hfps,
    fps = sfps ++ hfps /\
    (if es then stochastic_fidpairs nQubits maxErrWeight es ea o pps pms None = Ok sfps
     else sfps = [] /\ ea = false) /\
    (if eh then hamiltonian_fidpairs nQubits maxErrWeight eh o pps pms None = Ok hfps
     else hfps = []).
Proof.
  unfold stochastic_fidpairs, hamiltonian_fidpairs, ham_tmpl_option,
    idle_tomography_fidpairs.
  set (ht := match opt_ham_tmpl o with Some t => t | None => default_ham_tmpl end).
  intros H. destruct es.
  - destruct (sto_flips maxErrWeight ea) as [flips|]; cbn [bind] in *; [|discriminate].
    destruct (sto_tmpl_pairs maxErrWeight _ _ flips) as [tmpl|]; cbn [bind app] in *;
      [|discriminate].
    destruct eh; cbn [bind app] in *.
    + destruct (ham_tmpl_pairs maxErrWeight _ _ ht) as [htmpl|]; cbn [bind app] in *;
        [|discriminate].
      injection H as <-. eexists _, _. repeat split.
    + injection H as <-. eexists _, []. rewrite app_nil_r. repeat split.
  - destruct ea; cbn [bind app] in *; [discriminate|].
    destruct eh; cbn [bind app] in *.
    + destruct (ham_tmpl_pairs maxErrWeight _ _ ht) as [htmpl|]; cbn [bind app] in *;
        [|discriminate].
      injection H as <-. exists [], (tile_pauli_fidpairs htmpl nQubits maxErrWeight).
      repeat split.
    + injection H as <-. exists [], []. repeat split.
Qed.

(** X14. The experiment list that [make_idle_tomography_list] returns holds,
    for each fiducial pair and each length in turn, the circuit
    [prepFid + GiStr*L + measFid]; the fiducial pairs are those that
    [do_idle_tomography] generates for its stochastic stage followed by
    those it generates for its Hamiltonian stage (for the same error
    classes, template and preferred signs, when the options give it no
    pairs). So the list has one circuit per generated pair and length, and
    these are the circuits whose rows the two estimators read. *)
Theorem experiment_list_of_the_stages nQubits prepDict measDict maxLengths maxErrWeight
  (eh es ea : bool) (o : AdvancedOptions) (GiStr : GateString) (exps : list GateString) :
  make_idle_tomography_list nQubits (prepDict, measDict) maxLengths maxErrWeight eh es ea
    (ham_tmpl_option o) (opt_preferred_prep_basis_signs o) (opt_preferred_meas_basis_signs o)
    GiStr = Ok exps ->
  exists pps pms sfps hfps,
    preferred_signs (opt_preferred_prep_basis_signs o) prepDict = Ok pps /\
    preferred_signs (opt_preferred_meas_basis_signs o) measDict = Ok pms /\
    (if es then stochastic_fidpairs nQubits maxErrWeight es ea o pps pms None = Ok sfps
     else sfps = [] /\ ea = false) /\
    (if eh then hamiltonian_fidpairs nQubits maxErrWeight eh o pps pms None = Ok hfps
     else hfps = []) /\
    exps = sweep_circuits (prepDict, measDict) GiStr maxLengths sfps
           ++ sweep_circuits (prepDict, measDict) GiStr maxLengths hfps /\
    List.length exps
    = ((List.length sfps + List.length hfps) * List.length maxLengths)%nat.
Proof.
  unfold make_idle_tomography_list.
  destruct (preferred_signs _ prepDict) as [pps|]; cbn [bind]; [|discriminate].
  destruct (preferred_signs _ measDict) as [pms|]; cbn [bind]; [|discriminate].
  destruct (idle_tomography_fidpairs _ _ _ _ _ _ _ _) as [fps|] eqn:Ef; cbn [bind];
    [|discriminate].
  intros H. injection H as <-. rewrite experiments_are_sweeps.
  apply generated_fidpairs in Ef. destruct Ef as [sfps [hfps [-> [Hs Hh]]]].
  exists pps, pms, sfps, hfps. repeat (split; [try reflexivity; assumption|]).
  assert (Happ : sweep_circuits (prepDict, measDict) GiStr maxLengths (sfps ++ hfps)
                 = sweep_circuits (prepDict, measDict) GiStr maxLengths sfps
                   ++ sweep_circuits (prepDict, measDict) GiStr maxLengths hfps).
  { unfold sweep_circuits. apply flat_map_app. }
  split; [exact Happ|].
  rewrite Happ, length_app, !sweep_circuits_length. lia.
Qed.

End Core.

(** * A one-qubit instance of the collaborators

    The collaborators of [idtcore.py] instantiated for one qubit and error
    weight one, to run the embedding on concrete data. *)

(** [_commute_parity]: letters commute when one is 'I' or they are equal. *)
Definition ex_commute_parity (p q : ascii) : Z :=
  if Ascii.eqb p "I" || Ascii.eqb q "I" || Ascii.eqb p q then 1 else -1.

(** With one qubit and maxweight one a template is already a full pair. *)
Definition ex_tile (tmpl : list fidpair) (nQubits maxweight : Z) : list fidpair := tmpl.

(** The Pauli dictionaries of the comment in [fidpairs_to_pauli_fidpairs]. *)
Definition ex_prepDict : paulidict :=
  [ ("X", ["Gy"]); ("Y", ["Gx"; "Gx"; "Gx"]); ("Z", []);
    ("-X", ["Gy"; "Gy"; "Gy"]); ("-Y", ["Gx"]); ("-Z", ["Gx"; "Gx"]) ].

Definition ex_measDict : paulidict :=
  [ ("X", ["Gy"; "Gy"; "Gy"]); ("Y", ["Gx"]); ("Z", []);
    ("-X", ["Gy"]); ("-Y", ["Gx"; "Gx"; "Gx"]); ("-Z", ["Gx"; "Gx"]) ].

(** [to_gatestring]: the gates of each qubit's signed basis letter. *)
Definition ex_to_gatestring (st : NQPauliState) (d : paulidict) : GateString :=
  flat_map (fun '(s, c) =>
              let key := if s =? 1 then String c EmptyString
                         else String "-" (String c EmptyString) in
              match dict_get d key with Some gates => gates | None => [] end)
           (combine (state_signs st) (chars (state_rep st))).

(** i[E,O]/2 for one-qubit Pauli letters. *)
Definition ex_icommutatorOver2 (E O : NQPauliOp) : option NQPauliOp :=
  let s := op_sign E * op_sign O in
  match op_rep E, op_rep O with
  | "X", "Y" => Some (mkOp "Z" (- s)) | "Y", "X" => Some (mkOp "Z" s)
  | "Y", "Z" => Some (mkOp "X" (- s)) | "Z", "Y" => Some (mkOp "X" s)
  | "Z", "X" => Some (mkOp "Y" (- s)) | "X", "Z" => Some (mkOp "Y" s)
  | _, _ => None
  end.

(** The expectation of a one-qubit Pauli in a Pauli eigenstate. *)
Definition ex_statedot (op : NQPauliOp) (st : NQPauliState) : Z :=
  if String.eqb (op_rep op) (state_rep st)
  then op_sign op * np_prod (state_signs st) else 0.

Definition ex_allerrors (nQubits maxweight : Z) : list NQPauliOp :=
  [mkOp "X" 1; mkOp "Y" 1; mkOp "Z" 1].

(** The one outcome an error of weight one can cause: the expected bit,
    flipped. *)
Definition ex_alloutcomes (prep meas : NQPauliState) (maxweight : Z) : list NQOutcome :=
  [mkOutcome (string_of_list_ascii
                (map (fun '(s1, s2) => if s1 =? s2 then "1"%char else "0"%char)
                     (combine (state_signs prep) (state_signs meas))))].

Definition ex_allobservables (meas : NQPauliState) (maxweight : Z) : list NQPauliOp :=
  [mkOp (state_rep meas) 1].

(** [numpy.polyfit] where the fit interpolates: a line through two points
    and a parabola through three (any non-zero weights), highest power
    first. *)
Definition ex_polyfit (x : list Z) (y : list R) (deg : Z) (w : list R) : result (list R) :=
  match x, y, deg with
  | [x1; x2], [y1; y2], 1 =>
      let c1 := ((y2 - y1) / (IZR x2 - IZR x1))%R in
      Ok [c1; (y1 - c1 * IZR x1)%R]
  | [x1; x2; x3], [y1; y2; y3], 2 =>
      let d12 := ((y2 - y1) / (IZR x2 - IZR x1))%R in
      let d23 := ((y3 - y2) / (IZR x3 - IZR x2))%R in
      let c2 := ((d23 - d12) / (IZR x3 - IZR x1))%R in
      let c1 := (d12 - c2 * (IZR x1 + IZR x2))%R in
      Ok [c2; c1; (y1 - c1 * IZR x1 - c2 * IZR x1 ^ 2)%R]
  | _, _, _ => Raise (ValueError "the fit of this instance interpolates")
  end.

(** [numpy.linalg.matrix_rank] on matrices of full rank. *)
Definition ex_matrix_rank (J : matrix) : Z :=
  Z.of_nat (Nat.min (List.length J) (List.length (hd [] J))).

Fixpoint gs_eqb (a b : GateString) : bool :=
  match a, b with
  | [], [] => true
  | x :: a', y :: b' => String.eqb x y && gs_eqb a' b'
  | _, _ => false
  end.

(** A data set given as a table from circuits to rows. *)
Fixpoint table_dataset (table : list (GateString * DataSetRow)) (g : GateString)
  : option DataSetRow :=
  match table with
  | [] => None
  | (g', row) :: rest => if gs_eqb g' g then Some row else table_dataset rest g
  end.

Definition ex_circuit (prep meas : NQPauliState) (L : Z) : GateString :=
  (ex_to_gatestring prep ex_prepDict ++ gs_repeat ["Gi"] L
   ++ ex_to_gatestring meas ex_measDict)%list.

Definition st1q (sign : Z) (letter : string) : NQPauliState := mkState letter [sign].

Definition row_of (n0 n1 : Z) : DataSetRow := mkRow [("0", n0); ("1", n1)] (n0 + n1).

(** The fiducial pairs of the example runs: the six same-basis pairs, and
    four pairs with different bases, two of them measuring Y after
    preparing +Z and -Z. *)
Definition ex_sto_fidpairs : list fidpair :=
  map (fun '(s, l) => (st1q s l, st1q s l))
      [(1, "X"); (1, "Y"); (1, "Z"); (-1, "X"); (-1, "Y"); (-1, "Z")].

Definition ex_ham_fidpairs : list fidpair :=
  [ (st1q 1 "Z", st1q 1 "Y"); (st1q (-1) "Z", st1q 1 "Y");
    (st1q 1 "X", st1q 1 "Z"); (st1q 1 "Y", st1q 1 "X") ].

Definition ex_fidpairs : list fidpair := (ex_sto_fidpairs ++ ex_ham_fidpairs)%list.

(** The data: 100 counts per circuit. The same-basis circuits always give
    '0'. The different-basis circuits are balanced at length 1; at length 2
    the two circuits that measure Y give 55 to 45, the others stay
    balanced. *)
Definition ex_table : list (GateString * DataSetRow) :=
  (flat_map (fun fp => [ (ex_circuit (fst fp) (snd fp) 1, row_of 100 0);
                         (ex_circuit (fst fp) (snd fp) 2, row_of 100 0) ]) ex_sto_fidpairs
   ++ flat_map (fun fp => [ (ex_circuit (fst fp) (snd fp) 1, row_of 50 50);
                            (ex_circuit (fst fp) (snd fp) 2,
                             if String.eqb (state_rep (snd fp)) "Y"
                             then row_of 55 45 else row_of 50 50) ]) ex_ham_fidpairs)%list.

Definition ex_dataset : GateString -> option DataSetRow := table_dataset ex_table.

(** The pseudo-inverses of the three design matrices of the example runs,
    told apart by the number of rows. *)
Definition ex_pinv_sto_aff : matrix :=
  [ [-1/4;  1/4;  1/4; -1/4;  1/4;  1/4];
    [ 1/4; -1/4;  1/4;  1/4; -1/4;  1/4];
    [ 1/4;  1/4; -1/4;  1/4;  1/4; -1/4];
    [-1/2;    0;    0;  1/2;    0;    0];
    [   0; -1/2;    0;    0;  1/2;    0];
    [   0;    0; -1/2;    0;    0;  1/2] ]%R.

Definition ex_pinv_ham : matrix :=
  [ [-1/2; 1/2;  0;  0];
    [   0;   0; -1;  0];
    [   0;   0;  0; -1] ]%R.

Definition ex_pinv_big : matrix :=
  [ [   0;     0;    0;    0;    0;    0; -1/2; 1/2;  0;  0];
    [   0;     0;   -1;    0;    0;    1;    0;   0; -1;  0];
    [  -1;     0;    0;    1;    0;    0;    0;   0;  0; -1];
    [-1/4;   1/4;  1/4; -1/4;  1/4;  1/4;    0;   0;  0;  0];
    [ 1/4;  -1/4;  1/4;  1/4; -1/4;  1/4;    0;   0;  0;  0];
    [ 1/4;   1/4; -1/4;  1/4;  1/4; -1/4;    0;   0;  0;  0];
    [-1/2;     0;    0;  1/2;    0;    0;    0;   0;  0;  0];
    [   0; -1/10;    0;    0; 1/10;    0;  1/5; 1/5;  0;  0];
    [   0;     0; -1/2;    0;    0;  1/2;    0;   0;  0;  0] ]%R.

Definition ex_pinv (J : matrix) : matrix :=
  match List.length J with
  | 6%nat => ex_pinv_sto_aff
  | 4%nat => ex_pinv_ham
  | 10%nat => ex_pinv_big
  | _ => []
  end.

Definition ex_options (mode : string) : AdvancedOptions :=
  mkOptions (Some mode) (Some default_signs) (Some default_signs) (Some ex_fidpairs) None None.

(** [do_idle_tomography] on the example data, with all three error classes
    requested. *)
Definition ex_run (mode : string) : result IdleTomographyResults :=
  do_idle_tomography ex_commute_parity ex_tile ex_to_gatestring ex_dataset ex_polyfit
    ex_icommutatorOver2 ex_statedot ex_allerrors ex_alloutcomes ex_allobservables
    ex_matrix_rank ex_pinv
    1 [1; 2] (ex_prepDict, ex_measDict) 1 ["Gi"] true true true (ex_options mode).

Definition rates_of (r : result IdleTomographyResults) (cls : string) : option vector :=
  match r with
  | Ok res => dict_get (res_intrinsic_rates res) cls
  | Raise _ => None
  end.

(** * The properties on the one-qubit instance *)

Ltac run_model :=
  cbv -[Rplus Rmult Rminus Rdiv Ropp Rinv IZR sqrt Rabs Rle_dec Rlt_dec].

(** ** The rate of a quadratic fit is not the derivative at length 0 *)

(** Outcome '1' is seen 2, 6 and 20 times in 100 at lengths 1, 2 and 4: the
    frequencies lie on 0.01*L^2 + 0.01*L. *)
Definition ex_growing_dataset : GateString -> option DataSetRow :=
  table_dataset
    [ (ex_circuit (st1q 1 "Z") (st1q 1 "Z") 1, row_of 98 2);
      (ex_circuit (st1q 1 "Z") (st1q 1 "Z") 2, row_of 94 6);
      (ex_circuit (st1q 1 "Z") (st1q 1 "Z") 4, row_of 80 20) ].

(** C7, counterexample. For these data the fitted quadratic has
    coefficients c2 = c1 = 1/100 and c0 = 0, so its discriminant is
    nonnegative and its derivative at length 0 is +1/100, yet the rate that
    [get_obs_stochastic_err_rate] returns with fitOrder 2 is -1/100. And
    with fitOrder 3 and a length whose circuit the data set lacks, the
    error is the data set's [KeyError], not [NotImplementedError]: the fit
    order is looked at only after the data are gathered and fitted. *)
Lemma fit_rate_not_derivative_at_zero :
  (exists info c2 c1 c0,
     get_obs_stochastic_err_rate ex_to_gatestring ex_growing_dataset ex_polyfit
       (st1q 1 "Z", st1q 1 "Z") (ex_prepDict, ex_measDict) ["Gi"] (mkOutcome "1")
       [1; 2; 4] 2 = Ok info /\
     fitCoeffs info = [c2; c1; c0] /\
     c2 = (1 / 100)%R /\ c1 = (1 / 100)%R /\ c0 = 0%R /\
     (0 <= c1 ^ 2 - 4 * c2 * c0)%R /\
     quadratic_deriv c2 c1 0 = (1 / 100)%R /\
     rate info = (- 1 / 100)%R /\
     rate info <> quadratic_deriv c2 c1 0) /\
  get_obs_stochastic_err_rate ex_to_gatestring ex_growing_dataset ex_polyfit
    (st1q 1 "Z", st1q 1 "Z") (ex_prepDict, ex_measDict) ["Gi"] (mkOutcome "1")
    [1; 2; 3] 3 = Raise (KeyError "gatestring").
Proof.
  split; [|run_model; reflexivity].
  run_model.
  match goal with |- context [Rle_dec ?a ?b] => destruct (Rle_dec a b) as [Hdet|Hdet] end;
    [|exfalso; apply Hdet; lra].
  match goal with |- context [Rlt_dec 0 ?b] => destruct (Rlt_dec 0 b) as [Hpos|Hpos] end;
    [|exfalso; apply Hpos; lra].
  do 4 eexists. split; [reflexivity|]. split; [reflexivity|]. cbn [rate].
  match goal with |- context [sqrt ?e] =>
    replace e with ((1 / 100) * (1 / 100))%R by lra end.
  rewrite sqrt_square by lra.
  repeat split; lra.
Qed.

(** ** Rank deficiency aborts the run *)

Definition ex_idle_tomography :=
  do_idle_tomography ex_commute_parity ex_tile ex_to_gatestring ex_dataset ex_polyfit
    ex_icommutatorOver2 ex_statedot ex_allerrors ex_alloutcomes ex_allobservables
    ex_matrix_rank ex_pinv.

Definition ex_options_for (mode : string) (fps : list fidpair) : AdvancedOptions :=
  mkOptions (Some mode) (Some default_signs) (Some default_signs) (Some fps) None None.

(** C1, the code at rank-deficient design matrices. With the single
    fiducial pair (+Z, +Z) the stochastic design matrix is the one row
    (1, 1, 0); with the single pair (+Z, +Y) the Hamiltonian one is the one
    row (-1, 0, 0): rank 1 with 3 columns. In jacobian mode "separate", and
    for the joint matrix of mode "together", the run ends with
    [NameError] at the warning instead of returning an estimate. *)
Theorem rank_deficient_runs_abort :
  ex_idle_tomography 1 [1; 2] (ex_prepDict, ex_measDict) 1 ["Gi"] false true false
    (ex_options_for "separate" [(st1q 1 "Z", st1q 1 "Z")])
    = Raise (NameError "_warnings") /\
  ex_idle_tomography 1 [1; 2] (ex_prepDict, ex_measDict) 1 ["Gi"] true false false
    (ex_options_for "separate" [(st1q 1 "Z", st1q 1 "Y")])
    = Raise (NameError "_warnings") /\
  ex_idle_tomography 1 [1; 2] (ex_prepDict, ex_measDict) 1 ["Gi"] false true false
    (ex_options_for "together" [(st1q 1 "Z", st1q 1 "Z")])
    = Raise (NameError "_warnings").
Proof.
  repeat split; run_model; reflexivity.
Qed.

(** The design matrices of these three runs. *)
Example rank_deficient_design_matrices :
  match stochastic_gather ex_commute_parity ex_to_gatestring ex_dataset ex_polyfit
          ex_alloutcomes false (ex_allerrors 1 1) (ex_prepDict, ex_measDict) ["Gi"] [1; 2]
          1 1 [(st1q 1 "Z", st1q 1 "Z")]
  with Ok g => fst g = [[1; 1; 0]] | Raise _ => False end /\
  match hamiltonian_gather ex_to_gatestring ex_dataset ex_polyfit ex_icommutatorOver2
          ex_statedot ex_allobservables false (ex_allerrors 1 1) (ex_prepDict, ex_measDict)
          ["Gi"] [1; 2] 1 1 [(st1q 1 "Z", st1q 1 "Y")]
  with Ok g => fst (fst g) = [[-1; 0; 0]] | Raise _ => False end /\
  ex_matrix_rank (to_matrix [[1; 1; 0]]) = 1 /\
  ex_matrix_rank (to_matrix [[-1; 0; 0]]) = 1.
Proof.
  repeat split; run_model; reflexivity.
Qed.

(** ** Errors that come before the weight of the observable is looked at *)


(** ** Witnesses *)


Lemma stochastic_affine_rows_and_split_witness :
  exists res x,
    ex_run "separate" = Ok res /\
    dict_get (res_intrinsic_rates res) "stochastic" = Some (firstn (List.length x / 2) x) /\
    dict_get (res_intrinsic_rates res) "affine" = Some (skipn (List.length x / 2) x).
Proof.
  assert (E : exists res, ex_run "separate" = Ok res) by (eexists; run_model; reflexivity).
  destruct E as [res E].
  destruct (stochastic_affine_rows_and_split ex_commute_parity ex_tile ex_to_gatestring
              ex_dataset ex_polyfit ex_icommutatorOver2 ex_statedot ex_allerrors
              ex_alloutcomes ex_allobservables ex_matrix_rank ex_pinv
              1 [1; 2] ex_prepDict ex_measDict 1 ["Gi"] true (ex_options "separate") res
              eq_refl E)
    as [fps [my_J [my_infos [x [_ [_ [_ [Hs [Ha _]]]]]]]]].
  exists res, x. repeat split; assumption.
Defined.

(** ** The two jacobian modes on the one-qubit instance *)

(** The design matrices of the example runs: stochastic and affine columns
    of the six same-basis pairs, Hamiltonian and affine-observable columns
    of the four pairs with different bases. *)
Definition ex_Jsa : matrix :=
  [ [0; 1; 1; -1;  0;  0];
    [1; 0; 1;  0; -1;  0];
    [1; 1; 0;  0;  0; -1];
    [0; 1; 1;  1;  0;  0];
    [1; 0; 1;  0;  1;  0];
    [1; 1; 0;  0;  0;  1] ]%R.

Definition ex_Jh : matrix := [ [-1; 0; 0]; [1; 0; 0]; [0; -1; 0]; [0; 0; -1] ]%R.

Definition ex_Jaff : matrix := [ [0; 2; 0]; [0; 2; 0]; [0; 0; 2]; [2; 0; 0] ]%R.

Ltac vector_of H :=
  repeat match type of H with
         | List.length ?v = S _ =>
             let a := fresh "a" in
             destruct v as [|a v]; [discriminate H|];
             cbn [List.length] in H; apply eq_add_S in H
         | List.length ?v = O => destruct v; [clear H|discriminate H]
         end.

Ltac solve_components :=
  repeat match goal with
         | |- _ :: _ = _ :: _ => apply f_equal2; [lra|]
         | |- [] = [] => reflexivity
         end.

Ltac normal_equations :=
  match goal with
  | Hb : List.length ?b = _ |- lstsq_at _ _ ?b _ =>
      vector_of Hb; split; [reflexivity|]; split; [reflexivity|];
      let y := fresh "y" in let Hy := fresh "Hy" in
      intros y Hy; vector_of Hy; unfold normal_eq; run_model;
      split; intros H; injection H; intros; subst; solve_components
  end.

Lemma ex_lstsq_ham (b : vector) :
  List.length b = 4%nat -> lstsq_at ex_Jh (ex_pinv ex_Jh) b 3.
Proof. intros Hb. normal_equations. Qed.

Lemma ex_lstsq_sto_aff (b : vector) :
  List.length b = 6%nat -> lstsq_at ex_Jsa (ex_pinv ex_Jsa) b 6.
Proof. intros Hb. normal_equations. Qed.

Lemma ex_lstsq_big (b : vector) :
  List.length b = 10%nat ->
  lstsq_at (joint_matrix 3 true ex_Jsa ex_Jh ex_Jaff)
           (ex_pinv (joint_matrix 3 true ex_Jsa ex_Jh ex_Jaff)) b 9.
Proof. intros Hb. normal_equations. Qed.

(** C2, counterexample. On the example data the three design matrices
    have full column rank (the rank check passes and the pseudo-inverse
    gives the one least-squares solution), both runs return, and the affine
    rates differ: mode "separate" gives (0, 0, 0), mode "together" gives
    (0, 1/25, 0). The Hamiltonian fit of mode "separate" leaves a residual
    that is not orthogonal to the affine-observable columns. *)
Lemma jacobian_modes_disagree :
  exists res_sep res_tog obs_sa obs_h,
    ex_run "separate" = Ok res_sep /\
    ex_run "together" = Ok res_tog /\
    stochastic_design ex_commute_parity ex_tile ex_to_gatestring ex_dataset ex_polyfit
      ex_allerrors ex_alloutcomes 1 [1; 2] (ex_prepDict, ex_measDict) 1 ["Gi"] true true
      (ex_options "separate") = Ok (ex_Jsa, obs_sa) /\
    hamiltonian_design ex_tile ex_to_gatestring ex_dataset ex_polyfit ex_icommutatorOver2
      ex_statedot ex_allerrors ex_allobservables 1 [1; 2] (ex_prepDict, ex_measDict) 1 ["Gi"]
      true true (ex_options "separate") = Ok (ex_Jh, ex_Jaff, obs_h) /\
    obs_sa = [0; 0; 0; 0; 0; 0]%R /\
    obs_h = [1 / 10; 1 / 10; 0; 0]%R /\
    ex_matrix_rank ex_Jsa = 6 /\ ex_matrix_rank ex_Jh = 3 /\
    ex_matrix_rank (joint_matrix 3 true ex_Jsa ex_Jh ex_Jaff) = 9 /\
    lstsq_at ex_Jsa (ex_pinv ex_Jsa) obs_sa 6 /\
    lstsq_at ex_Jh (ex_pinv ex_Jh)
      (corrected_rates 3 true ex_Jaff obs_h (mv (ex_pinv ex_Jsa) obs_sa)) 3 /\
    lstsq_at (joint_matrix 3 true ex_Jsa ex_Jh ex_Jaff)
      (ex_pinv (joint_matrix 3 true ex_Jsa ex_Jh ex_Jaff)) (obs_sa ++ obs_h)%list 9 /\
    mvT ex_Jaff
        (vsub (mv ex_Jh
                 (mv (ex_pinv ex_Jh)
                    (corrected_rates 3 true ex_Jaff obs_h (mv (ex_pinv ex_Jsa) obs_sa))))
           (corrected_rates 3 true ex_Jaff obs_h (mv (ex_pinv ex_Jsa) obs_sa))) 3
    <> vzeros 3 /\
    dict_get (res_intrinsic_rates res_sep) "affine" = Some [0; 0; 0]%R /\
    dict_get (res_intrinsic_rates res_tog) "affine" = Some [0; 1 / 25; 0]%R /\
    dict_get (res_intrinsic_rates res_sep) "affine"
    <> dict_get (res_intrinsic_rates res_tog) "affine".
Proof.
  assert (Es : exists res, ex_run "separate" = Ok res) by (eexists; run_model; reflexivity).
  assert (Et : exists res, ex_run "together" = Ok res) by (eexists; run_model; reflexivity).
  destruct Es as [res_sep Es]. destruct Et as [res_tog Et].
  assert (Hs : dict_get (res_intrinsic_rates res_sep) "affine" = Some [0; 0; 0]%R).
  { revert Es. run_model. intros Es. injection Es as <-. cbn [res_intrinsic_rates].
    apply f_equal. solve_components. }
  assert (Ht : dict_get (res_intrinsic_rates res_tog) "affine" = Some [0; 1 / 25; 0]%R).
  { revert Et. run_model. intros Et. injection Et as <-. cbn [res_intrinsic_rates].
    apply f_equal. solve_components. }
  exists res_sep, res_tog. do 2 eexists.
  split; [exact Es|]. split; [exact Et|].
  split; [run_model; reflexivity|]. split; [run_model; reflexivity|].
  split; [solve_components|]. split; [solve_components|].
  split; [reflexivity|]. split; [reflexivity|]. split; [reflexivity|].
  split; [apply ex_lstsq_sto_aff; reflexivity|].
  split; [apply ex_lstsq_ham; reflexivity|].
  split; [apply ex_lstsq_big; reflexivity|].
  split; [run_model; intros H; injection H; lra|].
  split; [exact Hs|]. split; [exact Ht|].
  rewrite Hs, Ht. intros H. injection H. lra.
Qed.

(** The same circuits with data that the Hamiltonian fit explains: at
    length 2 the circuit that prepares +Z and measures Y gives 55 to 45, the
    one that prepares -Z gives 45 to 55. *)
Definition ex_consistent_table : list (GateString * DataSetRow) :=
  (flat_map (fun fp => [ (ex_circuit (fst fp) (snd fp) 1, row_of 100 0);
                         (ex_circuit (fst fp) (snd fp) 2, row_of 100 0) ]) ex_sto_fidpairs
   ++ flat_map (fun fp => [ (ex_circuit (fst fp) (snd fp) 1, row_of 50 50);
                            (ex_circuit (fst fp) (snd fp) 2,
                             if String.eqb (state_rep (snd fp)) "Y"
                             then if np_prod (state_signs (fst fp)) =? 1
                                  then row_of 55 45 else row_of 45 55
                             else row_of 50 50) ]) ex_ham_fidpairs)%list.

Definition ex_consistent_dataset : GateString -> option DataSetRow :=
  table_dataset ex_consistent_table.

Definition ex_consistent_run (mode : string) : result IdleTomographyResults :=
  do_idle_tomography ex_commute_parity ex_tile ex_to_gatestring ex_consistent_dataset
    ex_polyfit ex_icommutatorOver2 ex_statedot ex_allerrors ex_alloutcomes ex_allobservables
    ex_matrix_rank ex_pinv
    1 [1; 2] (ex_prepDict, ex_measDict) 1 ["Gi"] true true true (ex_options mode).

(** On these data the hypotheses of the agreement of the two modes hold,
    and the rates agree. *)
Lemma jacobian_modes_agree_witness :
  exists res_sep res_tog,
    ex_consistent_run "separate" = Ok res_sep /\
    ex_consistent_run "together" = Ok res_tog /\
    dict_get (res_intrinsic_rates res_sep) "hamiltonian"
    = dict_get (res_intrinsic_rates res_tog) "hamiltonian" /\
    dict_get (res_intrinsic_rates res_sep) "stochastic"
    = dict_get (res_intrinsic_rates res_tog) "stochastic" /\
    dict_get (res_intrinsic_rates res_sep) "affine"
    = dict_get (res_intrinsic_rates res_tog) "affine".
Proof.
  assert (Es : exists res, ex_consistent_run "separate" = Ok res)
    by (eexists; run_model; reflexivity).
  assert (Et : exists res, ex_consistent_run "together" = Ok res)
    by (eexists; run_model; reflexivity).
  destruct Es as [res_sep Es]. destruct Et as [res_tog Et].
  evar (obs_sa : vector). evar (obs_h : vector).
  assert (Hd : stochastic_design ex_commute_parity ex_tile ex_to_gatestring
                 ex_consistent_dataset ex_polyfit ex_allerrors ex_alloutcomes 1 [1; 2]
                 (ex_prepDict, ex_measDict) 1 ["Gi"] true true (ex_options "separate")
               = Ok (ex_Jsa, obs_sa))
    by (subst obs_sa; run_model; reflexivity).
  assert (Hh : hamiltonian_design ex_tile ex_to_gatestring ex_consistent_dataset ex_polyfit
                 ex_icommutatorOver2 ex_statedot ex_allerrors ex_allobservables 1 [1; 2]
                 (ex_prepDict, ex_measDict) 1 ["Gi"] true true (ex_options "separate")
               = Ok (ex_Jh, ex_Jaff, obs_h))
    by (subst obs_h; run_model; reflexivity).
  assert (Horth : mvT ex_Jaff
                    (vsub (mv ex_Jh
                             (mv (ex_pinv ex_Jh)
                                (corrected_rates 3 true ex_Jaff obs_h
                                   (mv (ex_pinv ex_Jsa) obs_sa))))
                       (corrected_rates 3 true ex_Jaff obs_h (mv (ex_pinv ex_Jsa) obs_sa))) 3
                  = vzeros 3)
    by (subst obs_sa obs_h; run_model; solve_components).
  assert (L1 : lstsq_at ex_Jsa (ex_pinv ex_Jsa) obs_sa 6)
    by (apply ex_lstsq_sto_aff; reflexivity).
  assert (L2 : lstsq_at ex_Jh (ex_pinv ex_Jh)
                 (corrected_rates 3 true ex_Jaff obs_h (mv (ex_pinv ex_Jsa) obs_sa)) 3)
    by (apply ex_lstsq_ham; reflexivity).
  assert (L3 : lstsq_at (joint_matrix 3 true ex_Jsa ex_Jh ex_Jaff)
                 (ex_pinv (joint_matrix 3 true ex_Jsa ex_Jh ex_Jaff))
                 (obs_sa ++ obs_h)%list 9)
    by (apply ex_lstsq_big; reflexivity).
  pose proof (jacobian_modes_agree ex_commute_parity ex_tile ex_to_gatestring
                ex_consistent_dataset ex_polyfit ex_icommutatorOver2 ex_statedot ex_allerrors
                ex_alloutcomes ex_allobservables ex_matrix_rank ex_pinv
                1 [1; 2] ex_prepDict ex_measDict 1 ["Gi"] true true true
                (ex_options "separate") res_sep res_tog ex_Jsa obs_sa ex_Jh ex_Jaff obs_h
                Es Et (fun _ => Hd) (fun _ => Hh)
                (fun _ => L1) (fun _ => L2) (fun _ _ => L3) (fun _ _ => Horth)) as Hagree.
  exists res_sep, res_tog. repeat split; try assumption; apply Hagree.
Defined.

(** * The data a run reads *)

Section Locality.

Variable commute_parity : ascii -> ascii -> Z.
Variable tile_pauli_fidpairs : list fidpair -> Z -> Z -> list fidpair.
Variable to_gatestring : NQPauliState -> paulidict -> GateString.
Variable np_polyfit : list Z -> list R -> Z -> list R -> result (list R).
Variable icommutatorOver2 : NQPauliOp -> NQPauliOp -> option NQPauliOp.
Variable statedot : NQPauliOp -> NQPauliState -> Z.
Variable allerrors : Z -> Z -> list NQPauliOp.
Variable alloutcomes : NQPauliState -> NQPauliState -> Z -> list NQOutcome.
Variable allobservables : NQPauliState -> Z -> list NQPauliOp.
Variable np_matrix_rank : matrix -> Z.
Variable np_pinv : matrix -> matrix.

(** Two data sets. *)
Variables dataset1 dataset2 : GateString -> option DataSetRow.










End Locality.

(** * [fidpairs_to_pauli_fidpairs]

    The translation of GST-like fiducial pairs (pairs of gate strings) to
    Pauli fiducial pairs. Here a gate string is read through its labels'
    components, of which the function uses the name and the tuple of
    state-space labels. *)

(** A state-space label: a qubit index (an [int]) or something else. *)
Inductive SsLabel : Type :=
| IntLabel (i : Z)
| OtherLabel (s : string).

(** A component of a label: [c.name] and [c.sslbls], a tuple of state-space
    labels (the label class is not part of the code under study; a label
    that carries no such tuple is outside this model). *)
Record Component : Type := mkComponent { comp_name : string; comp_sslbls : list SsLabel }.

(** A label, by [glbl.components], and a gate string of labels. *)
Definition Label : Type := list Component.
Definition LabelString : Type := list Label.

(** [k[-1]] and [k[0]] of a string. *)
Definition last_char (k : string) : result ascii :=
  match rev (chars k) with
  | c :: _ => Ok c
  | [] => Raise IndexError
  end.

Definition first_char (k : string) : result ascii :=
  match chars k with
  | c :: _ => Ok c
  | [] => Raise IndexError
  end.

(** The loop [for k,v in pauliDict.items(): assert(k[-1] in ('X','Y','Z')
    and isinstance(v,tuple)), msg]; the values of a [paulidict] are tuples
    by their type. *)
Definition check_paulidict (pauliDict : paulidict) (msg : string) : result unit :=
  do _ <- mapM (fun '(k, v) => do c <- last_char k ;; py_assert (is_XYZ c) msg) pauliDict ;;
  Ok tt.

Definition gates_eqb (a b : list string) : bool :=
  if list_eq_dec string_dec a b then true else false.

(** A dictionary keyed by tuples of gate names. *)
Fixpoint tuple_get (d : list (list string * string)) (v : list string) : option string :=
  match d with
  | [] => None
  | (v', k) :: d' => if gates_eqb v' v then Some k else tuple_get d' v
  end.

Fixpoint tuple_set (d : list (list string * string)) (v : list string) (k : string)
  : list (list string * string) :=
  match d with
  | [] => [(v, k)]
  | (v', k') :: d' => if gates_eqb v' v then (v, k) :: d' else (v', k') :: tuple_set d' v k
  end.

(** [{ v:k for k,v in pauliDict.items() }]: a later item replaces an earlier
    one with the same gates. *)
Definition reverse_dict (pauliDict : paulidict) : list (list string * string) :=
  fold_left (fun acc '(k, v) => tuple_set acc v k) pauliDict [].

(** The two loops of [convert] that fill [gatenames_per_qubit], a
    [defaultdict(list)]: a function from the key to the list, empty by
    default. *)
Definition add_gatename (acc : Z -> list string) (c : Component) : result (Z -> list string) :=
  do _ <- py_assert (Nat.eqb (List.length (comp_sslbls c)) 1) "" ;;
  do l0 <- getitem (comp_sslbls c) 0 ;;
  match l0 with
  | IntLabel i =>
      Ok (fun j => if j =? i then (acc j ++ [comp_name c])%list else acc j)
  | OtherLabel _ => Raise (AssertionError "")
  end.

Definition gatenames_per_qubit (gstr : LabelString) : result (Z -> list string) :=
  foldM add_gatename (List.concat gstr) (fun _ => []).

(** [range(nQubits)] *)
Definition py_range (n : Z) : list Z := map Z.of_nat (seq 0 (Z.to_nat n)).

(** The body of the loop [for i in range(nQubits)] of [convert]: the letter
    and the sign of qubit [i]. *)
Definition qubit_basis (rev_pauliDict : list (list string * string))
  (names : Z -> list string) (i : Z) : result (ascii * Z) :=
  let basis := tuple_get rev_pauliDict (names i) in
  match basis with
  | None => Raise (AssertionError "")
  | Some basis =>
      do letter <- last_char basis ;;
      do sgn <- first_char basis ;;
      Ok (letter, if Ascii.eqb sgn "-" then -1 else 1)
  end.

Definition convert (nQubits : Z) (gstr : LabelString)
  (rev_pauliDict : list (list string * string)) : result NQPauliState :=
  do names <- gatenames_per_qubit gstr ;;
  do per_qubit <- mapM (qubit_basis rev_pauliDict names) (py_range nQubits) ;;
  Ok (mkState (string_of_list_ascii (map fst per_qubit)) (map snd per_qubit)).

(** The loop over [fidpairsList], with its [try] ... [except AssertionError:
    continue]. *)
Fixpoint convert_all (nQubits : Z) (rev_prepDict rev_measDict : list (list string * string))
  (fidpairsList : list (LabelString * LabelString)) (ret : list fidpair)
  : result (list fidpair) :=
  match fidpairsList with
  | [] => Ok ret
  | (prepStr, measStr) :: rest =>
      let attempt :=
        do prepPauli <- convert nQubits prepStr rev_prepDict ;;
        do measPauli <- convert nQubits measStr rev_measDict ;;
        Ok (prepPauli, measPauli) in
      match attempt with
      | Ok fp => convert_all nQubits rev_prepDict rev_measDict rest (ret ++ [fp])
      | Raise (AssertionError _) => convert_all nQubits rev_prepDict rev_measDict rest ret
      | Raise e => Raise e
      end
  end.

Definition fidpairs_to_pauli_fidpairs (fidpairsList : list (LabelString * LabelString))
  (pauliDicts : paulidict * paulidict) (nQubits : Z) : result (list fidpair) :=
  let '(prepDict, measDict) := pauliDicts in
  do _ <- check_paulidict prepDict "Invalid prep pauli dict format!" ;;
  do _ <- check_paulidict measDict "Invalid measuse pauli dict format!" ;;
  let rev_prepDict := reverse_dict prepDict in
  let rev_measDict := reverse_dict measDict in
  convert_all nQubits rev_prepDict rev_measDict fidpairsList [].

(** ** Properties *)

(** A key that passes the format assertion: not empty, and ending in [X],
    [Y] or [Z]. *)
Definition valid_key (k : string) : bool :=
  match last_char k with
  | Ok c => is_XYZ c
  | Raise _ => false
  end.

Definition valid_paulidict (pauliDict : paulidict) : bool :=
  forallb (fun kv => valid_key (fst kv)) pauliDict.

(** An [n]-qubit Pauli state: [n] letters among [X], [Y], [Z] and [n]
    signs. *)
Definition pauli_state_of (n : Z) (st : NQPauliState) : Prop :=
  List.length (chars (state_rep st)) = Z.to_nat n /\
  Forall (fun c => is_XYZ c = true) (chars (state_rep st)) /\
  List.length (state_signs st) = Z.to_nat n /\
  Forall is_sign (state_signs st).

(** What the loop keeps of one pair. *)
Definition converted_pair (nQubits : Z) (rev_prepDict rev_measDict : list (list string * string))
  (p : LabelString * LabelString) : list fidpair :=
  match convert nQubits (fst p) rev_prepDict, convert nQubits (snd p) rev_measDict with
  | Ok prepPauli, Ok measPauli => [(prepPauli, measPauli)]
  | _, _ => []
  end.

Lemma check_paulidict_valid (pauliDict : paulidict) (msg : string) :
  is_ok (check_paulidict pauliDict msg) = valid_paulidict pauliDict.
Proof.
  unfold check_paulidict, valid_paulidict.
  induction pauliDict as [|[k v] d IH]; simpl; [reflexivity|].
  unfold valid_key. destruct (last_char k) as [c|e]; simpl; [|reflexivity].
  destruct (is_XYZ c); simpl; [|reflexivity].
  destruct (mapM _ d); simpl in *; exact IH.
Qed.

Lemma check_paulidict_message (pauliDict : paulidict) (msg : string) :
  forallb (fun kv => negb (String.eqb (fst kv) "")) pauliDict = true ->
  valid_paulidict pauliDict = false ->
  check_paulidict pauliDict msg = Raise (AssertionError msg).
Proof.
  unfold check_paulidict, valid_paulidict.
  induction pauliDict as [|[k v] d IH]; simpl; [discriminate|].
  intros Hne Hv. apply andb_true_iff in Hne. destruct Hne as [Hk Hd].
  unfold valid_key in Hv. unfold last_char in *.
  destruct (rev (chars k)) as [|c cs] eqn:Ek.
  - exfalso. apply (f_equal (@rev ascii)) in Ek. rewrite rev_involutive in Ek. simpl in Ek.
    assert (k = "") as -> by (rewrite <- (string_of_chars k), Ek; reflexivity).
    discriminate.
  - simpl in *. destruct (is_XYZ c); simpl in *; [|reflexivity].
    specialize (IH Hd Hv). destruct (mapM _ d); simpl in *; [discriminate|exact IH].
Qed.

Lemma gates_eqb_eq (a b : list string) : gates_eqb a b = true <-> a = b.
Proof. unfold gates_eqb. destruct (list_eq_dec string_dec a b); split; congruence. Qed.

Lemma tuple_get_set (d : list (list string * string)) (v v' : list string) (k : string) :
  tuple_get (tuple_set d v k) v' = if gates_eqb v v' then Some k else tuple_get d v'.
Proof.
  induction d as [|[w k'] d IH]; simpl; [reflexivity|].
  destruct (gates_eqb w v) eqn:E; simpl.
  - apply gates_eqb_eq in E; subst w. now destruct (gates_eqb v v').
  - destruct (gates_eqb w v') eqn:E'; [|exact IH].
    destruct (gates_eqb v v') eqn:E''; [|reflexivity].
    apply gates_eqb_eq in E', E''. subst. 
    assert (gates_eqb v' v' = true) by now apply gates_eqb_eq.
    congruence.
Qed.

(** The reversed dictionary gives, for a tuple of gates, the last key of the
    dictionary that has these gates. *)
Lemma reverse_dict_last (pauliDict : paulidict) (v : list string) :
  tuple_get (reverse_dict pauliDict) v =
  fold_left (fun found '(k, v') => if gates_eqb v' v then Some k else found) pauliDict None.
Proof.
  unfold reverse_dict.
  change (@None string) with (tuple_get [] v) at 1.
  generalize (@nil (list string * string)).
  induction pauliDict as [|[k w] d IH]; intros acc; simpl; [reflexivity|].
  rewrite IH, tuple_get_set. reflexivity.
Qed.

Lemma reverse_dict_key (pauliDict : paulidict) (v : list string) (k : string) :
  tuple_get (reverse_dict pauliDict) v = Some k -> In (k, v) pauliDict.
Proof.
  rewrite reverse_dict_last.
  assert (G : forall found,
    fold_left (fun found '(k, v') => if gates_eqb v' v then Some k else found) pauliDict found
      = Some k -> In (k, v) pauliDict \/ found = Some k).
  { induction pauliDict as [|[k' w] d IH]; intros found; simpl; [auto|].
    intros H. destruct (IH _ H) as [Hin|Hf]; [auto|].
    destruct (gates_eqb w v) eqn:E; [|auto].
    apply gates_eqb_eq in E. left; left. congruence. }
  intros H. destruct (G _ H) as [Hin|Hf]; [exact Hin|discriminate].
Qed.

Lemma valid_key_chars (k : string) :
  valid_key k = true ->
  exists c f, last_char k = Ok c /\ is_XYZ c = true /\ first_char k = Ok f.
Proof.
  unfold valid_key, last_char, first_char.
  destruct (chars k) as [|f cs] eqn:E; simpl; [discriminate|].
  destruct (rev cs ++ [f])%list as [|c r] eqn:Er; [discriminate|].
  intros H. exists c, f. auto.
Qed.

(** The only exception of a conversion is the assertion error that the loop
    catches. *)
Definition skipped_or {A : Type} (P : A -> Prop) (r : result A) : Prop :=
  match r with
  | Ok a => P a
  | Raise e => e = AssertionError ""
  end.

Lemma foldM_skipped {St A : Type} (f : St -> A -> result St) (l : list A) (s : St) :
  (forall s a, skipped_or (fun _ => True) (f s a)) ->
  skipped_or (fun _ => True) (foldM f l s).
Proof.
  intros Hf. revert s. induction l as [|a l IH]; intros s; simpl; [exact I|].
  specialize (Hf s a). destruct (f s a); simpl in *; [apply IH|exact Hf].
Qed.

Lemma mapM_skipped {A B : Type} (f : A -> result B) (P : B -> Prop) (l : list A) :
  (forall a, skipped_or P (f a)) -> skipped_or (Forall P) (mapM f l).
Proof.
  intros Hf. induction l as [|a l IH]; simpl; [constructor|].
  specialize (Hf a). destruct (f a); simpl in *; [|exact Hf].
  destruct (mapM f l); simpl in *; [constructor; assumption|exact IH].
Qed.

Lemma gatenames_per_qubit_skipped (gstr : LabelString) :
  skipped_or (fun _ => True) (gatenames_per_qubit gstr).
Proof.
  apply foldM_skipped. intros acc c. unfold add_gatename.
  destruct (comp_sslbls c) as [|l0 [|l1 ls]]; simpl; try reflexivity.
  destruct l0; simpl; [exact I|reflexivity].
Qed.

Lemma qubit_basis_skipped (pauliDict : paulidict) (names : Z -> list string) (i : Z) :
  valid_paulidict pauliDict = true ->
  skipped_or (fun ls => is_XYZ (fst ls) = true /\ is_sign (snd ls))
    (qubit_basis (reverse_dict pauliDict) names i).
Proof.
  intros Hv. unfold qubit_basis.
  destruct (tuple_get (reverse_dict pauliDict) (names i)) as [basis|] eqn:E; [|reflexivity].
  apply reverse_dict_key in E.
  unfold valid_paulidict in Hv. rewrite forallb_forall in Hv.
  destruct (valid_key_chars basis (Hv _ E)) as [c [f [-> [Hc ->]]]]. simpl.
  split; [exact Hc|]. unfold is_sign. destruct (Ascii.eqb f "-"); auto.
Qed.

Lemma py_range_length (n : Z) : List.length (py_range n) = Z.to_nat n.
Proof. unfold py_range. now rewrite length_map, length_seq. Qed.

Lemma convert_skipped (pauliDict : paulidict) (nQubits : Z) (gstr : LabelString) :
  valid_paulidict pauliDict = true ->
  skipped_or (pauli_state_of nQubits) (convert nQubits gstr (reverse_dict pauliDict)).
Proof.
  intros Hv. unfold convert.
  pose proof (gatenames_per_qubit_skipped gstr) as Hg.
  destruct (gatenames_per_qubit gstr) as [names|e]; simpl in *; [|exact Hg].
  pose proof (mapM_skipped (qubit_basis (reverse_dict pauliDict) names) _ (py_range nQubits)
                (fun i => qubit_basis_skipped pauliDict names i Hv)) as Hm.
  destruct (mapM _ (py_range nQubits)) as [per_qubit|e] eqn:E; simpl in *; [|exact Hm].
  apply mapM_length in E. rewrite py_range_length in E.
  unfold pauli_state_of, chars; simpl.
  rewrite list_ascii_of_string_of_list_ascii, !length_map.
  repeat split; try exact E.
  - apply Forall_map. eapply Forall_impl; [|exact Hm]. now intros ? [? ?].
  - apply Forall_map. eapply Forall_impl; [|exact Hm]. now intros ? [? ?].
Qed.

Lemma convert_all_kept (nQubits : Z) (prepDict measDict : paulidict)
  (fidpairsList : list (LabelString * LabelString)) (ret : list fidpair) :
  valid_paulidict prepDict = true -> valid_paulidict measDict = true ->
  convert_all nQubits (reverse_dict prepDict) (reverse_dict measDict) fidpairsList ret =
  Ok (ret ++ flat_map (converted_pair nQubits (reverse_dict prepDict) (reverse_dict measDict))
                      fidpairsList)%list.
Proof.
  intros Hp Hm. revert ret.
  induction fidpairsList as [|[prepStr measStr] l IH]; intros ret; simpl.
  - now rewrite app_nil_r.
  - unfold converted_pair at 1; simpl.
    pose proof (convert_skipped prepDict nQubits prepStr Hp) as H1.
    pose proof (convert_skipped measDict nQubits measStr Hm) as H2.
    destruct (convert nQubits prepStr _) as [a|e1]; simpl in *.
    + destruct (convert nQubits measStr _) as [b|e2]; simpl in *.
      * rewrite IH, <- app_assoc. reflexivity.
      * subst e2. apply IH.
    + subst e1. apply IH.
Qed.

(** X16. [fidpairs_to_pauli_fidpairs] returns exactly when every key of the
    two dictionaries is a non-empty string that ends in [X], [Y] or [Z]: no
    list of fiducial pairs (of gate strings whose label components carry a
    tuple of state-space labels) makes it raise. When all keys are non-empty and a
    key of the preparation dictionary does not end so, the exception is the
    assertion error of the preparation format, whatever the list. *)
Theorem conversion_succeeds_on_valid_dicts
  (fidpairsList : list (LabelString * LabelString)) (prepDict measDict : paulidict)
  (nQubits : Z) :
  is_ok (fidpairs_to_pauli_fidpairs fidpairsList (prepDict, measDict) nQubits) =
    valid_paulidict prepDict && valid_paulidict measDict /\
  (forallb (fun kv => negb (String.eqb (fst kv) "")) prepDict = true ->
   valid_paulidict prepDict = false ->
   fidpairs_to_pauli_fidpairs fidpairsList (prepDict, measDict) nQubits =
     Raise (AssertionError "Invalid prep pauli dict format!")).
Proof.
  unfold fidpairs_to_pauli_fidpairs. split.
  - rewrite <- (check_paulidict_valid prepDict "Invalid prep pauli dict format!").
    destruct (check_paulidict prepDict _) as [[]|e] eqn:Ep; simpl; [|reflexivity].
    rewrite <- (check_paulidict_valid measDict "Invalid measuse pauli dict format!").
    destruct (check_paulidict measDict _) as [[]|e] eqn:Em; simpl; [|reflexivity].
    rewrite convert_all_kept; [reflexivity| |].
    + rewrite <- (check_paulidict_valid prepDict "Invalid prep pauli dict format!"), Ep.
      reflexivity.
    + rewrite <- (check_paulidict_valid measDict "Invalid measuse pauli dict format!"), Em.
      reflexivity.
  - intros Hne Hv. now rewrite (check_paulidict_message _ _ Hne Hv).
Qed.

(** X17. With valid dictionaries the result lists, in the order of the
    input, the pairs of which both gate strings convert, every other pair
    being skipped; each state returned has [nQubits] letters among [X], [Y],
    [Z] and [nQubits] signs, each 1 or -1. *)
Theorem conversion_keeps_convertible_pairs
  (fidpairsList : list (LabelString * LabelString)) (prepDict measDict : paulidict)
  (nQubits : Z) :
  valid_paulidict prepDict = true -> valid_paulidict measDict = true ->
  let kept := flat_map (converted_pair nQubits (reverse_dict prepDict) (reverse_dict measDict))
                       fidpairsList in
  fidpairs_to_pauli_fidpairs fidpairsList (prepDict, measDict) nQubits = Ok kept /\
  (List.length kept <= List.length fidpairsList)%nat /\
  Forall (fun fp => pauli_state_of nQubits (fst fp) /\ pauli_state_of nQubits (snd fp)) kept.
Proof.
  intros Hp Hm kept. split; [|split].
  - unfold fidpairs_to_pauli_fidpairs.
    pose proof (check_paulidict_valid prepDict "Invalid prep pauli dict format!") as E1.
    pose proof (check_paulidict_valid measDict "Invalid measuse pauli dict format!") as E2.
    rewrite Hp in E1. rewrite Hm in E2.
    destruct (check_paulidict prepDict _) as [[]|]; [|discriminate].
    destruct (check_paulidict measDict _) as [[]|]; [|discriminate].
    simpl. now rewrite convert_all_kept.
  - subst kept. induction fidpairsList as [|p l IH]; simpl; [lia|].
    rewrite length_app. unfold converted_pair at 1.
    destruct (convert nQubits (fst p) _); [destruct (convert nQubits (snd p) _)|]; simpl; lia.
  - subst kept. apply Forall_flat_map. apply Forall_forall. intros p _.
    unfold converted_pair.
    pose proof (convert_skipped prepDict nQubits (fst p) Hp) as H1.
    pose proof (convert_skipped measDict nQubits (snd p) Hm) as H2.
    destruct (convert nQubits (fst p) _); [destruct (convert nQubits (snd p) _)|];
      simpl in *; try apply Forall_nil.
    apply Forall_cons; [split; assumption|apply Forall_nil].
Qed.

(** Gate strings on qubit 0: [Gy] then [Gx] converts; a gate on two
    qubits, and a gate sequence that prepares no basis state, do not. *)
Definition ex_gate (name : string) : Label := [mkComponent name [IntLabel 0]].

Definition ex_label_pairs : list (LabelString * LabelString) :=
  [ ([ex_gate "Gy"], [ex_gate "Gx"]);
    ([[mkComponent "Gcnot" [IntLabel 0; IntLabel 1]]], []);
    ([ex_gate "Gx"; ex_gate "Gy"], []);
    ([], [ex_gate "Gx"; ex_gate "Gx"]) ].

Lemma conversion_keeps_convertible_pairs_witness :
  fidpairs_to_pauli_fidpairs ex_label_pairs (ex_prepDict, ex_measDict) 1
  = Ok [ (mkState "X" [1], mkState "Y" [1]); (mkState "Z" [1], mkState "Z" [-1]) ].
Proof.
  exact (proj1 (conversion_keeps_convertible_pairs ex_label_pairs ex_prepDict ex_measDict 1
                  eq_refl eq_refl)).
Defined.

(** * The further properties on the one-qubit instance *)





Lemma stochastic_templates_same_basis_witness :
  exists fidpairs tmpl,
    idle_tomography_fidpairs ex_tile 1 1 false true true default_ham_tmpl default_signs
      default_signs = Ok fidpairs /\
    fidpairs = ex_tile tmpl 1 1 /\ List.length tmpl = 6%nat /\
    Forall (same_basis_pair 1) tmpl.
Proof.
  assert (E : exists fidpairs,
             idle_tomography_fidpairs ex_tile 1 1 false true true default_ham_tmpl
               default_signs default_signs = Ok fidpairs)
    by (eexists; vm_compute; reflexivity).
  destruct E as [fidpairs E].
  assert (Hsigns : Forall (fun s => s = "+" \/ s = "-") default_signs)
    by (repeat (apply Forall_cons; [left; reflexivity|]); apply Forall_nil).
  destruct (stochastic_templates_same_basis ex_commute_parity ex_tile 1 1 true default_ham_tmpl
              default_signs default_signs fidpairs Hsigns Hsigns E)
    as [tmpl [Ht [Hlen [Hsame _]]]].
  exists fidpairs, tmpl. repeat split; assumption.
Defined.



Lemma missing_circuit_fails_witness :
  get_obs_stochastic_err_rate ex_to_gatestring ex_dataset ex_polyfit
    (st1q 1 "Z", st1q 1 "Z") (ex_prepDict, ex_measDict) ["Gi"] (mkOutcome "1") [3; 1] 1
  = Raise (KeyError "gatestring").
Proof.
  refine (proj2 (proj2 (missing_circuit_fails ex_to_gatestring ex_dataset ex_polyfit
                          ex_allerrors (st1q 1 "Z", st1q 1 "Z") (ex_prepDict, ex_measDict)
                          ["Gi"] (mkOutcome "1") (mkOp "Z" 1) [3; 1] 1 3 _ _)) [1] eq_refl).
  - left. reflexivity.
  - reflexivity.
Defined.

Lemma unknown_jacobian_mode_witness : is_ok (ex_run "jointly") = false.
Proof.
  refine (proj1 (unknown_jacobian_mode ex_commute_parity ex_tile ex_to_gatestring ex_dataset
                   ex_polyfit ex_icommutatorOver2 ex_statedot ex_allerrors ex_alloutcomes
                   ex_allobservables ex_matrix_rank ex_pinv 1 [1; 2] ex_prepDict ex_measDict 1
                   ["Gi"] true true true (ex_options "jointly") _ _) eq_refl).
  - cbv. discriminate.
  - cbv. discriminate.
Defined.

Lemma run_records_stage_pairs_witness :
  exists res,
    ex_run "separate" = Ok res /\
    res_maxLengths res = [1; 2] /\
    res_pauli_fidpair_dict res
    = [("stochastic/affine", ex_sto_fidpairs); ("hamiltonian", ex_ham_fidpairs)].
Proof.
  assert (E : exists res, ex_run "separate" = Ok res) by (eexists; run_model; reflexivity).
  destruct E as [res E].
  destruct (run_records_stage_pairs ex_commute_parity ex_tile ex_to_gatestring ex_dataset
              ex_polyfit ex_icommutatorOver2 ex_statedot ex_allerrors ex_alloutcomes
              ex_allobservables ex_matrix_rank ex_pinv 1 [1; 2] ex_prepDict ex_measDict 1
              ["Gi"] true true true (ex_options "separate") res E)
    as [Hl [_ [_ [_ [pps [pms [sfps [hfps [si [hi [_ [_ [Hd [_ [_ [_ Hgiven]]]]]]]]]]]]]]]].
  cbn [opt_pauli_fidpairs ex_options] in Hgiven. destruct Hgiven as [Hs Hh].
  exists res. split; [exact E|]. split; [exact Hl|].
  rewrite Hd, (Hs eq_refl), (Hh eq_refl). reflexivity.
Defined.

Lemma separate_stages_independent_witness :
  exists res res_s,
    ex_run "separate" = Ok res /\
    ex_idle_tomography 1 [1; 2] (ex_prepDict, ex_measDict) 1 ["Gi"] false true true
      (ex_options "separate") = Ok res_s /\
    dict_get (res_intrinsic_rates res_s) "stochastic"
    = dict_get (res_intrinsic_rates res) "stochastic" /\
    dict_get (res_intrinsic_rates res_s) "affine"
    = dict_get (res_intrinsic_rates res) "affine".
Proof.
  assert (E : exists res, ex_run "separate" = Ok res) by (eexists; run_model; reflexivity).
  destruct E as [res E].
  destruct (separate_stages_independent ex_commute_parity ex_tile ex_to_gatestring ex_dataset
              ex_polyfit ex_icommutatorOver2 ex_statedot ex_allerrors ex_alloutcomes
              ex_allobservables ex_matrix_rank ex_pinv 1 [1; 2] ex_prepDict ex_measDict 1
              ["Gi"] true true true (ex_options "separate") res eq_refl E)
    as [[res_s [Hs [_ Hsame]]] _].
  exists res, res_s. split; [exact E|]. split; [exact Hs|].
  split; apply Hsame; discriminate.
Defined.

Lemma separate_rates_from_full_rank_witness :
  exists res Jsa obs_sa Jh Jaff obs_h,
    ex_run "separate" = Ok res /\
    stochastic_design ex_commute_parity ex_tile ex_to_gatestring ex_dataset ex_polyfit
      ex_allerrors ex_alloutcomes 1 [1; 2] (ex_prepDict, ex_measDict) 1 ["Gi"] true true
      (ex_options "separate") = Ok (Jsa, obs_sa) /\
    hamiltonian_design ex_tile ex_to_gatestring ex_dataset ex_polyfit ex_icommutatorOver2
      ex_statedot ex_allerrors ex_allobservables 1 [1; 2] (ex_prepDict, ex_measDict) 1 ["Gi"]
      true true (ex_options "separate") = Ok (Jh, Jaff, obs_h) /\
    6 <= ex_matrix_rank Jsa /\ 3 <= ex_matrix_rank Jh.
Proof.
  assert (E : exists res, ex_run "separate" = Ok res) by (eexists; run_model; reflexivity).
  destruct E as [res E].
  destruct (separate_rates_from_full_rank ex_commute_parity ex_tile ex_to_gatestring
              ex_dataset ex_polyfit ex_icommutatorOver2 ex_statedot ex_allerrors
              ex_alloutcomes ex_allobservables ex_matrix_rank ex_pinv 1 [1; 2] ex_prepDict
              ex_measDict 1 ["Gi"] true true true (ex_options "separate") res eq_refl E)
    as [Hsto Hham].
  destruct (Hsto eq_refl) as [Jsa [obs_sa [n [Hd [Hn [Hr _]]]]]].
  destruct (Hham eq_refl) as [Jh [Jaff [obs_h [m [Hdh [Hm [Hrh _]]]]]]].
  exists res, Jsa, obs_sa, Jh, Jaff, obs_h.
  split; [exact E|]. split; [exact Hd|]. split; [exact Hdh|].
  assert (Hd' : stochastic_design ex_commute_parity ex_tile ex_to_gatestring ex_dataset
                  ex_polyfit ex_allerrors ex_alloutcomes 1 [1; 2] (ex_prepDict, ex_measDict)
                  1 ["Gi"] true true (ex_options "separate") = Ok (Jsa, obs_sa)) by exact Hd.
  assert (Hdh' : hamiltonian_design ex_tile ex_to_gatestring ex_dataset ex_polyfit
                   ex_icommutatorOver2 ex_statedot ex_allerrors ex_allobservables 1 [1; 2]
                   (ex_prepDict, ex_measDict) 1 ["Gi"] true true (ex_options "separate")
                 = Ok (Jh, Jaff, obs_h)) by exact Hdh.
  revert Hd' Hdh'. run_model. intros Hd' Hdh'.
  injection Hd' as <- _. injection Hdh' as <- _ _.
  revert Hn Hm Hr Hrh. run_model. intros Hn Hm Hr Hrh.
  injection Hn as <-. injection Hm as <-. split; assumption.
Defined.

Lemma together_rates_from_joint_system_witness :
  exists res Jsa obs_sa Jh Jaff obs_h,
    ex_run "together" = Ok res /\
    let X := mv (ex_pinv (joint_matrix 3 true Jsa Jh Jaff)) (obs_sa ++ obs_h)%list in
    dict_get (res_intrinsic_rates res) "hamiltonian" = Some (slice 0 3 X) /\
    dict_get (res_intrinsic_rates res) "stochastic" = Some (slice 3 3 X) /\
    dict_get (res_intrinsic_rates res) "affine" = Some (slice 6 3 X).
Proof.
  assert (E : exists res, ex_run "together" = Ok res) by (eexists; run_model; reflexivity).
  destruct E as [res E].
  evar (obs_sa : vector). evar (obs_h : vector).
  assert (Hd : stochastic_design ex_commute_parity ex_tile ex_to_gatestring ex_dataset
                 ex_polyfit ex_allerrors ex_alloutcomes 1 [1; 2] (ex_prepDict, ex_measDict)
                 1 ["Gi"] true true (ex_options "together") = Ok (ex_Jsa, obs_sa))
    by (subst obs_sa; run_model; reflexivity).
  assert (Hh : hamiltonian_design ex_tile ex_to_gatestring ex_dataset ex_polyfit
                 ex_icommutatorOver2 ex_statedot ex_allerrors ex_allobservables 1 [1; 2]
                 (ex_prepDict, ex_measDict) 1 ["Gi"] true true (ex_options "together")
               = Ok (ex_Jh, ex_Jaff, obs_h))
    by (subst obs_h; run_model; reflexivity).
  assert (Hnes : ex_Jsa <> []) by discriminate.
  assert (Hneh : ex_Jh <> []) by discriminate.
  destruct (together_rates_from_joint_system ex_commute_parity ex_tile ex_to_gatestring
              ex_dataset ex_polyfit ex_icommutatorOver2 ex_statedot ex_allerrors
              ex_alloutcomes ex_allobservables ex_matrix_rank ex_pinv 1 [1; 2] ex_prepDict
              ex_measDict 1 ["Gi"] true (ex_options "together") res ex_Jsa obs_sa ex_Jh
              ex_Jaff obs_h eq_refl E Hd Hh Hnes Hneh)
    as [_ [_ [_ [H1 [H2 H3]]]]].
  exists res, ex_Jsa, obs_sa, ex_Jh, ex_Jaff, obs_h.
  split; [exact E|]. repeat split; assumption.
Defined.

(** Options that give no fiducial pairs, and one-letter templates for the
    Hamiltonian pairs of error weight one. *)
Definition ex_generating_options : AdvancedOptions :=
  mkOptions (Some "separate") (Some default_signs) (Some default_signs) None None
    (Some ["X"; "Y"; "Z"]).

Lemma experiment_list_of_the_stages_witness :
  exists exps,
    make_idle_tomography_list ex_tile ex_to_gatestring 1 (ex_prepDict, ex_measDict) [1; 2] 1
      true true true ["X"; "Y"; "Z"] (Some default_signs) (Some default_signs) ["Gi"]
    = Ok exps /\
    List.length exps = 18%nat.
Proof.
  assert (E : exists exps,
             make_idle_tomography_list ex_tile ex_to_gatestring 1 (ex_prepDict, ex_measDict)
               [1; 2] 1 true true true (ham_tmpl_option ex_generating_options)
               (opt_preferred_prep_basis_signs ex_generating_options)
               (opt_preferred_meas_basis_signs ex_generating_options) ["Gi"] = Ok exps)
    by (eexists; vm_compute; reflexivity).
  destruct E as [exps E].
  destruct (experiment_list_of_the_stages ex_tile ex_to_gatestring 1 ex_prepDict ex_measDict
              [1; 2] 1 true true true ex_generating_options ["Gi"] exps E)
    as [pps [pms [sfps [hfps [Hpp [Hpm [Hs [Hh [_ Hlen]]]]]]]]].
  exists exps. split; [exact E|]. rewrite Hlen.
  injection Hpp as <-. injection Hpm as <-.
  revert Hs Hh. vm_compute. intros Hs Hh. injection Hs as <-. injection Hh as <-.
  reflexivity.
Defined.



(** Sixty-three qubits, error and observable X on each: every qubit
    contributes 2, and the product of 63 twos does not fit in 64 bits. *)
Definition ex_wide_state : NQPauliState :=
  mkState (string_of_list_ascii (repeat "X"%char 63)) (repeat 1 63).

Definition ex_wide_op : NQPauliOp := mkOp (string_of_list_ascii (repeat "X"%char 63)) 1.

Lemma affine_jac_obs_element_product_witness :
  affine_jac_obs_element ex_wide_state ex_wide_op ex_wide_state ex_wide_op = Ok (- 2 ^ 63) /\
  np_prod (map affobs_qubit_rule (affobs_zip ex_wide_state ex_wide_op ex_wide_state ex_wide_op))
  = 2 ^ 63.
Proof.
  split; [|vm_compute; reflexivity].
  rewrite (proj1 (affine_jac_obs_element_product ex_commute_parity ex_to_gatestring
                    ex_icommutatorOver2 ex_statedot ex_allerrors ex_alloutcomes
                    ex_allobservables ex_wide_state ex_wide_op ex_wide_state ex_wide_op)).
  - vm_compute. reflexivity.
  - vm_compute. repeat (apply Forall_cons; [split; reflexivity|]). apply Forall_nil.
Defined.
